(** * ddx screen readers: change detection, extraction and dispatch

    A shallow embedding of the two polling programs of the repository,

    - [TEST screen reader/screen_text_analyzer.py] (the digest loop) and
    - [scripts/screen_text_monitor.py] (the fuzzy loop),

    together with the parts of the Python standard library they rest on
    ([str.strip], [str.splitlines], [re], [hashlib.sha1], [difflib]).

    Conventions.  A Python [str] is a list of Unicode code points ([N]);
    Python integers are [Z]; the [float] options are binary64 values
    ([PrimFloat]).  Printing is recorded as a list of events. *)

From Stdlib Require Import ZArith NArith Lia Bool Floats String Ascii DecimalString DecimalPos.
From stdpp Require Import base list gmap sorting.

Local Open Scope N_scope.

(** ** Text *)

(** An ASCII literal as a text, for the constants of the programs. *)
Definition text_of (s : string) : list N :=
  map (fun a => N.of_nat (nat_of_ascii a)) (list_ascii_of_string s).

Module Chars.
Definition LF : N := 10.
Definition CR : N := 13.
Definition TAB : N := 9.
Definition SPACE : N := 32.
End Chars.

(** [str.isspace] for one code point: the Unicode white space table of
    CPython ([_PyUnicode_IsWhitespace]); it is also what [\s] matches. *)
Definition isspace (c : N) : bool :=
  ((9 <=? c) && (c <=? 13)) || ((28 <=? c) && (c <=? 32))
  || (c =? 0x85) || (c =? 0xa0) || (c =? 0x1680)
  || ((0x2000 <=? c) && (c <=? 0x200a))
  || (c =? 0x2028) || (c =? 0x2029) || (c =? 0x202f) || (c =? 0x205f)
  || (c =? 0x3000).

(** The line boundaries of [str.splitlines]. *)
Definition islinebreak (c : N) : bool :=
  ((10 <=? c) && (c <=? 13)) || ((28 <=? c) && (c <=? 30))
  || (c =? 0x85) || (c =? 0x2028) || (c =? 0x2029).

(** [s.lstrip()], [s.rstrip()], [s.strip()] *)
Fixpoint lstrip (s : list N) : list N :=
  match s with
  | c :: s' => if isspace c then lstrip s' else s
  | [] => []
  end.

Fixpoint rstrip (s : list N) : list N :=
  match s with
  | c :: s' =>
      match rstrip s' with
      | [] => if isspace c then [] else [c]
      | r => c :: r
      end
  | [] => []
  end.

Definition strip (s : list N) : list N := rstrip (lstrip s).

(** [s.splitlines()]: the lines of [s] without their line ends.  A
    ["\r\n"] pair is one line end, and a line end that closes the text
    opens no further line. *)
Fixpoint splitlines (s : list N) : list (list N) :=
  match s with
  | [] => []
  | c :: rest =>
      if islinebreak c then
        [] :: match rest with
              | d :: rest' =>
                  if (c =? Chars.CR) && (d =? Chars.LF)
                  then splitlines rest' else splitlines rest
              | [] => []
              end
      else
        match splitlines rest with
        | [] => [[c]]
        | l :: ls => (c :: l) :: ls
        end
  end.

(** [sep.join(parts)] *)
Fixpoint join (sep : list N) (parts : list (list N)) : list N :=
  match parts with
  | [] => []
  | [p] => p
  | p :: ps => p ++ sep ++ join sep ps
  end.

Definition nonempty (s : list N) : bool :=
  match s with [] => false | _ => true end.

(** [clean_text] of the digest loop:
<<
    lines = [ln.strip() for ln in text.splitlines()]
    lines = [ln for ln in lines if ln]
    return "\n".join(lines)
>> *)
Definition clean_text (text : list N) : list N :=
  let lines := map strip (splitlines text) in
  let lines := filter (fun ln => nonempty ln = true) lines in
  join [Chars.LF] lines.

(** ** Regular expressions

    The fragment of Python's [re] that the two programs use, with the
    semantics of its backtracking matcher: alternatives are tried left
    to right, repetition is greedy, and the first way to match wins. *)

Inductive regex : Type :=
| Eps
| Lit (c : N)
| Cls (p : N -> bool)
| Cat (r1 r2 : regex)
| Alt (r1 r2 : regex)
| Rep (lo : nat) (r : regex)      (* r{lo,}: lo = 0 is r*, lo = 1 is r+ *)
| WordB.                          (* \b *)

(** [\w] and [str.lower] consult the Unicode database.  The model holds
    the ASCII rows of both tables, where every literal of the programs
    lies; other code points count as non-word and have no lower case. *)
Definition in_range (lo hi c : N) : bool := (lo <=? c) && (c <=? hi).
Definition is_upper (c : N) : bool := in_range 65 90 c.
Definition is_alpha (c : N) : bool := in_range 65 90 c || in_range 97 122 c.
Definition is_digit (c : N) : bool := in_range 48 57 c.
Definition is_word (c : N) : bool := is_alpha c || is_digit c || (c =? 95).

Definition lower (s : list N) : list N :=
  map (fun c => if is_upper c then c + 32 else c) s.

Definition word_before (prev : option N) : bool :=
  match prev with Some c => is_word c | None => false end.
Definition word_after (s : list N) : bool :=
  match s with c :: _ => is_word c | [] => false end.

Section Matcher.
Context {R : Type}.

(** The loop of a greedy repetition [r{lo,}], over the matcher [body]
    of [r]: one more round while [body] matches and consumes, else
    leave through [k] once [lo] rounds are done.  No round can be
    empty, so [length s + 1] rounds of fuel are never used up. *)
Fixpoint rep_loop
    (body : option N -> list N -> (option N -> list N -> option R) -> option R)
    (k : option N -> list N -> option R)
    (fuel lo : nat) (prev : option N) (s : list N) {struct fuel} : option R :=
  let stop (_ : unit) := match lo with O => k prev s | S _ => None end in
  match fuel with
  | O => stop ()
  | S fuel' =>
      match body prev s (fun prev' s' =>
                if (length s' <? length s)%nat
                then rep_loop body k fuel' (Nat.pred lo) prev' s' else None) with
      | Some x => Some x
      | None => stop ()
      end
  end.

(** [m r prev s k]: match [r] at the head of [s] ([prev] is the
    character before it), then hand what is left to [k]; [None] makes
    the matcher backtrack. *)
Fixpoint m (r : regex) (prev : option N) (s : list N)
    (k : option N -> list N -> option R) {struct r} : option R :=
  match r with
  | Eps => k prev s
  | Lit c =>
      match s with
      | x :: s' => if x =? c then k (Some x) s' else None
      | [] => None
      end
  | Cls p =>
      match s with
      | x :: s' => if p x then k (Some x) s' else None
      | [] => None
      end
  | Cat r1 r2 => m r1 prev s (fun prev' s' => m r2 prev' s' k)
  | Alt r1 r2 =>
      match m r1 prev s k with
      | Some x => Some x
      | None => m r2 prev s k
      end
  | WordB => if xorb (word_before prev) (word_after s) then k prev s else None
  | Rep lo r' => rep_loop (m r') k (S (length s)) lo prev s
  end.
End Matcher.

(** One attempt at a position: the matched text.  [must_advance] is the
    rule of [finditer] after an empty match: the next match may not be
    empty at the same place. *)
Definition match_here (r : regex) (must_advance : bool)
    (prev : option N) (s : list N) : option (list N) :=
  match m r prev s (fun _ s' =>
          if must_advance && (length s' =? length s)%nat then None else Some s') with
  | Some rest => Some (take (length s - length rest)%nat s)
  | None => None
  end.

Inductive token : Type :=
| Skipped (c : N)
| Matched (mt : list N).

(** The scan shared by [re.finditer], [re.findall], [re.search] and
    [re.sub]: leftmost matches, not overlapping.  [skip] counts the
    characters still covered by the match just reported. *)
Fixpoint scan (r : regex) (skip : nat) (prev : option N) (s : list N) : list token :=
  let advance (_ : unit) :=
    match s with
    | c :: s' => Skipped c :: scan r 0 (Some c) s'
    | [] => []
    end in
  let consume (mt : list N) :=
    match s with
    | c :: s' => scan r (length mt) (Some c) s'
    | [] => []
    end in
  match skip with
  | S n =>
      match s with
      | c :: s' => scan r n (Some c) s'
      | [] => []
      end
  | O =>
      match match_here r false prev s with
      | Some (c0 :: mt) => Matched (c0 :: mt) :: consume mt
      | Some [] =>
          Matched [] ::
            match match_here r true prev s with
            | Some (c0 :: mt) => Matched (c0 :: mt) :: consume mt
            | _ => advance ()
            end
      | None => advance ()
      end
  end.

Definition matches_of (ts : list token) : list (list N) :=
  omap (fun t => match t with Matched mt => Some mt | Skipped _ => None end) ts.

(** [re.findall(r, s)] for a pattern without groups, and the
    [m.group(0)] of [re.finditer(r, s)]. *)
Definition findall (r : regex) (s : list N) : list (list N) :=
  matches_of (scan r 0 None s).

(** [re.search(r, s)] as a truth value *)
Definition search (r : regex) (s : list N) : bool :=
  match findall r s with [] => false | _ => true end.

(** [re.sub(r, repl, s)] for a replacement without back references *)
Definition sub_tokens (repl : list N) (ts : list token) : list N :=
  concat (map (fun t => match t with Skipped c => [c] | Matched _ => repl end) ts).

Definition sub (r : regex) (repl : list N) (s : list N) : list N :=
  sub_tokens repl (scan r 0 None s).

(** [normalize_text] of the fuzzy loop:
<<
    text = text.replace("\r", "")
    text = re.sub(r"[ \t]+", " ", text)
    text = re.sub(r"\n{3,}", "\n\n", text)
    return text.strip()
>> *)
Definition is_hspace (c : N) : bool := (c =? Chars.SPACE) || (c =? Chars.TAB).
Definition re_hspaces : regex := Rep 1 (Cls is_hspace).
Definition re_newlines3 : regex := Rep 3 (Lit Chars.LF).

Definition remove_cr (text : list N) : list N :=
  filter (fun c => c ≠ Chars.CR) text.

Definition normalize_text (text : list N) : list N :=
  let text := remove_cr text in
  let text := sub re_hspaces [Chars.SPACE] text in
  let text := sub re_newlines3 [Chars.LF; Chars.LF] text in
  strip text.


(** ** Digest: [sha1(cleaned.encode("utf-8")).hexdigest()] *)

(** [str.encode("utf-8")].  Captured text is what the OCR wrapper decoded
    from UTF-8, a sequence of Unicode scalar values, so the encoder's
    error case (a lone surrogate) does not arise and is not modelled. *)
Definition utf8_char (c : N) : list N :=
  if c <? 0x80 then [c]
  else if c <? 0x800 then
    [N.lor 0xC0 (N.shiftr c 6); N.lor 0x80 (N.land c 0x3F)]
  else if c <? 0x10000 then
    [N.lor 0xE0 (N.shiftr c 12);
     N.lor 0x80 (N.land (N.shiftr c 6) 0x3F);
     N.lor 0x80 (N.land c 0x3F)]
  else
    [N.lor 0xF0 (N.shiftr c 18);
     N.lor 0x80 (N.land (N.shiftr c 12) 0x3F);
     N.lor 0x80 (N.land (N.shiftr c 6) 0x3F);
     N.lor 0x80 (N.land c 0x3F)].

Definition encode_utf8 (s : list N) : list N := concat (map utf8_char s).

Module SHA1.
(** FIPS 180-4, on 32-bit words held in [N]. *)
Definition mask : N := 0xFFFFFFFF.
Definition w32 (x : N) : N := N.land x mask.
Definition add32 (x y : N) : N := w32 (x + y).
Definition rotl (n x : N) : N :=
  w32 (N.lor (N.shiftl x n) (N.shiftr x (32 - n))).
Definition not32 (x : N) : N := N.lxor x mask.

(** big-endian bytes of a [k]-byte quantity *)
Fixpoint be_bytes (k : nat) (x : N) : list N :=
  match k with
  | O => []
  | S k' => N.land (N.shiftr x (8 * N.of_nat k')) 0xFF :: be_bytes k' x
  end.

Definition be_word (bs : list N) : N :=
  fold_left (fun acc b => N.lor (N.shiftl acc 8) b) bs 0.

Definition pad (msg : list N) : list N :=
  let len := N.of_nat (length msg) in
  let zeros := (119 - len mod 64) mod 64 in
  msg ++ [0x80] ++ repeat 0 (N.to_nat zeros) ++ be_bytes 8 (8 * len).

(** cut into [n] pieces of [size] elements *)
Fixpoint chunks {A} (size n : nat) (l : list A) : list (list A) :=
  match n with
  | O => []
  | S n' => take size l :: chunks size n' (drop size l)
  end.

(** The message schedule, newest word first: [ws] holds W(t-1), W(t-2), ... *)
Fixpoint schedule (n : nat) (ws : list N) : list N :=
  match n with
  | O => ws
  | S n' =>
      let w i := nth i ws 0 in
      schedule n' (rotl 1 (N.lxor (N.lxor (w 2%nat) (w 7%nat))
                                  (N.lxor (w 13%nat) (w 15%nat))) :: ws)
  end.

Definition f (t : nat) (b c d : N) : N :=
  if (t <? 20)%nat then N.lor (N.land b c) (N.land (not32 b) d)
  else if (t <? 40)%nat then N.lxor (N.lxor b c) d
  else if (t <? 60)%nat then
    N.lor (N.lor (N.land b c) (N.land b d)) (N.land c d)
  else N.lxor (N.lxor b c) d.

Definition K (t : nat) : N :=
  if (t <? 20)%nat then 0x5A827999
  else if (t <? 40)%nat then 0x6ED9EBA1
  else if (t <? 60)%nat then 0x8F1BBCDC
  else 0xCA62C1D6.

Record state : Type := St { ha : N; hb : N; hc : N; hd : N; he : N }.

Definition round (st : state) (tw : nat * N) : state :=
  let '(t, w) := tw in
  let 'St a b c d e := st in
  let temp := add32 (add32 (add32 (add32 (rotl 5 a) (f t b c d)) e) (K t)) w in
  St temp a (rotl 30 b) c d.

Definition compress (h : state) (block : list N) : state :=
  let w16 := map be_word (chunks 4 16 block) in
  let ws := rev (schedule 64 (rev w16)) in
  let r := fold_left round (zip (seq 0 80) ws) h in
  St (add32 (ha h) (ha r)) (add32 (hb h) (hb r)) (add32 (hc h) (hc r))
     (add32 (hd h) (hd r)) (add32 (he h) (he r)).

Definition init : state :=
  St 0x67452301 0xEFCDAB89 0x98BADCFE 0x10325476 0xC3D2E1F0.

Definition hash (msg : list N) : state :=
  let padded := pad msg in
  fold_left compress (chunks 64 (length padded / 64) padded) init.

Definition hex_digit (x : N) : N := if x <? 10 then 48 + x else 87 + x.

(** eight lower-case hexadecimal digits of a word *)
Definition hex_word (x : N) : list N :=
  map (fun i => hex_digit (N.land (N.shiftr x (4 * i)) 0xF)) [7; 6; 5; 4; 3; 2; 1; 0].

Definition hexdigest (msg : list N) : list N :=
  let 'St a b c d e := hash msg in
  hex_word a ++ hex_word b ++ hex_word c ++ hex_word d ++ hex_word e.
End SHA1.

(** [digest = sha1(cleaned.encode("utf-8")).hexdigest() if cleaned else ""] *)
Definition digest_of (cleaned : list N) : list N :=
  if nonempty cleaned then SHA1.hexdigest (encode_utf8 cleaned) else [].


(** ** Pattern extraction ([analyze_text]) *)

(** a literal word as a pattern *)
Definition lits (w : string) : regex :=
  foldr (fun c r => Cat (Lit c) r) Eps (text_of w).

(** [(w1|w2|...)] *)
Definition one_of (ws : list string) : regex :=
  match ws with
  | [] => Eps
  | w :: ws' => fold_left (fun r w' => Alt r (lits w')) ws' (lits w)
  end.

Definition opt (r : regex) : regex := Alt r Eps.

Definition chr (a : ascii) : N := N.of_nat (nat_of_ascii a).
Definition among (cs : string) (c : N) : bool :=
  existsb (N.eqb c) (text_of cs).

(** [[A-Za-z][A-Za-z'-]{1,}] *)
Definition re_word : regex :=
  Cat (Cls is_alpha) (Rep 1 (Cls (fun c => is_alpha c || among "'-" c))).

(** [https?://[^\s)]+] *)
Definition re_url : regex :=
  Cat (lits "http") (Cat (opt (Lit (chr "s"))) (Cat (lits "://")
    (Rep 1 (Cls (fun c => negb (isspace c || among ")" c)))))).

(** [[A-Za-z0-9._%+-]+@[A-Za-z0-9.-]+\.[A-Za-z]{2,}] *)
Definition re_email : regex :=
  Cat (Rep 1 (Cls (fun c => is_alpha c || is_digit c || among "._%+-" c)))
   (Cat (Lit (chr "@"))
    (Cat (Rep 1 (Cls (fun c => is_alpha c || is_digit c || among ".-" c)))
     (Cat (Lit (chr "."))
      (Rep 2 (Cls is_alpha))))).

(** [\b(todo|to do|fixme|action item|deadline|due|follow up|next step)\b] *)
Definition re_todo : regex :=
  Cat WordB (Cat (one_of ["todo"; "to do"; "fixme"; "action item"; "deadline";
                          "due"; "follow up"; "next step"]%string) WordB).

(** [\b(urgent|asap|immediately|critical|blocker|high priority)\b] *)
Definition re_urgency : regex :=
  Cat WordB (Cat (one_of ["urgent"; "asap"; "immediately"; "critical";
                          "blocker"; "high priority"]%string) WordB).

Definition STOP_WORDS : list (list N) :=
  map text_of
    ["the"; "and"; "for"; "that"; "with"; "you"; "this"; "from"; "have";
     "are"; "your"; "was"; "will"; "can"; "all"; "not"; "but"; "has"; "its";
     "they"; "what"; "when"; "where"; "how"; "why"; "then"; "into"; "about";
     "there"; "their"; "them"; "just"; "more"; "some"; "out"; "any"]%string.

(** Order on texts as Python compares [str]: by code point, then length. *)
Fixpoint text_ltb (a b : list N) : bool :=
  match a, b with
  | _, [] => false
  | [], _ :: _ => true
  | x :: a', y :: b' => (x <? y) || ((x =? y) && text_ltb a' b')
  end.

(** [sorted(set(xs))]: increasing, each value once *)
Fixpoint insert_sorted (x : list N) (l : list (list N)) : list (list N) :=
  match l with
  | [] => [x]
  | y :: l' =>
      if text_ltb x y then x :: l
      else if text_ltb y x then y :: insert_sorted x l'
      else l
  end.

Definition sorted_set (xs : list (list N)) : list (list N) :=
  foldr insert_sorted [] xs.

(** [Counter(words)]: a tally that keeps the order of first appearance *)
Fixpoint tally (w : list N) (c : list (list N * Z)) : list (list N * Z) :=
  match c with
  | [] => [(w, 1%Z)]
  | (w', n) :: c' =>
      if bool_decide (w = w') then (w', (n + 1)%Z) :: c' else (w', n) :: tally w c'
  end.

Definition Counter (words : list (list N)) : list (list N * Z) :=
  fold_left (fun c w => tally w c) words [].

(** [most_common(n)]: by decreasing count, equal counts in tally order *)
Fixpoint insert_by_count (x : list N * Z) (l : list (list N * Z)) : list (list N * Z) :=
  match l with
  | [] => [x]
  | y :: l' => if (y.2 <? x.2)%Z then x :: l else y :: insert_by_count x l'
  end.

Definition most_common (n : nat) (c : list (list N * Z)) : list (list N * Z) :=
  take n (fold_left (fun acc x => insert_by_count x acc) c []).

Definition len {A} (l : list A) : Z := Z.of_nat (length l).

Record Analysis : Type := {
  char_count : Z;
  word_count : Z;
  top_words : list (list N * Z);
  urls : list (list N);
  emails : list (list N);
  todo_signals : list (list N);
  question_count : Z;
  urgency_hits : list (list N);
}.

Definition analyze_text (text : list N) : Analysis :=
  let words := findall re_word (lower text) in
  let filtered := filter (fun w => w ∉ STOP_WORDS) words in
  let counts := Counter filtered in
  {| char_count := len text;
     word_count := len words;
     top_words := most_common 8 counts;
     urls := sorted_set (findall re_url text);
     emails := sorted_set (findall re_email text);
     todo_signals := sorted_set (findall re_todo (lower text));
     question_count := len (filter (fun c => c = chr "?") text);
     urgency_hits := sorted_set (findall re_urgency (lower text)) |}.


(** [summarize_recent(history)] *)
Definition decimal (z : Z) : list N := text_of (NilZero.string_of_int (Z.to_int z)).

Definition or_else (s alt : list N) : list N := if nonempty s then s else alt.

Definition summarize_recent (history : list (list N)) : list N :=
  match history with
  | [] => text_of "No text captured yet."
  | _ =>
      let combined := join [Chars.LF] history in
      let words := findall re_word (lower combined) in
      let counts := Counter (filter (fun w => w ∉ STOP_WORDS) words) in
      let top :=
        or_else (join (text_of ", ")
                   (map (fun wn => wn.1 ++ text_of "(" ++ decimal wn.2 ++ text_of ")")
                        (most_common 6 counts)))
                (text_of "n/a") in
      text_of "Recent topic terms: " ++ top
  end.

(** ** Exceptions, events, sleeping *)

Inductive exn : Type :=
| KeyboardInterrupt
| ValueError (msg : list N)
| OverflowError (msg : list N)
| RuntimeError (msg : list N)
| OtherException (msg : list N).

(** what [except Exception] catches *)
Definition is_Exception (e : exn) : bool :=
  match e with KeyboardInterrupt => false | _ => true end.

(** [str(e)] *)
Definition exn_str (e : exn) : list N :=
  match e with
  | KeyboardInterrupt => []
  | ValueError msg | OverflowError msg | RuntimeError msg | OtherException msg => msg
  end.

Inductive result (A : Type) : Type :=
| Ok (a : A)
| Raise (e : exn).
Arguments Ok {A} a.
Arguments Raise {A} e.

Inductive event : Type :=
| Stdout (line : list N)
| Stderr (line : list N)
| Slept (seconds : float)
| PrintAnalysis (a : Analysis) (snippet recent_summary : list N)
| Block (title body : list N)
| NoChange (changed : Z).

(** Python's [max(a, b)] on floats: [b] if [b > a], else [a]. *)
Definition py_max (a b : float) : float := if PrimFloat.ltb a b then b else a.

(** [time.sleep(d)] of CPython 3.11: the argument becomes a signed
    64-bit count of nanoseconds; NaN, a count out of range and a
    negative count are refused.  The range test is made on the binary64
    value [ns] and lets [2^63] through; the conversion to 64 bits then
    wraps it to [-2^63], which is refused as a negative count.  What
    the operating system does with a count that is accepted is not
    modelled. *)
Definition time_sleep (d : float) : option exn :=
  let ns := PrimFloat.mul d 1e9%float in
  if PrimFloat.is_nan d then
    Some (ValueError (text_of "Invalid value NaN (not a number)"))
  else if PrimFloat.ltb ns (-9223372036854775808)%float
          || PrimFloat.ltb 9223372036854775808%float ns then
    Some (OverflowError (text_of "timestamp too large to convert to C _PyTime_t"))
  else if PrimFloat.ltb d 0%float || PrimFloat.eqb ns 9223372036854775808%float then
    Some (ValueError (text_of "sleep length must be non-negative"))
  else None.

(** end of an iteration: sleep, then go on with state [st] *)
Definition sleep_then {S : Type} (d : float) (events : list event) (st : S)
    : list event * result S :=
  match time_sleep d with
  | None => (events ++ [Slept d], Ok st)
  | Some e => (events, Raise e)
  end.

(** How a program run ends, as far as the scripted inputs reach. *)
Inductive ending (S : Type) : Type :=
| Exit (status : Z)
| Uncaught (e : exn)
| Running (st : S).
Arguments Exit {S} status.
Arguments Uncaught {S} e.
Arguments Running {S} st.


(** ** The digest loop ([screen_text_analyzer.py]) *)

(** [s.split(sep)] for a one-character separator *)
Fixpoint split_on (sep : N) (s : list N) : list (list N) :=
  match s with
  | [] => [[]]
  | c :: s' =>
      if c =? sep then [] :: split_on sep s'
      else match split_on sep s' with
           | l :: ls => (c :: l) :: ls
           | [] => [[c]]
           end
  end.

(** [int(v)] on a text, base ten: blanks around, a sign, digits with
    single underscores between them (ASCII digits).  The message of the
    error quotes [v] the way [repr] prints a text without quotes or
    escapes. *)
Fixpoint digits_value (acc : Z) (after_digit : bool) (s : list N) : option Z :=
  match s with
  | [] => if after_digit then Some acc else None
  | c :: s' =>
      if is_digit c then digits_value (acc * 10 + Z.of_N (c - 48))%Z true s'
      else if (c =? 95) && after_digit then digits_value acc false s'
      else None
  end.

Definition py_int (v : list N) : result Z :=
  let bad := Raise (ValueError (text_of "invalid literal for int() with base 10: '"
                                   ++ v ++ text_of "'")) in
  let parsed :=
    match strip v with
    | c :: ds =>
        if c =? chr "-" then Z.opp <$> digits_value 0 false ds
        else if c =? chr "+" then digits_value 0 false ds
        else digits_value 0 false (c :: ds)
    | [] => None
    end in
  match parsed with Some z => Ok z | None => bad end.

Module Analyzer.

Record Args : Type := {
  interval : float;
  region : option (list N);
  history : Z;
}.

Definition Region : Type := Z * Z * Z * Z.

Definition parse_region (region : option (list N)) : result (option Region) :=
  match region with
  | None | Some [] => Ok None
  | Some region =>
      match map strip (split_on (chr ",") region) with
      | [p1; p2; p3; p4] =>
          match py_int p1 with Raise e => Raise e | Ok x1 =>
          match py_int p2 with Raise e => Raise e | Ok y1 =>
          match py_int p3 with Raise e => Raise e | Ok x2 =>
          match py_int p4 with Raise e => Raise e | Ok y2 =>
            if negb ((x1 <? x2)%Z && (y1 <? y2)%Z)
            then Raise (ValueError (text_of "Region must satisfy x2>x1 and y2>y1"))
            else Ok (Some (x1, y1, x2, y2))
          end end end end
      | _ => Raise (ValueError (text_of "Region must be x1,y1,x2,y2"))
      end
  end.

(** The loop's variables: [prev_digest] and the deque [recent_text]. *)
Record state : Type := {
  prev_digest : list N;
  recent_text : list (list N);
}.

(** [deque(maxlen=n).append(x)] *)
Definition deque_append (maxlen : Z) (d : list (list N)) (x : list N) : list (list N) :=
  let d' := d ++ [x] in
  drop (length d' - Z.to_nat maxlen) d'.

(** What the outside world does in one iteration: whether SIGINT has
    set [STOP] when the loop tests it, and how the capture ends. *)
Record input : Type := {
  stop : bool;
  capture : result (list N);
}.

(** The test [digest and digest != prev_digest]. *)
Definition changed (digest prev_digest : list N) : bool :=
  nonempty digest && bool_decide (digest ≠ prev_digest).

(** The change verdict between two cleaned texts: the loop holds the
    digest of the text it last reported and meets [current]. *)
Definition decide (previous current : list N) : bool :=
  changed (digest_of current) (digest_of previous).

(** One pass through the body of [while not STOP]. *)
Definition tick (args : Args) (st : state) (captured : result (list N))
    : list event * result state :=
  match captured with
  | Raise e =>
      if is_Exception e then
        sleep_then (py_max (interval args) 2)
          [Stderr (text_of "OCR/capture error: " ++ exn_str e);
           Stderr (text_of "Tip: On macOS, grant Screen Recording permission and install tesseract.")]
          st
      else ([], Raise e)
  | Ok raw =>
      let cleaned := clean_text raw in
      let digest := digest_of cleaned in
      if changed digest (prev_digest st) then
        let recent := deque_append (history args) (recent_text st) cleaned in
        let analysis := analyze_text cleaned in
        let recent_summary := summarize_recent recent in
        sleep_then (interval args)
          [PrintAnalysis analysis cleaned recent_summary]
          {| prev_digest := digest; recent_text := recent |}
      else
        sleep_then (interval args) [] st
  end.

Fixpoint loop (args : Args) (st : state) (inputs : list input)
    : list event * ending state :=
  match inputs with
  | [] => ([], Running st)
  | i :: rest =>
      if stop i then ([Stdout (Chars.LF :: text_of "Stopped.")], Exit 0%Z)
      else
        match tick args st (capture i) with
        | (events, Ok st') =>
            let '(events', e) := loop args st' rest in (events ++ events', e)
        | (events, Raise e) => (events, Uncaught e)
        end
  end.

Definition show_region (r : Region) : list N :=
  let '(x1, y1, x2, y2) := r in
  text_of "(" ++ join (text_of ", ") (map decimal [x1; y1; x2; y2]) ++ text_of ")".

(** [main]; the deque of [recent_text: Deque[str] = deque(maxlen=args.history)]
    refuses a size that does not fit a C [ssize_t], then a negative one. *)
Definition main (args : Args) (inputs : list input) : list event * ending state :=
  if PrimFloat.ltb (interval args) 0.5 then
    ([Stderr (text_of "Interval too small. Use >= 0.5 seconds.")], Exit 2%Z)
  else
    match parse_region (region args) with
    | Raise e =>
        ([Stderr (text_of "Invalid --region: " ++ exn_str e)], Exit 2%Z)
    | Ok region =>
        let banner :=
          Stdout (text_of "Starting live screen OCR. Press Ctrl+C to stop.")
          :: match region with
             | Some r => [Stdout (text_of "Using region: " ++ show_region r)]
             | None => []
             end in
        if (history args <? -9223372036854775808)%Z
           || (9223372036854775807 <? history args)%Z then
          (banner,
           Uncaught (OverflowError (text_of "Python int too large to convert to C ssize_t")))
        else if (history args <? 0)%Z then
          (banner, Uncaught (ValueError (text_of "maxlen must be non-negative")))
        else
          let '(events, e) :=
            loop args {| prev_digest := []; recent_text := [] |} inputs in
          (banner ++ events, e)
    end.

End Analyzer.


(** ** [difflib.SequenceMatcher(a=old, b=new)]

    The matcher as the fuzzy loop builds it: [isjunk] is [None] and
    [autojunk] is on. *)

Module Difflib.
Local Open Scope Z_scope.

(** a matching block [(i, j, size)]: [a[i:i+size] == b[j:j+size]] *)
Definition Match : Type := Z * Z * Z.

Inductive tag : Type := Replace | Delete | Insert | Equal.
Definition opcode : Type := tag * Z * Z * Z * Z.

Definition at_ (l : list N) (i : Z) : option N := l !! Z.to_nat i.

(** [__chain_b]: for each element of [b] the increasing list of its
    positions; with 200 elements or more, an element that fills more
    than 1% of [b] (plus one) is "popular" and loses its entry. *)
Fixpoint index_from (i : Z) (b : list N) (b2j : gmap N (list Z)) : gmap N (list Z) :=
  match b with
  | [] => b2j
  | elt :: b' =>
      index_from (i + 1) b' (<[elt := default [] (b2j !! elt) ++ [i]]> b2j)
  end.

Definition chain_b (b : list N) : gmap N (list Z) :=
  let b2j := index_from 0 b ∅ in
  let n := len b in
  if 200 <=? n then
    let ntest := n / 100 + 1 in
    filter (fun kv : N * list Z => len kv.2 <= ntest) b2j
  else b2j.

(** [bjunk] is the empty set when [isjunk] is [None]. *)
Definition isbjunk (c : N) : bool := false.

Section FindLongestMatch.
Variables (a b : list N) (b2j : gmap N (list Z)).

(** the inner [for j in b2j.get(a[i], nothing)] *)
Fixpoint row (blo bhi i : Z) (j2len : gmap Z Z) (js : list Z)
    (acc : gmap Z Z * Match) : gmap Z Z * Match :=
  match js with
  | [] => acc
  | j :: js' =>
      if j <? blo then row blo bhi i j2len js' acc
      else if bhi <=? j then acc
      else
        let '(newj2len, (besti, bestj, bestsize)) := acc in
        let k := default 0 (j2len !! (j - 1)) + 1 in
        row blo bhi i j2len js'
          (<[j := k]> newj2len,
           if bestsize <? k then (i - k + 1, j - k + 1, k)
           else (besti, bestj, bestsize))
  end.

(** the outer [for i in range(alo, ahi)]; [acc] is [(j2len, best)] *)
Fixpoint rows (blo bhi : Z) (range : list Z) (acc : gmap Z Z * Match)
    : gmap Z Z * Match :=
  match range with
  | [] => acc
  | i :: range' =>
      let js := match at_ a i with
                | Some elt => default [] (b2j !! elt)
                | None => []
                end in
      rows blo bhi range' (row blo bhi i acc.1 js (∅, acc.2))
  end.

(** The [while] loops that stretch the match to the left and to the
    right, first over elements that are not junk, then over junk.
    Each round moves a bound by one, so the distance to [alo]
    (to [ahi]) is fuel enough. *)
Fixpoint extend_back (junk : bool) (alo blo : Z) (fuel : nat) (mt : Match) : Match :=
  match fuel with
  | O => mt
  | S fuel' =>
      let '(besti, bestj, bestsize) := mt in
      if (alo <? besti) && (blo <? bestj)
         && match at_ b (bestj - 1) with
            | Some elt => Bool.eqb (isbjunk elt) junk
            | None => false
            end
         && bool_decide (at_ a (besti - 1) = at_ b (bestj - 1))
      then extend_back junk alo blo fuel' (besti - 1, bestj - 1, bestsize + 1)
      else mt
  end.

Fixpoint extend_fwd (junk : bool) (ahi bhi : Z) (fuel : nat) (mt : Match) : Match :=
  match fuel with
  | O => mt
  | S fuel' =>
      let '(besti, bestj, bestsize) := mt in
      if (besti + bestsize <? ahi) && (bestj + bestsize <? bhi)
         && match at_ b (bestj + bestsize) with
            | Some elt => Bool.eqb (isbjunk elt) junk
            | None => false
            end
         && bool_decide (at_ a (besti + bestsize) = at_ b (bestj + bestsize))
      then extend_fwd junk ahi bhi fuel' (besti, bestj, bestsize + 1)
      else mt
  end.

Definition back_fuel (alo : Z) (mt : Match) : nat := Z.to_nat (mt.1.1 - alo).
Definition fwd_fuel (ahi : Z) (mt : Match) : nat :=
  Z.to_nat (ahi - (mt.1.1 + mt.2)).

Definition find_longest_match (alo ahi blo bhi : Z) : Match :=
  let best := (rows blo bhi (seqZ alo (ahi - alo)) (∅, (alo, blo, 0))).2 in
  let best := extend_back false alo blo (back_fuel alo best) best in
  let best := extend_fwd false ahi bhi (fwd_fuel ahi best) best in
  let best := extend_back true alo blo (back_fuel alo best) best in
  let best := extend_fwd true ahi bhi (fwd_fuel ahi best) best in
  best.

(** The [while queue:] loop of [get_matching_blocks]; the head of
    [queue] is what [queue.pop()] takes. *)
Fixpoint blocks_loop (fuel : nat) (queue : list (Z * Z * Z * Z))
    (matching_blocks : list Match) : option (list Match) :=
  match queue with
  | [] => Some matching_blocks
  | (alo, ahi, blo, bhi) :: queue =>
      match fuel with
      | O => None
      | S fuel' =>
          let '(i, j, k) := find_longest_match alo ahi blo bhi in
          if k =? 0 then blocks_loop fuel' queue matching_blocks
          else
            let queue :=
              if (alo <? i) && (blo <? j) then (alo, i, blo, j) :: queue else queue in
            let queue :=
              if (i + k <? ahi) && (j + k <? bhi)
              then (i + k, ahi, j + k, bhi) :: queue else queue in
            blocks_loop fuel' queue (matching_blocks ++ [(i, j, k)])
      end
  end.
End FindLongestMatch.

(** tuple order of [matching_blocks.sort()] *)
Definition match_ltb (x y : Match) : bool :=
  let '(i1, j1, k1) := x in
  let '(i2, j2, k2) := y in
  (i1 <? i2) || ((i1 =? i2) && ((j1 <? j2) || ((j1 =? j2) && (k1 <? k2)))).

Fixpoint insert_match (x : Match) (l : list Match) : list Match :=
  match l with
  | [] => [x]
  | y :: l' => if match_ltb y x then y :: insert_match x l' else x :: l
  end.

Definition sort_matches (l : list Match) : list Match :=
  fold_left (fun acc x => insert_match x acc) l [].

(** merging of adjacent blocks; [cur] is [(i1, j1, k1)] *)
Fixpoint collapse (cur : Match) (blocks : list Match) : list Match :=
  let '(i1, j1, k1) := cur in
  match blocks with
  | [] => if k1 =? 0 then [] else [cur]
  | (i2, j2, k2) :: rest =>
      if (i1 + k1 =? i2) && (j1 + k1 =? j2) then collapse (i1, j1, k1 + k2) rest
      else (if k1 =? 0 then [] else [cur]) ++ collapse (i2, j2, k2) rest
  end.

Definition blocks_fuel (a : list N) : nat := 2 * length a + 2.

Definition get_matching_blocks (a b : list N) : list Match :=
  let la := len a in
  let lb := len b in
  let matching_blocks :=
    default [] (blocks_loop a b (chain_b b) (blocks_fuel a) [(0, la, 0, lb)] []) in
  collapse (0, 0, 0) (sort_matches matching_blocks) ++ [(la, lb, 0)].

(** the [for ai, bj, size in self.get_matching_blocks()] of [get_opcodes] *)
Fixpoint opcodes_from (i j : Z) (blocks : list Match) : list opcode :=
  match blocks with
  | [] => []
  | (ai, bj, size) :: rest =>
      (if (i <? ai) && (j <? bj) then [(Replace, i, ai, j, bj)]
       else if i <? ai then [(Delete, i, ai, j, bj)]
       else if j <? bj then [(Insert, i, ai, j, bj)]
       else [])
      ++ (if size =? 0 then [] else [(Equal, ai, ai + size, bj, bj + size)])
      ++ opcodes_from (ai + size) (bj + size) rest
  end.

Definition get_opcodes (a b : list N) : list opcode :=
  opcodes_from 0 0 (get_matching_blocks a b).
End Difflib.

(** [diff_size] of the fuzzy loop:
<<
    changed = 0
    for tag, i1, i2, j1, j2 in matcher.get_opcodes():
        if tag != "equal":
            changed += (i2 - i1) + (j2 - j1)
    return changed
>> *)
Definition diff_size (old new : list N) : Z :=
  fold_left
    (fun changed (op : Difflib.opcode) =>
       let '(tag, i1, i2, j1, j2) := op in
       match tag with
       | Difflib.Equal => changed
       | _ => changed + ((i2 - i1) + (j2 - j1))
       end)%Z
    (Difflib.get_opcodes old new) 0%Z.


(** ** The fuzzy loop ([screen_text_monitor.py]) *)

(** [\bw\b] *)
Definition word (w : string) : regex := Cat WordB (Cat (lits w) WordB).

(** [\b\w+\b] *)
Definition re_words : regex := Cat WordB (Cat (Rep 1 (Cls is_word)) WordB).

(** [alert_patterns], in the order of the dict *)
Definition alert_patterns : list (string * regex) :=
  [("error"%string,
    Alt (Alt (word "error") (word "exception"))
        (Cat WordB (Cat (lits "fail") (Cat (opt (Alt (lits "ed") (lits "ure"))) WordB))));
   ("auth"%string,
    Alt (Alt (word "login") (word "password"))
        (Cat WordB (Cat (lits "auth") (Cat (opt (lits "entication")) WordB))));
   ("payment"%string,
    Alt (Alt (word "payment") (word "card")) (word "billing"));
   ("deadline"%string,
    Alt (Alt (word "due") (word "deadline"))
        (Cat WordB (Cat (lits "expire") (Cat (opt (Lit (chr "s"))) WordB))))].

Definition local_analysis (text : list N) : list N :=
  let lines :=
    map strip (filter (fun ln => nonempty (strip ln) = true) (splitlines text)) in
  let word_count := len (findall re_words text) in
  let lower := lower text in
  let alerts :=
    map (fun lp => text_of lp.1)
        (filter (fun lp : string * regex => search lp.2 lower = true) alert_patterns) in
  let summary :=
    [decimal (len lines) ++ text_of " non-empty lines, ~" ++ decimal word_count
       ++ text_of " words."]
    ++ match lines with
       | top :: _ => [text_of "Top line: " ++ take 140 top]
       | [] => []
       end
    ++ match alerts with
       | _ :: _ => [text_of "Detected themes: " ++ join (text_of ", ") alerts]
       | [] => [text_of "No high-signal keywords detected."]
       end in
  join (text_of " ") summary.

Module Monitor.

Record AnalysisConfig : Type := {
  interval : float;
  min_change_chars : Z;
  show_raw_text : bool;
  model : list N;
}.

(** What surrounds the program: the [OPENAI_API_KEY] variable, whether
    the [openai] package can be imported, and the service behind
    [client.responses.create], which sees the key, the model and the
    prompt and answers with [output_text] or raises. *)
Record world : Type := {
  OPENAI_API_KEY : option (list N);
  openai_installed : bool;
  responses_create : list N -> list N -> list N -> result (list N);
}.

Definition prompt_for (text : list N) : list N :=
  text_of "You analyze live OCR text from a user's screen. "
  ++ text_of "Return concise bullets: 1) what changed, 2) likely intent/context, "
  ++ text_of "3) any actionable next steps. Keep it under 90 words." ++ [Chars.LF; Chars.LF]
  ++ text_of "OCR text:" ++ [Chars.LF] ++ take (Z.to_nat 12000) text.

Definition openai_analysis (w : world) (text model : list N) : result (list N) :=
  match OPENAI_API_KEY w with
  | None | Some [] => Raise (RuntimeError (text_of "OPENAI_API_KEY is not set"))
  | Some api_key =>
      if negb (openai_installed w) then
        Raise (RuntimeError (text_of
          "openai package not installed. Run: pip install -r scripts/requirements-screen-monitor.txt"))
      else
        match responses_create w api_key model (prompt_for text) with
        | Raise e => Raise e
        | Ok output_text =>
            Ok (strip (or_else output_text (text_of "(no analysis returned)")))
        end
  end.

Definition analyze (w : world) (text model : list N) : result (list N) :=
  if bool_decide (model = text_of "local") then Ok (local_analysis text)
  else openai_analysis w text model.

Definition print_block (title body : list N) : list event :=
  [Block title (or_else body (text_of "(empty)"))].

(** What the outside world does in one iteration: how the capture
    ends (the raw OCR text, or an exception) and the surroundings of
    the analysis. *)
Record input : Type := {
  capture : result (list N);
  env : world;
}.

(** [capture_ocr_text]: the OCR text, normalized *)
Definition capture_ocr_text (captured : result (list N)) : result (list N) :=
  match captured with
  | Ok raw => Ok (normalize_text raw)
  | Raise e => Raise e
  end.

(** The change verdict of an iteration: the magnitude
    [changed = diff_size(previous, current)] and the outcome of the test
    [changed >= config.min_change_chars]. *)
Definition decide (config : AnalysisConfig) (previous current : list N) : Z * bool :=
  let changed := diff_size previous current in
  (changed, (min_change_chars config <=? changed)%Z).

(** One pass through the body of [while True]; the state is [previous]. *)
Definition tick (config : AnalysisConfig) (previous : list N) (i : input)
    : list event * result (list N) :=
  match capture_ocr_text (capture i) with
  | Raise e => ([], Raise e)
  | Ok current =>
      let changed := diff_size previous current in
      if (min_change_chars config <=? changed)%Z then
        let shown :=
          if show_raw_text config then print_block (text_of "OCR text") current else [] in
        match analyze (env i) current (model config) with
        | Ok analysis =>
            sleep_then (interval config)
              (shown ++ print_block (text_of "Analysis") analysis) current
        | Raise exc =>
            if is_Exception exc then
              sleep_then (interval config)
                (shown ++ print_block (text_of "Analysis error") (exn_str exc)) current
            else (shown, Raise exc)
        end
      else
        sleep_then (interval config) [NoChange changed] previous
  end.

Fixpoint loop (config : AnalysisConfig) (previous : list N) (inputs : list input)
    : list event * ending (list N) :=
  match inputs with
  | [] => ([], Running previous)
  | i :: rest =>
      match tick config previous i with
      | (events, Ok previous') =>
          let '(events', e) := loop config previous' rest in (events ++ events', e)
      | (events, Raise e) => (events, Uncaught e)
      end
  end.

Definition run (config : AnalysisConfig) (inputs : list input)
    : list event * ending (list N) :=
  let '(events, e) := loop config [] inputs in
  (Stdout (text_of "Starting screen text monitor. Press Ctrl+C to stop.") :: events, e).

(** The command line after [argparse], and [parse_args]. *)
Record Namespace : Type := {
  arg_interval : float;
  arg_min_change_chars : Z;
  arg_show_raw_text : bool;
  arg_model : list N;
}.

Definition parse_args (args : Namespace) : AnalysisConfig :=
  {| interval := py_max 0.5 (arg_interval args);
     min_change_chars := Z.max 0 (arg_min_change_chars args);
     show_raw_text := arg_show_raw_text args;
     model := arg_model args |}.

Definition main (args : Namespace) (inputs : list input) : list event * ending (list N) :=
  let config := parse_args args in
  match run config inputs with
  | (events, Uncaught KeyboardInterrupt) =>
      (events ++ [Stdout (Chars.LF :: text_of "Stopped.")], Exit 0%Z)
  | r => r
  end.

End Monitor.


(** The magnitude as the specification words it: over the opcodes of
    the alignment, the lengths of the inserted, deleted and replaced
    spans, from both sides, added up. *)
Definition is_edit (op : Difflib.opcode) : bool :=
  match op.1.1.1.1 with
  | Difflib.Insert | Difflib.Delete | Difflib.Replace => true
  | Difflib.Equal => false
  end.

Definition span_lengths (op : Difflib.opcode) : Z :=
  let '(_, i1, i2, j1, j2) := op in ((i2 - i1) + (j2 - j1))%Z.

Definition magnitude (previous current : list N) : Z :=
  foldr Z.add 0%Z
    (map span_lengths (filter (fun op => is_edit op = true)
                              (Difflib.get_opcodes previous current))).

(** What it is for spans to be an alignment of two texts of lengths
    [la] and [lb]: from [(i, j)] on they follow one another to
    [(la, lb)], each starting, in both texts, where the one before it
    ends; none is empty; an [equal] span is as long in one text as in
    the other, a [delete] takes nothing of the second text, an [insert]
    nothing of the first, a [replace] something of both. *)
Fixpoint tiles (i j la lb : Z) (ops : list Difflib.opcode) : Prop :=
  match ops with
  | [] => i = la ∧ j = lb
  | (tag, i1, i2, j1, j2) :: rest =>
      (i1 = i ∧ j1 = j
       ∧ match tag with
         | Difflib.Equal => i1 < i2 ∧ j2 - j1 = i2 - i1
         | Difflib.Delete => i1 < i2 ∧ j2 = j1
         | Difflib.Insert => i2 = i1 ∧ j1 < j2
         | Difflib.Replace => i1 < i2 ∧ j1 < j2
         end
       ∧ tiles i2 j2 la lb rest)%Z
  end.

(** the characters of the first text that lie in a span tagged [equal]
    (as many lie in such a span of the second text) *)
Definition matching_length (ops : list Difflib.opcode) : Z :=
  foldr Z.add 0%Z
    (map (fun op : Difflib.opcode => let '(_, i1, i2, _, _) := op in (i2 - i1)%Z)
         (filter (fun op => is_edit op = false) ops)).

(** What the two substitutions of [normalize_text] come to, written as
    plain passes over the text; [sub_hspaces] and [sub_newlines3] below
    prove that [re.sub] computes them.  [in_run] tells that the last
    character read was a blank or a tab; [seen] counts the newlines
    already written for the current run. *)
Fixpoint squeeze_hspace (in_run : bool) (s : list N) : list N :=
  match s with
  | [] => []
  | c :: s' =>
      if is_hspace c then
        if in_run then squeeze_hspace true s'
        else Chars.SPACE :: squeeze_hspace true s'
      else c :: squeeze_hspace false s'
  end.

Fixpoint squeeze_newlines (seen : nat) (s : list N) : list N :=
  match s with
  | [] => []
  | c :: s' =>
      if c =? Chars.LF then
        if (seen <? 2)%nat then Chars.LF :: squeeze_newlines (S seen) s'
        else squeeze_newlines seen s'
      else c :: squeeze_newlines 0 s'
  end.

(** length of the longest prefix of [s] whose characters satisfy [p] *)
Fixpoint run (p : N -> bool) (s : list N) : nat :=
  match s with
  | c :: s' => if p c then S (run p s') else O
  | [] => O
  end.

(** The shapes the two passes leave behind: no tab and no two blanks in
    a row ([after_space]: the character before is a blank); no three
    newlines in a row ([seen]: newlines just before). *)
Fixpoint hspace_normal (after_space : bool) (s : list N) : Prop :=
  match s with
  | [] => True
  | c :: s' =>
      c ≠ Chars.TAB ∧ (c = Chars.SPACE → after_space = false)
      ∧ hspace_normal (c =? Chars.SPACE) s'
  end.

Fixpoint newline_normal (seen : nat) (s : list N) : Prop :=
  match s with
  | [] => True
  | c :: s' =>
      if c =? Chars.LF then (seen < 2)%nat ∧ newline_normal (S seen) s'
      else newline_normal 0 s'
  end.

(** ** Vocabulary of the statements below *)

Definition no_break (l : list N) : Prop := Forall (fun c => islinebreak c = false) l.

Definition is_LF (c : N) : bool := c =? Chars.LF.

Definition no_CR (s : list N) : Prop := Forall (fun c => c ≠ Chars.CR) s.

Definition sample : list N :=
  text_of "Contact me at a@b.com or see http://x.co, this is URGENT, TODO: reply. ??".

Definition quiet_world : Monitor.world :=
  {| Monitor.OPENAI_API_KEY := None;
     Monitor.openai_installed := false;
     Monitor.responses_create := fun _ _ _ => Ok [] |}.

Definition capture_error_log (e : exn) : list event :=
  [Stderr (text_of "OCR/capture error: " ++ exn_str e);
   Stderr (text_of "Tip: On macOS, grant Screen Recording permission and install tesseract.")].

Definition shown_text (config : Monitor.AnalysisConfig) (current : list N) : list event :=
  if Monitor.show_raw_text config
  then Monitor.print_block (text_of "OCR text") current else [].

Definition local_config (threshold : Z) : Monitor.AnalysisConfig :=
  {| Monitor.interval := 2; Monitor.min_change_chars := threshold;
     Monitor.show_raw_text := false; Monitor.model := text_of "local" |}.

(** Invariants of the sequence matcher. *)

Section MatcherVocabulary.
Local Open Scope Z_scope.

(** what holds of the row [j2len] computed at [i] *)
Definition row_ok (alo blo bhi i : Z) (j2len : gmap Z Z) : Prop :=
  ∀ j k, j2len !! j = Some k → 1 ≤ k ∧ k ≤ i - alo + 1 ∧ k ≤ j - blo + 1 ∧ j < bhi.

(** what holds of the best match once row [i] is done *)
Definition best_ok (alo blo bhi i : Z) (mt : Difflib.Match) : Prop :=
  let '(besti, bestj, bestsize) := mt in
  alo ≤ besti ∧ blo ≤ bestj ∧ 0 ≤ bestsize
  ∧ besti + bestsize ≤ Z.max alo (i + 1) ∧ bestj + bestsize ≤ bhi.

(** what holds of the match that [find_longest_match] returns *)
Definition match_ok (alo ahi blo bhi : Z) (mt : Difflib.Match) : Prop :=
  let '(i, j, k) := mt in
  alo ≤ i ∧ blo ≤ j ∧ 0 ≤ k ∧ i + k ≤ ahi ∧ j + k ≤ bhi.

Definition window_ok (w : Z * Z * Z * Z) : Prop :=
  let '(alo, ahi, blo, bhi) := w in alo ≤ ahi ∧ blo ≤ bhi.

Definition window_cost (w : Z * Z * Z * Z) : nat :=
  let '(alo, ahi, _, _) := w in (2 * Z.to_nat (ahi - alo) + 1)%nat.

Fixpoint queue_cost (queue : list (Z * Z * Z * Z)) : nat :=
  match queue with
  | [] => 0
  | w :: queue' => window_cost w + queue_cost queue'
  end%nat.

(** the positions of [c] in [l], counted from [i] *)
Fixpoint positions_from (i : Z) (c : N) (l : list N) : list Z :=
  match l with
  | [] => []
  | x :: l' => (if bool_decide (x = c) then [i] else []) ++ positions_from (i + 1) c l'
  end.

(** [c] has kept its entry in [b2j] (it is not "popular") *)
Definition indexed (t : list N) (c : N) : bool :=
  bool_decide (is_Some (Difflib.chain_b t !! c)).

(** the number of indexed characters in a row that end at position [i] *)
Definition streak (t : list N) (i : Z) : Z :=
  Z.of_nat (run (indexed t) (reverse (take (Z.to_nat (i + 1)) t))).

(** what holds of the row [j2len] computed at [i] *)
Definition row_streaks (t : list N) (i : Z) (j2len : gmap Z Z) : Prop :=
  ∀ j k, j2len !! j = Some k → 1 ≤ k ∧ k ≤ streak t i ∧ k ≤ streak t j.

(** the best match lies on the diagonal, ends at [e] or before, and is
    as long as every streak that ends before [i] *)
Definition best_diag (t : list N) (e i : Z) (mt : Difflib.Match) : Prop :=
  let '(besti, bestj, bestsize) := mt in
  besti = bestj ∧ 0 ≤ besti ∧ 0 ≤ bestsize ∧ besti + bestsize ≤ e
  ∧ ∀ i', 0 ≤ i' < i → streak t i' ≤ bestsize.

(** [a[i:i+k] == b[j:j+k]], position by position *)
Definition agree (a b : list N) (mt : Difflib.Match) : Prop :=
  let '(i, j, k) := mt in
  ∀ d, 0 ≤ d < k → ∃ c, Difflib.at_ a (i + d) = Some c ∧ Difflib.at_ b (j + d) = Some c.

(** every entry [j2len[j] = k] of the row at [i] is a match of length [k]
    that ends at [(i, j)] *)
Definition row_agrees (a b : list N) (i : Z) (j2len : gmap Z Z) : Prop :=
  ∀ j k, j2len !! j = Some k → agree a b (i - k + 1, j - k + 1, k).

End MatcherVocabulary.

(** ** Vocabulary of the further properties *)

(** a text of white space only *)
Definition blank (s : list N) : Prop := Forall (fun c => isspace c = true) s.

(** what is left of a text when its white space is taken out *)
Definition visible (s : list N) : list N := filter (fun c => isspace c = false) s.

(** [x] occurs in [s] as a run of consecutive characters *)
Definition infix (x s : list N) : Prop := ∃ l1 l2, s = l1 ++ x ++ l2.

(** neither end of the text is white space *)
Definition trimmed (s : list N) : Prop := strip s = s.

(** [str.isascii]: every character is below 128.  On such a text
    [str.lower] and [\w] are their ASCII rows, and every encoding of the
    standard output can write it. *)
Definition isascii (s : list N) : Prop := Forall (fun c => c < 128) s.

(** the texts of the reports among [events], in their order *)
Definition reported (events : list event) : list (list N) :=
  omap (fun e => match e with PrintAnalysis _ snippet _ => Some snippet | _ => None end)
       events.

(** the durations of the sleeps among [events], in their order *)
Definition sleeps (events : list event) : list float :=
  omap (fun e => match e with Slept d => Some d | _ => None end) events.

(** the last [n] elements of [l] *)
Definition last_n {A : Type} (n : nat) (l : list A) : list A := drop (length l - n) l.

(** what the digest program prints before its loop starts *)
Definition analyzer_banner (region : option Analyzer.Region) : list event :=
  Stdout (text_of "Starting live screen OCR. Press Ctrl+C to stop.")
  :: match region with
     | Some r => [Stdout (text_of "Using region: " ++ Analyzer.show_region r)]
     | None => []
     end.

(** The state of the digest loop after the reports [R], with a history
    of [h] texts. *)
Definition history_of (h : nat) (R : list (list N)) (st : Analyzer.state) : Prop :=
  Analyzer.recent_text st = last_n h R
  ∧ Analyzer.prev_digest st = digest_of (default [] (last R)).

(** A report made after the reports [R]. *)
Definition report_ok (h : nat) (R : list (list N))
    (a : Analysis) (snippet summary : list N) : Prop :=
  snippet ≠ [] ∧ clean_text snippet = snippet ∧ last R ≠ Some snippet
  ∧ a = analyze_text snippet
  ∧ summary = summarize_recent (last_n h (R ++ [snippet])).

Fixpoint reports_ok (h : nat) (R : list (list N)) (events : list event) : Prop :=
  match events with
  | [] => True
  | PrintAnalysis a snippet summary :: rest =>
      report_ok h R a snippet summary ∧ reports_ok h (R ++ [snippet]) rest
  | _ :: rest => reports_ok h R rest
  end.

(** the durations the digest loop may sleep *)
Definition analyzer_pause (args : Analyzer.Args) (d : float) : Prop :=
  d = Analyzer.interval args ∨ d = py_max (Analyzer.interval args) 2.

(** a run of the digest program over three captures, with a history of one text *)
Definition short_history : Analyzer.Args :=
  {| Analyzer.interval := 2; Analyzer.region := None; Analyzer.history := 1 |}.

Definition no_history : Analyzer.Args :=
  {| Analyzer.interval := 2; Analyzer.region := None; Analyzer.history := 0 |}.

Definition three_captures : list Analyzer.input :=
  [{| Analyzer.stop := false; Analyzer.capture := Ok (text_of "hello") |};
   {| Analyzer.stop := false; Analyzer.capture := Ok (text_of "   ") |};
   {| Analyzer.stop := false; Analyzer.capture := Ok (text_of " world ") |}].

Definition stopped : event := Stdout (Chars.LF :: text_of "Stopped.").


Definition stop_after_one : list Analyzer.input :=
  [{| Analyzer.stop := false; Analyzer.capture := Ok (text_of "hello") |};
   {| Analyzer.stop := true; Analyzer.capture := Ok (text_of "hello") |}].

Definition nan_interval : Analyzer.Args :=
  {| Analyzer.interval := PrimFloat.nan; Analyzer.region := None; Analyzer.history := 8 |}.

(** How the matching blocks lie in the two texts. *)

Section TilingVocabulary.
Local Open Scope Z_scope.

(** block [x] ends, in both texts, where block [y] starts or before *)
Definition before (x y : Difflib.Match) : Prop :=
  let '(i1, j1, k1) := x in
  let '(i2, j2, _) := y in
  0 < k1 ∧ i1 + k1 ≤ i2 ∧ j1 + k1 ≤ j2.

(** a block that is not empty and lies in the window [w] *)
Definition within (w : Z * Z * Z * Z) (mt : Difflib.Match) : Prop :=
  let '(alo, ahi, blo, bhi) := w in
  let '(i, j, k) := mt in
  alo ≤ i ∧ blo ≤ j ∧ 0 < k ∧ i + k ≤ ahi ∧ j + k ≤ bhi.

(** blocks of the window [w], one after the other *)
Definition chain_in (w : Z * Z * Z * Z) (c : list Difflib.Match) : Prop :=
  StronglySorted before c ∧ Forall (within w) c.

(** the order of [matching_blocks.sort()], as a relation *)
Definition lex_le (x y : Difflib.Match) : Prop := Difflib.match_ltb y x = false.

(** blocks that follow one another from position [(i, j)] on *)
Fixpoint chain_from (i j : Z) (blocks : list Difflib.Match) : Prop :=
  match blocks with
  | [] => True
  | (ai, bj, size) :: rest =>
      i ≤ ai ∧ j ≤ bj ∧ 0 ≤ size ∧ chain_from (ai + size) (bj + size) rest
  end.

(** where such blocks end *)
Fixpoint chain_end (i j : Z) (blocks : list Difflib.Match) : Z * Z :=
  match blocks with
  | [] => (i, j)
  | (ai, bj, size) :: rest => chain_end (ai + size) (bj + size) rest
  end.

(** the number of matched characters: the sizes of the blocks, added up *)
Definition matched (blocks : list Difflib.Match) : Z :=
  foldr (fun mt total => mt.2 + total) 0 blocks.

(** the lengths of the spans that are not tagged [equal], added up *)
Definition edits (ops : list Difflib.opcode) : Z :=
  foldr Z.add 0 (map span_lengths (filter (fun op => is_edit op = true) ops)).

End TilingVocabulary.

(** The fuzzy loop on a capture too short to count. *)

Definition short_capture (config : Monitor.AnalysisConfig) (i : Monitor.input) : Prop :=
  ∃ raw, Monitor.capture i = Ok raw
         ∧ (len (normalize_text raw) < Monitor.min_change_chars config)%Z.

Definition no_change_line (config : Monitor.AnalysisConfig) (i : Monitor.input)
    : list event :=
  match Monitor.capture i with
  | Ok raw => [NoChange (len (normalize_text raw)); Slept (Monitor.interval config)]
  | Raise _ => []
  end.

Definition monitor_banner : event :=
  Stdout (text_of "Starting screen text monitor. Press Ctrl+C to stop.").

(** the ways an iteration of the fuzzy loop can raise [e] *)
Definition monitor_failure (config : Monitor.AnalysisConfig) (i : Monitor.input)
    (e : exn) : Prop :=
  Monitor.capture i = Raise e
  ∨ time_sleep (Monitor.interval config) = Some e
  ∨ (is_Exception e = false
     ∧ ∃ raw, Monitor.capture i = Ok raw
         ∧ Monitor.analyze (Monitor.env i) (normalize_text raw) (Monitor.model config)
           = Raise e).


Definition default_namespace : Monitor.Namespace :=
  {| Monitor.arg_interval := 2; Monitor.arg_min_change_chars := 50;
     Monitor.arg_show_raw_text := false; Monitor.arg_model := text_of "local" |}.

Definition eager_namespace : Monitor.Namespace :=
  {| Monitor.arg_interval := 2; Monitor.arg_min_change_chars := 1;
     Monitor.arg_show_raw_text := false; Monitor.arg_model := text_of "local" |}.

Definition two_short_captures : list Monitor.input :=
  [{| Monitor.capture := Ok (text_of "hello"); Monitor.env := quiet_world |};
   {| Monitor.capture := Ok (text_of " hello  world "); Monitor.env := quiet_world |}].


(** Counting and ordering, for the statements on [analyze_text]. *)

(** [a < b] for texts, as a relation *)
Definition text_lt (a b : list N) : Prop := text_ltb a b = true.

(** how often [w] occurs in [ws] *)
Definition count_in (w : list N) (ws : list (list N)) : Z :=
  len (filter (fun x => x = w) ws).

(** an entry of a tally counts at least as much as the next one *)
Definition count_ge (x y : list N * Z) : Prop := (y.2 ≤ x.2)%Z.

(** the words that [analyze_text] and [summarize_recent] count *)
Definition counted_words (text : list N) : list (list N) :=
  filter (fun w => w ∉ STOP_WORDS) (findall re_word (lower text)).

(** an entry of the tally of the words [ws] *)
Definition counts (ws : list (list N)) (entry : list N * Z) : Prop :=
  entry.2 = count_in entry.1 ws ∧ (0 < entry.2)%Z.

(** what a tally is, for the words [ws] counted so far *)
Definition tally_of (ws : list (list N)) (c : list (list N * Z)) : Prop :=
  NoDup c.*1 ∧ Forall (counts ws) c ∧ ∀ w, w ∈ ws → w ∈ c.*1.

(** What a pattern matches, stated without the matcher. *)

(** the text a token stands for *)
Definition token_text (t : token) : list N :=
  match t with Skipped c => [c] | Matched mt => mt end.

(** the character before what follows [s], when [prev] is before [s] *)
Definition last_char (prev : option N) (s : list N) : option N :=
  match last s with Some c => Some c | None => prev end.

(** [matches r prev s rest]: the pattern [r] matches the text [s] when
    [prev] is the character before it and [rest] is what follows. *)
Inductive matches : regex → option N → list N → list N → Prop :=
| matches_Eps prev rest : matches Eps prev [] rest
| matches_Lit c prev rest : matches (Lit c) prev [c] rest
| matches_Cls p x prev rest : p x = true → matches (Cls p) prev [x] rest
| matches_Cat r1 r2 prev s1 s2 rest :
    matches r1 prev s1 (s2 ++ rest) → matches r2 (last_char prev s1) s2 rest →
    matches (Cat r1 r2) prev (s1 ++ s2) rest
| matches_Alt_l r1 r2 prev s rest : matches r1 prev s rest → matches (Alt r1 r2) prev s rest
| matches_Alt_r r1 r2 prev s rest : matches r2 prev s rest → matches (Alt r1 r2) prev s rest
| matches_WordB prev rest :
    xorb (word_before prev) (word_after rest) = true → matches WordB prev [] rest
| matches_Rep_stop r prev rest : matches (Rep 0 r) prev [] rest
| matches_Rep_more lo r prev s1 s2 rest :
    s1 ≠ [] → matches r prev s1 (s2 ++ rest) →
    matches (Rep (Nat.pred lo) r) (last_char prev s1) s2 rest →
    matches (Rep lo r) prev (s1 ++ s2) rest.

(** what it means for a matcher to be right about [r] *)
Definition sound_for {R : Type} (r : regex)
    (body : option N → list N → (option N → list N → option R) → option R) : Prop :=
  ∀ prev s k x, body prev s k = Some x →
    ∃ s1 s2, s = s1 ++ s2 ∧ matches r prev s1 s2 ∧ k (last_char prev s1) s2 = Some x.

(** the shape of a link: [http://] or [https://], then one character or
    more, none of them white space or a closing parenthesis *)
Definition link_shape (u : list N) : Prop :=
  ∃ scheme tail,
    u = scheme ++ text_of "://" ++ tail
    ∧ (scheme = text_of "http" ∨ scheme = text_of "https")
    ∧ tail ≠ []
    ∧ Forall (fun c => isspace c = false ∧ c ≠ chr ")") tail.

(** the shape of an address: a name, [@], a domain, a dot and two
    letters or more *)
Definition address_shape (e : list N) : Prop :=
  ∃ name domain tld,
    e = name ++ [chr "@"] ++ domain ++ [chr "."] ++ tld
    ∧ name ≠ [] ∧ domain ≠ [] ∧ (2 ≤ length tld)%nat
    ∧ Forall (fun c => is_alpha c || is_digit c || among "._%+-" c = true) name
    ∧ Forall (fun c => is_alpha c || is_digit c || among ".-" c = true) domain
    ∧ Forall (fun c => is_alpha c = true) tld.

Definition task_phrases : list (list N) :=
  map text_of ["todo"; "to do"; "fixme"; "action item"; "deadline";
               "due"; "follow up"; "next step"]%string.

Definition urgency_phrases : list (list N) :=
  map text_of ["urgent"; "asap"; "immediately"; "critical";
               "blocker"; "high priority"]%string.

(** the shape of a counted word: a letter, then letters, apostrophes
    and hyphens, one or more *)
Definition word_shape (w : list N) : Prop :=
  ∃ c tail,
    w = c :: tail ∧ is_alpha c = true ∧ tail ≠ []
    ∧ Forall (fun c => is_alpha c || among "'-" c = true) tail.

(** The topic terms of a summary. *)

Definition topic_terms (history : list (list N)) : list (list N * Z) :=
  most_common 6 (Counter (counted_words (join [Chars.LF] history))).

(** [f"{w}({n})"] *)
Definition show_term (wn : list N * Z) : list N :=
  wn.1 ++ text_of "(" ++ decimal wn.2 ++ text_of ")".

(** a region option written as four plain numbers *)
Definition region_text (x1 y1 x2 y2 : Z) : list N :=
  join (text_of ",") (map decimal [x1; y1; x2; y2]).

(** Python reads no more than 4300 digits into an [int] *)
Definition int_max_str_digits : Z := 4300.

(** * Properties *)

(** ** Stripping and line splitting *)

Lemma lstrip_fixed (s : list N) :
  head s = None ∨ (∃ c, head s = Some c ∧ isspace c = false) → lstrip s = s.
Proof.
  destruct s as [|c s]; [done|].
  intros [H|(c' & [= ->] & Hc)]; [done|]. simpl. by rewrite Hc.
Qed.

Lemma lstrip_head (s : list N) :
  head (lstrip s) = None ∨ (∃ c, head (lstrip s) = Some c ∧ isspace c = false).
Proof.
  induction s as [|c s IH]; simpl; [by left|].
  destruct (isspace c) eqn:Hc; [done|]. right. by exists c.
Qed.

Lemma lstrip_idem (s : list N) : lstrip (lstrip s) = lstrip s.
Proof. apply lstrip_fixed, lstrip_head. Qed.

Lemma rstrip_idem (s : list N) : rstrip (rstrip s) = rstrip s.
Proof.
  induction s as [|c s IH]; [done|]. simpl.
  destruct (rstrip s) as [|d r] eqn:Hr.
  - destruct (isspace c) eqn:Hc; simpl; [done|]. by rewrite Hc.
  - change (rstrip (c :: d :: r)) with
      (match rstrip (d :: r) with [] => if isspace c then [] else [c] | r' => c :: r' end).
    by rewrite IH.
Qed.

(** [rstrip] keeps a first character that is not white space. *)
Lemma rstrip_head (s : list N) :
  head s = None ∨ (∃ c, head s = Some c ∧ isspace c = false) →
  head (rstrip s) = head s.
Proof.
  destruct s as [|c s]; [done|].
  intros [H|(c' & [= ->] & Hc)]; [done|]. simpl.
  destruct (rstrip s); [by rewrite Hc|done].
Qed.

Lemma strip_idem (s : list N) : strip (strip s) = strip s.
Proof.
  unfold strip.
  rewrite (lstrip_fixed (rstrip (lstrip s))).
  - apply rstrip_idem.
  - rewrite rstrip_head by apply lstrip_head. apply lstrip_head.
Qed.

Lemma Forall_lstrip (P : N → Prop) (s : list N) : Forall P s → Forall P (lstrip s).
Proof.
  induction 1 as [|c s Hc Hs IH]; simpl; [done|].
  destruct (isspace c); [done|]. by constructor.
Qed.

Lemma Forall_rstrip (P : N → Prop) (s : list N) : Forall P s → Forall P (rstrip s).
Proof.
  induction 1 as [|c s Hc Hs IH]; simpl; [done|].
  destruct (rstrip s).
  - destruct (isspace c); [done|]. by constructor.
  - by constructor.
Qed.

Lemma Forall_strip (P : N → Prop) (s : list N) : Forall P s → Forall P (strip s).
Proof. intros. by apply Forall_rstrip, Forall_lstrip. Qed.

(** No line of [splitlines] holds a line boundary. *)
Lemma splitlines_no_break (s : list N) : Forall no_break (splitlines s).
Proof.
  remember (length s) as n eqn:Hn.
  revert s Hn. induction (lt_wf n) as [n _ IH]. intros s ->.
  destruct s as [|c rest]; simpl; [constructor|].
  destruct (islinebreak c) eqn:Hc.
  - constructor; [constructor|].
    destruct rest as [|d rest']; [constructor|].
    destruct ((c =? Chars.CR) && (d =? Chars.LF)).
    + eapply IH; [|done]. simpl. lia.
    + eapply IH; [|done]. simpl. lia.
  - assert (Forall no_break (splitlines rest)) as H
      by (eapply IH; [|done]; simpl; lia).
    destruct (splitlines rest) as [|l ls]; repeat constructor; try done.
    + by inversion H.
    + by inversion H.
Qed.

Lemma splitlines_line (l : list N) :
  l ≠ [] → no_break l → splitlines l = [l].
Proof.
  induction l as [|c l IH]; [done|]. intros _ H.
  inversion H as [|? ? Hc Hl]; subst. simpl. rewrite Hc.
  destruct l as [|d l]; [done|]. by rewrite IH.
Qed.

Lemma splitlines_app_LF (l rest : list N) :
  no_break l → splitlines (l ++ Chars.LF :: rest) = l :: splitlines rest.
Proof.
  induction 1 as [|c l Hc Hl IH]; simpl.
  - by destruct rest.
  - by rewrite Hc, IH.
Qed.

Lemma splitlines_join (ls : list (list N)) :
  Forall (fun l => l ≠ [] ∧ no_break l) ls →
  splitlines (join [Chars.LF] ls) = ls.
Proof.
  induction 1 as [|l ls [Hne Hnb] Hls IH]; [done|].
  destruct ls as [|l' ls'].
  - by apply splitlines_line.
  - change (join [Chars.LF] (l :: l' :: ls'))
      with (l ++ Chars.LF :: join [Chars.LF] (l' :: ls')).
    by rewrite splitlines_app_LF, IH.
Qed.

Lemma clean_text_idem (x : list N) : clean_text (clean_text x) = clean_text x.
Proof.
  unfold clean_text.
  set (ls := filter _ (map strip (splitlines x))).
  assert (Forall (fun l => l ≠ [] ∧ no_break l ∧ strip l = l) ls) as H.
  { apply Forall_forall. intros l Hl. subst ls.
    apply list_elem_of_filter in Hl as [Hne Hl].
    apply list_elem_of_fmap in Hl as (l0 & -> & Hl0).
    split_and!.
    - by destruct (strip l0).
    - apply Forall_strip.
      by eapply (proj1 (Forall_forall _ _) (splitlines_no_break x)).
    - apply strip_idem. }
  rewrite splitlines_join by (eapply Forall_impl; [done|]; intros l' (? & ? & _); done).
  f_equal.
  induction H as [|l ls' (Hne & _ & Hs) _ IH]; [done|].
  simpl. rewrite Hs, filter_cons_True by (by destruct l). by f_equal.
Qed.

(** ** Regular expressions: a repeated single character *)

Section SingleChar.
Variables (p : N → bool) (r : regex).
Hypothesis body :
  ∀ (prev : option N) (s : list N) (k : option N → list N → option (list N)),
    m r prev s k =
      match s with
      | x :: s' => if p x then k (Some x) s' else None
      | [] => None
      end.

(** The greedy loop takes the whole run, if it is long enough. *)
Lemma rep_loop_run (fuel lo : nat) (prev : option N) (s : list N) :
  (length s < fuel)%nat →
  rep_loop (m r) (fun _ s' => Some s') fuel lo prev s =
    if (lo <=? run p s)%nat then Some (drop (run p s) s) else None.
Proof.
  revert lo prev s. induction fuel as [|fuel IH]; intros lo prev s Hf; [lia|].
  simpl. rewrite body. destruct s as [|x s']; simpl.
  - by destruct lo.
  - destruct (p x) eqn:Hx.
    + destruct (Nat.ltb_spec (length s') (S (length s'))) as [_|?]; [|lia].
      rewrite IH by (simpl in Hf; lia).
      destruct lo as [|lo]; simpl; [done|].
      by destruct (Nat.leb_spec lo (run p s')).
    + by destruct lo.
Qed.

Lemma run_le (s : list N) : (run p s <= length s)%nat.
Proof. induction s as [|c s IH]; simpl; [lia|]. destruct (p c); simpl; lia. Qed.

Lemma match_here_run (lo : nat) (prev : option N) (s : list N) :
  match_here (Rep lo r) false prev s =
    if (lo <=? run p s)%nat then Some (take (run p s) s) else None.
Proof.
  unfold match_here. cbn [m andb].
  rewrite (rep_loop_run (S (length s)) lo prev s) by lia.
  destruct (lo <=? run p s)%nat; [|done].
  rewrite length_drop. do 2 f_equal. pose proof (run_le s). lia.
Qed.

(** The scan of [r{lo,}] with [lo] at least one, position by position. *)
Lemma scan_run_nil (lo : nat) (prev : option N) :
  scan (Rep (S lo) r) 0 prev [] = [].
Proof. simpl scan. by rewrite match_here_run. Qed.

Lemma scan_run_cons (lo : nat) (prev : option N) (c : N) (s : list N) :
  scan (Rep (S lo) r) 0 prev (c :: s) =
    if (S lo <=? run p (c :: s))%nat
    then Matched (take (run p (c :: s)) (c :: s))
           :: scan (Rep (S lo) r) (run p s) (Some c) s
    else Skipped c :: scan (Rep (S lo) r) 0 (Some c) s.
Proof.
  simpl scan. rewrite match_here_run.
  destruct (S lo <=? run p (c :: s))%nat eqn:Hlo; [|done].
  simpl in *. destruct (p c); [|done]. simpl.
  by rewrite length_take_le by apply run_le.
Qed.
End SingleChar.

Lemma sub_tokens_cons (repl : list N) (t : token) (ts : list token) :
  sub_tokens repl (t :: ts) =
    match t with Skipped c => [c] | Matched _ => repl end ++ sub_tokens repl ts.
Proof. done. Qed.

(** [re.sub(r"[ \t]+", " ", s)] is the pass [squeeze_hspace]. *)
Lemma scan_hspaces (s : list N) :
  (∀ prev, sub_tokens [Chars.SPACE] (scan re_hspaces 0 prev s) = squeeze_hspace false s)
  ∧ (∀ prev, sub_tokens [Chars.SPACE] (scan re_hspaces (run is_hspace s) prev s)
            = squeeze_hspace true s).
Proof.
  unfold re_hspaces.
  induction s as [|c s [IHa IHb]].
  - split; intros; simpl run; by rewrite (scan_run_nil is_hspace).
  - assert (∀ prev, sub_tokens [Chars.SPACE] (scan (Rep 1 (Cls is_hspace)) 0 prev (c :: s))
                    = squeeze_hspace false (c :: s)) as Ha.
    { intros prev. rewrite (scan_run_cons is_hspace) by done.
      simpl. destruct (is_hspace c); simpl.
      - by rewrite sub_tokens_cons, IHb.
      - by rewrite sub_tokens_cons, IHa. }
    split; [done|]. intros prev. simpl run.
    destruct (is_hspace c) eqn:Hc.
    + simpl. rewrite Hc. apply IHb.
    + rewrite Ha. simpl. by rewrite Hc.
Qed.

Lemma sub_hspaces (s : list N) :
  sub re_hspaces [Chars.SPACE] s = squeeze_hspace false s.
Proof. apply scan_hspaces. Qed.

Lemma squeeze_newlines_no_run (seen : nat) (s : list N) :
  run is_LF s = 0%nat → squeeze_newlines seen s = squeeze_newlines 0 s.
Proof.
  destruct s as [|c s]; [done|]. simpl. unfold is_LF.
  by destruct (c =? Chars.LF).
Qed.

(** [re.sub(r"\n{3,}", "\n\n", s)] is the pass [squeeze_newlines]. *)
Lemma scan_newlines3 (s : list N) :
  (∀ prev seen, (seen = 0 ∨ seen + run is_LF s <= 2)%nat →
     sub_tokens [Chars.LF; Chars.LF] (scan re_newlines3 0 prev s) = squeeze_newlines seen s)
  ∧ (∀ prev, sub_tokens [Chars.LF; Chars.LF] (scan re_newlines3 (run is_LF s) prev s)
            = squeeze_newlines 2 s).
Proof.
  unfold re_newlines3.
  induction s as [|c s [IHa IHb]].
  - split; intros; simpl run; by rewrite (scan_run_nil is_LF).
  - assert (∀ prev seen, (seen = 0 ∨ seen + run is_LF (c :: s) <= 2)%nat →
              sub_tokens [Chars.LF; Chars.LF] (scan (Rep 3 (Lit Chars.LF)) 0 prev (c :: s))
              = squeeze_newlines seen (c :: s)) as Ha.
    { intros prev seen Hseen. rewrite (scan_run_cons is_LF) by done.
      simpl run in *. simpl squeeze_newlines. unfold is_LF in *.
      destruct (c =? Chars.LF) eqn:Hc.
      - destruct (Nat.leb_spec 3 (S (run (fun c => c =? Chars.LF) s))) as [Hlong|Hshort].
        + destruct Hseen as [->|?]; [|lia].
          rewrite sub_tokens_cons, IHb. simpl.
          destruct s as [|d s]; [simpl in Hlong; lia|].
          cbn [squeeze_newlines run] in Hlong |- *.
          destruct (d =? Chars.LF); [by simpl|lia].
        + rewrite sub_tokens_cons, (IHa _ (S seen)) by lia.
          apply N.eqb_eq in Hc as ->.
          destruct (Nat.ltb_spec seen 2); [done|lia].
      - simpl. by rewrite sub_tokens_cons, (IHa _ 0%nat) by lia. }
    split; [done|]. intros prev. simpl run. unfold is_LF in *.
    destruct (c =? Chars.LF) eqn:Hc.
    + simpl. rewrite Hc. apply IHb.
    + rewrite (Ha _ 0%nat) by lia. simpl. by rewrite Hc.
Qed.

Lemma sub_newlines3 (s : list N) :
  sub re_newlines3 [Chars.LF; Chars.LF] s = squeeze_newlines 0 s.
Proof. apply scan_newlines3. by left. Qed.

(** ** The shape of normalized text *)

Lemma is_hspace_cases (c : N) :
  (is_hspace c = true ∧ (c = Chars.SPACE ∨ c = Chars.TAB))
  ∨ (is_hspace c = false ∧ c ≠ Chars.SPACE ∧ c ≠ Chars.TAB).
Proof.
  unfold is_hspace.
  destruct (N.eqb_spec c Chars.SPACE), (N.eqb_spec c Chars.TAB); naive_solver.
Qed.

Lemma squeeze_hspace_normal (b : bool) (s : list N) :
  hspace_normal b (squeeze_hspace b s).
Proof.
  revert b. induction s as [|c s IH]; intros b; simpl; [done|].
  destruct (is_hspace_cases c) as [[-> _]|(-> & Hs & Ht)].
  - destruct b; [apply IH|]. simpl. split_and!; [done..|apply IH].
  - simpl. split_and!; [done..|].
    destruct (N.eqb_spec c Chars.SPACE); [done|apply IH].
Qed.

Lemma hspace_normal_fixed (b : bool) (s : list N) :
  hspace_normal b s → squeeze_hspace b s = s.
Proof.
  revert b. induction s as [|c s IH]; intros b; simpl; [done|].
  intros (Ht & Hb & Hs).
  destruct (is_hspace_cases c) as [[-> [-> | ->]]|(-> & Hc & _)]; [|done|].
  - rewrite Hb by done. f_equal. by apply IH.
  - f_equal. apply IH. by destruct (N.eqb_spec c Chars.SPACE).
Qed.

Lemma hspace_normal_weaken (b : bool) (s : list N) :
  hspace_normal b s → hspace_normal false s.
Proof. destruct s as [|c s]; simpl; [done|]. intros (? & _ & ?). done. Qed.

Lemma hspace_normal_squeeze_newlines (b : bool) (seen : nat) (s : list N) :
  hspace_normal b s → (seen ≠ 0%nat → b = false) →
  hspace_normal b (squeeze_newlines seen s).
Proof.
  revert b seen. induction s as [|c s IH]; intros b seen; simpl; [done|].
  intros (Ht & Hb & Hs) Hseen.
  destruct (N.eqb_spec c Chars.LF) as [->|Hc].
  - change (Chars.LF =? Chars.SPACE) with false in Hs.
    destruct (Nat.ltb_spec seen 2).
    + simpl. split_and!; [done..|]. by apply IH.
    + rewrite Hseen by lia. by apply IH.
  - simpl. split_and!; [done..|]. by apply IH.
Qed.

Lemma hspace_normal_lstrip (b : bool) (s : list N) :
  hspace_normal b s → hspace_normal false (lstrip s).
Proof.
  revert b. induction s as [|c s IH]; intros b; simpl; [done|].
  intros (Ht & Hb & Hs). destruct (isspace c); [by eapply IH|].
  simpl. split_and!; done.
Qed.

Lemma hspace_normal_rstrip (b : bool) (s : list N) :
  hspace_normal b s → hspace_normal b (rstrip s).
Proof.
  revert b. induction s as [|c s IH]; intros b; simpl; [done|].
  intros (Ht & Hb & Hs). apply IH in Hs.
  destruct (rstrip s); [destruct (isspace c)|]; simpl in *; done.
Qed.

Lemma squeeze_newlines_normal (seen : nat) (s : list N) :
  newline_normal seen (squeeze_newlines seen s).
Proof.
  revert seen. induction s as [|c s IH]; intros seen; simpl; [done|].
  destruct (N.eqb_spec c Chars.LF) as [->|Hc].
  - destruct (Nat.ltb_spec seen 2); [|apply IH].
    simpl. split; [done|apply IH].
  - simpl. destruct (N.eqb_spec c Chars.LF); [done|apply IH].
Qed.

Lemma newline_normal_fixed (seen : nat) (s : list N) :
  newline_normal seen s → squeeze_newlines seen s = s.
Proof.
  revert seen. induction s as [|c s IH]; intros seen; simpl; [done|].
  destruct (N.eqb_spec c Chars.LF) as [->|Hc].
  - intros [Hlt Hs]. destruct (Nat.ltb_spec seen 2); [|lia].
    f_equal. by apply IH.
  - intros Hs. f_equal. by apply IH.
Qed.

Lemma newline_normal_weaken (seen seen' : nat) (s : list N) :
  (seen' <= seen)%nat → newline_normal seen s → newline_normal seen' s.
Proof.
  revert seen seen'. induction s as [|c s IH]; intros seen seen' Hle; simpl; [done|].
  destruct (c =? Chars.LF); [|done].
  intros [Hlt Hs]. split; [lia|]. eapply IH; [|done]. lia.
Qed.

Lemma newline_normal_lstrip (seen : nat) (s : list N) :
  newline_normal seen s → newline_normal 0 (lstrip s).
Proof.
  revert seen. induction s as [|c s IH]; intros seen; simpl; [done|].
  destruct (isspace c).
  - destruct (c =? Chars.LF); [intros [_ Hs]|intros Hs]; by eapply IH.
  - intros Hs. eapply (newline_normal_weaken seen); [lia|done].
Qed.

Lemma newline_normal_rstrip (seen : nat) (s : list N) :
  newline_normal seen s → newline_normal seen (rstrip s).
Proof.
  revert seen. induction s as [|c s IH]; intros seen; simpl; [done|].
  intros Hs.
  assert (newline_normal (if c =? Chars.LF then S seen else 0%nat) (rstrip s)) as Hr
    by (destruct (c =? Chars.LF); [destruct Hs|]; by apply IH).
  destruct (rstrip s) as [|d r]; [destruct (isspace c)|]; simpl in *;
    destruct (c =? Chars.LF); try done; by destruct Hs.
Qed.

Lemma remove_cr_no_CR (s : list N) : no_CR (remove_cr s).
Proof. apply Forall_forall. intros c Hc. by apply list_elem_of_filter in Hc as [? _]. Qed.

Lemma remove_cr_fixed (s : list N) : no_CR s → remove_cr s = s.
Proof.
  induction 1 as [|c s Hc Hs IH]; [done|].
  unfold remove_cr in *. rewrite filter_cons_True by done. by rewrite IH.
Qed.

Lemma no_CR_squeeze_hspace (b : bool) (s : list N) :
  no_CR s → no_CR (squeeze_hspace b s).
Proof.
  intros H. revert b. induction H as [|c s Hc Hs IH]; intros b; simpl; [constructor|].
  destruct (is_hspace c); [destruct b|]; [apply IH|..];
    (apply Forall_cons; split; [done|apply IH]).
Qed.

Lemma no_CR_squeeze_newlines (seen : nat) (s : list N) :
  no_CR s → no_CR (squeeze_newlines seen s).
Proof.
  intros H. revert seen. induction H as [|c s Hc Hs IH]; intros seen; simpl; [constructor|].
  destruct (c =? Chars.LF); [destruct (seen <? 2)%nat|]; [|apply IH|];
    (apply Forall_cons; split; [done|apply IH]).
Qed.

Lemma normalize_text_idem (x : list N) :
  normalize_text (normalize_text x) = normalize_text x.
Proof.
  unfold normalize_text. rewrite !sub_hspaces, !sub_newlines3.
  set (y := squeeze_newlines 0 (squeeze_hspace false (remove_cr x))).
  assert (no_CR (strip y)) as Hcr
    by apply Forall_strip, no_CR_squeeze_newlines, no_CR_squeeze_hspace, remove_cr_no_CR.
  assert (hspace_normal false (strip y)) as Hh.
  { eapply hspace_normal_rstrip, hspace_normal_lstrip,
      hspace_normal_squeeze_newlines; [apply squeeze_hspace_normal|done]. }
  assert (newline_normal 0 (strip y)) as Hn
    by (eapply newline_normal_rstrip, newline_normal_lstrip, squeeze_newlines_normal).
  rewrite remove_cr_fixed, hspace_normal_fixed, newline_normal_fixed by done.
  apply strip_idem.
Qed.

(** C8. Both normalizations are idempotent: cleaning a cleaned text
    ([clean_text], the line-trimming variant that drops blank lines) and
    normalizing a normalized text ([normalize_text], the variant that
    squeezes white space) change nothing, for every text. *)
Theorem normalize_idempotent (x : list N) :
  normalize_text (normalize_text x) = normalize_text x
  ∧ clean_text (clean_text x) = clean_text x.
Proof. split; [apply normalize_text_idem|apply clean_text_idem]. Qed.

(** ** The digest *)

Lemma hexdigest_length (msg : list N) : length (SHA1.hexdigest msg) = 40%nat.
Proof. unfold SHA1.hexdigest. by destruct (SHA1.hash msg). Qed.

Lemma digest_of_nonempty (t : list N) : t ≠ [] → nonempty (digest_of t) = true.
Proof.
  intros Ht. unfold digest_of. destruct t as [|c t]; [done|]. simpl nonempty.
  pose proof (hexdigest_length (encode_utf8 (c :: t))) as H.
  by destruct (SHA1.hexdigest _).
Qed.

Lemma changed_same (digest : list N) : Analyzer.changed digest digest = false.
Proof.
  unfold Analyzer.changed. rewrite bool_decide_eq_false_2 by naive_solver.
  apply andb_false_r.
Qed.

Lemma changed_blank (prev_digest : list N) : Analyzer.changed [] prev_digest = false.
Proof. done. Qed.

(** C6. Under the digest strategy, for a non-empty text [t]: meeting
    [t] again is no change; [t] after the empty text is a change; and
    an empty current text is never a change. *)
Theorem digest_decide (t : list N) :
  t ≠ [] →
  Analyzer.decide t t = false
  ∧ Analyzer.decide [] t = true
  ∧ Analyzer.decide t [] = false.
Proof.
  intros Ht. unfold Analyzer.decide. split_and!.
  - apply changed_same.
  - unfold Analyzer.changed. rewrite digest_of_nonempty by done.
    apply bool_decide_eq_true_2. intros H.
    apply digest_of_nonempty in Ht. by rewrite H in Ht.
  - apply changed_blank.
Qed.

Lemma digest_decide_witness :
  text_of "a" ≠ []
  ∧ Analyzer.decide (text_of "a") (text_of "a") = false
  ∧ Analyzer.decide [] (text_of "a") = true
  ∧ Analyzer.decide (text_of "a") [] = false.
Proof. split; [done|]. apply (digest_decide (text_of "a")). done. Defined.

(** ** The digest loop *)

Lemma analyzer_tick_unchanged (args : Analyzer.Args) (st : Analyzer.state) (raw : list N) :
  Analyzer.changed (digest_of (clean_text raw)) (Analyzer.prev_digest st) = false →
  Analyzer.tick args st (Ok raw) = sleep_then (Analyzer.interval args) [] st.
Proof. intros H. unfold Analyzer.tick. by rewrite H. Qed.

(** C10. In the digest loop an iteration whose capture cleans to the
    empty text changes nothing: it only sleeps, and the state after it
    (digest and history) is the state before it.  So when the text that
    was reported last comes back after such a blank capture, it is not
    reported again. *)
Theorem blank_capture_keeps_state
    (args : Analyzer.Args) (st : Analyzer.state) (raw : list N) :
  clean_text raw = [] →
  Analyzer.tick args st (Ok raw) = sleep_then (Analyzer.interval args) [] st
  ∧ ∀ (raw0 : list N) (events : list event) (st' : Analyzer.state),
      Analyzer.prev_digest st = digest_of (clean_text raw0) →
      Analyzer.tick args st (Ok raw) = (events, Ok st') →
      st' = st
      ∧ Analyzer.tick args st' (Ok raw0) = sleep_then (Analyzer.interval args) [] st'.
Proof.
  intros Hblank.
  assert (Analyzer.tick args st (Ok raw) = sleep_then (Analyzer.interval args) [] st) as Ht
    by (apply analyzer_tick_unchanged; rewrite Hblank; apply changed_blank).
  split; [done|]. intros raw0 events st' Hprev Hst'.
  rewrite Ht in Hst'. unfold sleep_then in Hst'.
  destruct (time_sleep _); [done|]. injection Hst' as _ <-.
  split; [done|]. apply analyzer_tick_unchanged. rewrite Hprev. apply changed_same.
Qed.

Lemma blank_capture_keeps_state_witness :
  let args := {| Analyzer.interval := 2; Analyzer.region := None; Analyzer.history := 8 |} in
  let st := {| Analyzer.prev_digest := digest_of (text_of "hello");
               Analyzer.recent_text := [text_of "hello"] |} in
  clean_text (text_of "   ") = []
  ∧ Analyzer.tick args st (Ok (text_of "   ")) = ([Slept 2], Ok st)
  ∧ Analyzer.tick args st (Ok (text_of " hello ")) = ([Slept 2], Ok st).
Proof.
  intros args st.
  destruct (blank_capture_keeps_state args st (text_of "   ") eq_refl) as [H1 H2].
  split; [done|]. split; [exact H1|].
  exact (proj2 (H2 (text_of " hello ") [Slept 2] st eq_refl H1)).
Defined.

(** ** Comparing binary64 values *)

Lemma SFcompare_swap (x y : SpecFloat.spec_float) :
  SpecFloat.SFcompare y x = CompOpp <$> SpecFloat.SFcompare x y.
Proof.
  destruct x as [sx|sx| |sx mx ex], y as [sy|sy| |sy my ey]; simpl; try done;
    try (by destruct sx); try (by destruct sy); try (by destruct sx, sy).
  change (Pos.compare_cont Eq my mx) with (Pos.compare my mx).
  change (Pos.compare_cont Eq mx my) with (Pos.compare mx my).
  rewrite (Z.compare_antisym ex ey), (Pos.compare_antisym mx my).
  destruct sx, sy; simpl; try done;
    destruct (ex ?= ey)%Z; simpl; try done; by destruct (mx ?= my)%positive.
Qed.

Lemma ltb_asym (x y : float) : PrimFloat.ltb x y = true → PrimFloat.ltb y x = false.
Proof.
  rewrite !ltb_spec. unfold SpecFloat.SFltb. rewrite (SFcompare_swap (Prim2SF x)).
  by destruct (SpecFloat.SFcompare _ _) as [[]|].
Qed.

Lemma ltb_irrefl (x : float) : PrimFloat.ltb x x = false.
Proof.
  destruct (PrimFloat.ltb x x) eqn:H; [|done]. by rewrite (ltb_asym x x H) in H.
Qed.

Lemma ltb_leb (x y : float) : PrimFloat.ltb x y = true → PrimFloat.leb x y = true.
Proof.
  rewrite ltb_spec, leb_spec. unfold SpecFloat.SFltb, SpecFloat.SFleb.
  by destruct (SpecFloat.SFcompare _ _) as [[]|].
Qed.

Lemma leb_refl (x : float) : PrimFloat.is_nan x = false → PrimFloat.leb x x = true.
Proof.
  unfold PrimFloat.is_nan. rewrite FloatAxioms.eqb_spec, leb_spec.
  unfold SpecFloat.SFeqb, SpecFloat.SFleb.
  by destruct (SpecFloat.SFcompare _ _) as [[]|].
Qed.

Lemma leb_total (x y : float) :
  PrimFloat.is_nan x = false → PrimFloat.is_nan y = false →
  PrimFloat.ltb x y = false → PrimFloat.leb y x = true.
Proof.
  unfold PrimFloat.is_nan. rewrite !FloatAxioms.eqb_spec, ltb_spec, leb_spec.
  unfold SpecFloat.SFeqb, SpecFloat.SFltb, SpecFloat.SFleb.
  rewrite (SFcompare_swap (Prim2SF x) (Prim2SF y)).
  destruct (Prim2SF x) as [sx|sx| |sx mx ex], (Prim2SF y) as [sy|sy| |sy my ey];
    try done; simpl; try (by destruct sx); try (by destruct sy);
    try (by destruct sx, sy).
  intros _ _. by destruct sx, sy, (ex ?= ey)%Z, (Pos.compare_cont Eq mx my).
Qed.

(** [max] never gives less than either argument. *)
Lemma py_max_not_below (a b : float) :
  PrimFloat.ltb (py_max a b) a = false ∧ PrimFloat.ltb (py_max a b) b = false.
Proof.
  unfold py_max. destruct (PrimFloat.ltb a b) eqn:H.
  - split; [by apply ltb_asym|apply ltb_irrefl].
  - split; [apply ltb_irrefl|done].
Qed.

Lemma py_max_at_least (a b : float) :
  PrimFloat.is_nan a = false → PrimFloat.is_nan b = false →
  PrimFloat.leb a (py_max a b) = true ∧ PrimFloat.leb b (py_max a b) = true.
Proof.
  intros Ha Hb. unfold py_max. destruct (PrimFloat.ltb a b) eqn:H.
  - split; [by apply ltb_leb|by apply leb_refl].
  - split; [by apply leb_refl|by apply leb_total].
Qed.

(** ** Extraction on the sample of the specification *)

(** C4, as amended.  On the sample text the extractor finds the one
    address [a@b.com], the urgency signal [urgent], the task signal
    [todo] and two question marks; the one link it finds is
    [http://x.co,] with the comma, since a link runs to the next white
    space or closing parenthesis. *)
Theorem extract_sample :
  emails (analyze_text sample) = [text_of "a@b.com"]
  ∧ urls (analyze_text sample) = [text_of "http://x.co,"]
  ∧ text_of "urgent" ∈ urgency_hits (analyze_text sample)
  ∧ text_of "todo" ∈ todo_signals (analyze_text sample)
  ∧ question_count (analyze_text sample) = 2%Z.
Proof.
  assert (analyze_text sample =
          {| char_count := 73; word_count := 13;
             top_words := map (fun w => (text_of w, 1%Z))
               ["contact"; "me"; "at"; "com"; "or"; "see"; "http"; "co"]%string;
             urls := [text_of "http://x.co,"];
             emails := [text_of "a@b.com"];
             todo_signals := [text_of "todo"];
             question_count := 2;
             urgency_hits := [text_of "urgent"] |}) as -> by (vm_compute; reflexivity).
  simpl. split_and!; try done; apply list_elem_of_singleton; done.
Qed.

(** The claim as it stands fails: the links are not [{"http://x.co"}]. *)
Lemma extract_sample_urls_counterexample :
  urls (analyze_text sample) ≠ [text_of "http://x.co"].
Proof. vm_compute. discriminate. Qed.

(** ** Start-up and failures *)

(** C7, as amended.  The digest program refuses an interval below 0.5:
    it prints one line on the error stream and returns status 2, and no
    iteration of the loop runs, whatever the inputs.  The fuzzy program
    does not refuse it: [parse_args] raises the interval to 0.5. *)
Theorem interval_below_floor :
  (∀ (args : Analyzer.Args) (inputs : list Analyzer.input),
     PrimFloat.ltb (Analyzer.interval args) 0.5 = true →
     Analyzer.main args inputs =
       ([Stderr (text_of "Interval too small. Use >= 0.5 seconds.")], Exit 2%Z))
  ∧ (∀ args : Monitor.Namespace,
       PrimFloat.ltb (Monitor.arg_interval args) 0.5 = true →
       Monitor.interval (Monitor.parse_args args) = 0.5%float).
Proof.
  split.
  - intros args inputs H. unfold Analyzer.main. by rewrite H.
  - intros args H. unfold Monitor.parse_args, py_max. simpl.
    by rewrite (ltb_asym _ _ H).
Qed.

Lemma interval_below_floor_witness :
  PrimFloat.ltb 0.25 0.5 = true
  ∧ Analyzer.main {| Analyzer.interval := 0.25; Analyzer.region := None;
                     Analyzer.history := 8 |}
      [{| Analyzer.stop := false; Analyzer.capture := Ok (text_of "hello") |}]
    = ([Stderr (text_of "Interval too small. Use >= 0.5 seconds.")], Exit 2%Z)
  ∧ Monitor.interval
      (Monitor.parse_args {| Monitor.arg_interval := 0.25;
                             Monitor.arg_min_change_chars := 50;
                             Monitor.arg_show_raw_text := false;
                             Monitor.arg_model := text_of "local" |})
    = 0.5%float.
Proof.
  split; [reflexivity|]. split.
  - apply (proj1 interval_below_floor). reflexivity.
  - apply (proj2 interval_below_floor). reflexivity.
Defined.

(** The claim as it stands fails: with an interval of 0.25 the fuzzy
    program starts, runs an iteration and sleeps. *)
Lemma interval_below_floor_counterexample :
  PrimFloat.ltb 0.25 0.5 = true
  ∧ Monitor.main {| Monitor.arg_interval := 0.25;
                    Monitor.arg_min_change_chars := 3;
                    Monitor.arg_show_raw_text := false;
                    Monitor.arg_model := text_of "local" |}
      [{| Monitor.capture := Ok (text_of "hello"); Monitor.env := quiet_world |}]
    = ([Stdout (text_of "Starting screen text monitor. Press Ctrl+C to stop.");
        Block (text_of "Analysis")
          (text_of "1 non-empty lines, ~1 words. Top line: hello No high-signal keywords detected.");
        Slept 0.5],
       Running (text_of "hello")).
Proof. split; [reflexivity|]. vm_compute. reflexivity. Qed.

(** C2, as amended.  In the digest loop a capture that raises does not
    end the loop: the failure is written to the error stream, the loop
    sleeps [max(interval, 2.0)] seconds, which is never below the
    interval nor below 2 seconds, the state (digest and history) stays
    as it was, and once the sleep returns the loop goes on with the
    next iteration. *)
Theorem capture_failure_backoff
    (args : Analyzer.Args) (st : Analyzer.state) (e : exn) :
  is_Exception e = true →
  let backoff := py_max (Analyzer.interval args) 2 in
  Analyzer.tick args st (Raise e) = sleep_then backoff (capture_error_log e) st
  ∧ PrimFloat.ltb backoff (Analyzer.interval args) = false
  ∧ PrimFloat.ltb backoff 2 = false
  ∧ (PrimFloat.is_nan (Analyzer.interval args) = false →
     PrimFloat.leb (Analyzer.interval args) backoff = true
     ∧ PrimFloat.leb 2 backoff = true)
  ∧ (time_sleep backoff = None →
     ∀ rest : list Analyzer.input,
       Analyzer.loop args st
         ({| Analyzer.stop := false; Analyzer.capture := Raise e |} :: rest)
       = ((capture_error_log e ++ [Slept backoff]) ++ (Analyzer.loop args st rest).1,
          (Analyzer.loop args st rest).2)).
Proof.
  intros He backoff.
  assert (Analyzer.tick args st (Raise e) = sleep_then backoff (capture_error_log e) st)
    as Ht by (unfold Analyzer.tick; by rewrite He).
  split_and!.
  - done.
  - apply py_max_not_below.
  - apply py_max_not_below.
  - intros Hnan. by apply py_max_at_least.
  - intros Hs rest. cbn [Analyzer.loop Analyzer.stop Analyzer.capture].
    rewrite Ht. unfold sleep_then. rewrite Hs.
    by destruct (Analyzer.loop args st rest).
Qed.

Lemma capture_failure_backoff_witness :
  let args := {| Analyzer.interval := 1; Analyzer.region := None; Analyzer.history := 8 |} in
  let st := {| Analyzer.prev_digest := digest_of (text_of "hello");
               Analyzer.recent_text := [text_of "hello"] |} in
  let e := OtherException (text_of "screen grab failed") in
  is_Exception e = true
  ∧ Analyzer.tick args st (Raise e) = (capture_error_log e ++ [Slept 2], Ok st).
Proof.
  intros args st e. split; [reflexivity|].
  exact (proj1 (capture_failure_backoff args st e eq_refl)).
Defined.

(** The claim as it stands fails: the fuzzy loop has no handler around
    its capture, so a capture that raises ends the loop at once; the
    capture that would have followed is never made. *)
Lemma capture_failure_counterexample :
  Monitor.main {| Monitor.arg_interval := 2;
                  Monitor.arg_min_change_chars := 50;
                  Monitor.arg_show_raw_text := false;
                  Monitor.arg_model := text_of "local" |}
    [{| Monitor.capture := Raise (OtherException (text_of "screen grab failed"));
        Monitor.env := quiet_world |};
     {| Monitor.capture := Ok (text_of "hello"); Monitor.env := quiet_world |}]
  = ([Stdout (text_of "Starting screen text monitor. Press Ctrl+C to stop.")],
     Uncaught (OtherException (text_of "screen grab failed"))).
Proof. vm_compute. reflexivity. Qed.

(** C9. With a remote model selected and no [OPENAI_API_KEY] in the
    environment, the analysis raises, and the [try] of the loop turns
    that into an "Analysis error" block whose body is the error's text.
    Nothing is raised out of the iteration by the analysis: the
    iteration goes on to its sleep with the new text as the previous
    one, and once the sleep returns the loop takes the next input. *)
Theorem remote_without_credential
    (config : Monitor.AnalysisConfig) (previous raw : list N) (i : Monitor.input) :
  Monitor.capture i = Ok raw →
  Monitor.model config ≠ text_of "local" →
  Monitor.OPENAI_API_KEY (Monitor.env i) = None →
  let current := normalize_text raw in
  (Monitor.min_change_chars config <=? diff_size previous current)%Z = true →
  let report := Block (text_of "Analysis error") (text_of "OPENAI_API_KEY is not set") in
  Monitor.analyze (Monitor.env i) current (Monitor.model config)
    = Raise (RuntimeError (text_of "OPENAI_API_KEY is not set"))
  ∧ Monitor.tick config previous i
    = sleep_then (Monitor.interval config) (shown_text config current ++ [report]) current
  ∧ (time_sleep (Monitor.interval config) = None →
     ∀ rest : list Monitor.input,
       Monitor.loop config previous (i :: rest)
       = (((shown_text config current ++ [report]) ++ [Slept (Monitor.interval config)])
            ++ (Monitor.loop config current rest).1,
          (Monitor.loop config current rest).2)).
Proof.
  intros Hcap Hmodel Hkey current Hchanged report.
  assert (Monitor.analyze (Monitor.env i) current (Monitor.model config)
          = Raise (RuntimeError (text_of "OPENAI_API_KEY is not set"))) as Ha.
  { unfold Monitor.analyze, Monitor.openai_analysis.
    rewrite bool_decide_eq_false_2 by done. by rewrite Hkey. }
  assert (Monitor.tick config previous i
          = sleep_then (Monitor.interval config)
              (shown_text config current ++ [report]) current) as Ht.
  { unfold Monitor.tick, Monitor.capture_ocr_text. rewrite Hcap.
    fold current. rewrite Hchanged, Ha. done. }
  split_and!; [done..|].
  intros Hs rest. cbn [Monitor.loop]. rewrite Ht. unfold sleep_then. rewrite Hs.
  by destruct (Monitor.loop config current rest).
Qed.

Lemma remote_without_credential_witness :
  let config := {| Monitor.interval := 2; Monitor.min_change_chars := 3;
                   Monitor.show_raw_text := false;
                   Monitor.model := text_of "gpt-4.1-mini" |} in
  let i := {| Monitor.capture := Ok (text_of "hello"); Monitor.env := quiet_world |} in
  Monitor.tick config [] i
  = ([Block (text_of "Analysis error") (text_of "OPENAI_API_KEY is not set"); Slept 2],
     Ok (text_of "hello")).
Proof.
  intros config i.
  refine (proj1 (proj2 (remote_without_credential config [] (text_of "hello") i
                          eq_refl _ eq_refl _))).
  - vm_compute. discriminate.
  - vm_compute. reflexivity.
Defined.

(** ** The sequence matcher *)

Section DifflibFacts.
Local Open Scope Z_scope.

(** ** The longest match lies inside its window *)

Section MatchBounds.
Variables (a b : list N) (b2j : gmap N (list Z)).
Variables (alo ahi blo bhi : Z).

Lemma row_bounds (i : Z) (j2len : gmap Z Z) (js : list Z) (acc : gmap Z Z * Difflib.Match) :
  alo ≤ i → row_ok alo blo bhi (i - 1) j2len → row_ok alo blo bhi i acc.1 → best_ok alo blo bhi i acc.2 →
  row_ok alo blo bhi i (Difflib.row blo bhi i j2len js acc).1
  ∧ best_ok alo blo bhi i (Difflib.row blo bhi i j2len js acc).2.
Proof.
  intros Hi Hprev. revert acc.
  induction js as [|j js IH]; intros acc Hrow Hbest; simpl; [done|].
  destruct (Z.ltb_spec j blo); [by apply IH|].
  destruct (Z.leb_spec bhi j); [done|].
  destruct acc as [newj2len [[besti bestj] bestsize]].
  set (k := default 0 (j2len !! (j - 1)) + 1).
  assert (1 ≤ k ∧ k ≤ i - alo + 1 ∧ k ≤ j - blo + 1) as Hk.
  { subst k. destruct (j2len !! (j - 1)) as [k'|] eqn:Hk'; simpl; [|lia].
    apply Hprev in Hk'. lia. }
  apply IH; simpl.
  - intros j' k' Hj'. destruct (decide (j' = j)) as [->|Hne].
    + rewrite lookup_insert_eq in Hj'. injection Hj' as <-. lia.
    + rewrite lookup_insert_ne in Hj' by done. by apply Hrow.
  - simpl in Hbest. destruct (Z.ltb_spec bestsize k); simpl; lia.
Qed.

Lemma best_ok_next (i : Z) (mt : Difflib.Match) : best_ok alo blo bhi (i - 1) mt → best_ok alo blo bhi i mt.
Proof. destruct mt as [[besti bestj] bestsize]. simpl. lia. Qed.

Lemma rows_bounds (n : nat) (i : Z) (acc : gmap Z Z * Difflib.Match) :
  alo ≤ i → row_ok alo blo bhi (i - 1) acc.1 → best_ok alo blo bhi (i - 1) acc.2 →
  best_ok alo blo bhi (i + Z.of_nat n - 1) (Difflib.rows a b2j blo bhi (seqZ i (Z.of_nat n)) acc).2.
Proof.
  revert i acc. induction n as [|n IH]; intros i acc Hi Hrow Hbest.
  - rewrite seqZ_nil by lia. simpl. by replace (i + Z.of_nat 0 - 1) with (i - 1) by lia.
  - rewrite seqZ_cons by lia. simpl.
    replace (Z.pred (Z.of_nat (S n))) with (Z.of_nat n) by lia.
    replace (i + Z.of_nat (S n) - 1) with (Z.succ i + Z.of_nat n - 1) by lia.
    match goal with |- context [Difflib.row blo bhi i ?j2len ?js ?acc0] =>
      destruct (row_bounds i j2len js acc0) as [Hr Hb] end; try done.
    + by apply best_ok_next.
    + apply IH; [lia|..]; by replace (Z.succ i - 1) with i by lia.
Qed.

Lemma extend_back_bounds (junk : bool) (fuel : nat) (mt : Difflib.Match) :
  match_ok alo ahi blo bhi mt → match_ok alo ahi blo bhi (Difflib.extend_back a b junk alo blo fuel mt).
Proof.
  revert mt. induction fuel as [|fuel IH]; intros [[besti bestj] bestsize] H; [done|].
  simpl. destruct (_ && _) eqn:Hc; [|done].
  apply IH. simpl in *.
  apply andb_prop in Hc as [Hc _]. apply andb_prop in Hc as [Hc _].
  apply andb_prop in Hc as [?%Z.ltb_lt ?%Z.ltb_lt]. lia.
Qed.

Lemma extend_fwd_bounds (junk : bool) (fuel : nat) (mt : Difflib.Match) :
  match_ok alo ahi blo bhi mt → match_ok alo ahi blo bhi (Difflib.extend_fwd a b junk ahi bhi fuel mt).
Proof.
  revert mt. induction fuel as [|fuel IH]; intros [[besti bestj] bestsize] H; [done|].
  simpl. destruct (_ && _) eqn:Hc; [|done].
  apply IH. simpl in *.
  apply andb_prop in Hc as [Hc _]. apply andb_prop in Hc as [Hc _].
  apply andb_prop in Hc as [?%Z.ltb_lt ?%Z.ltb_lt]. lia.
Qed.

Lemma find_longest_match_bounds :
  alo ≤ ahi → blo ≤ bhi →
  match_ok alo ahi blo bhi (Difflib.find_longest_match a b b2j alo ahi blo bhi).
Proof.
  intros Ha Hb. unfold Difflib.find_longest_match.
  do 2 (apply extend_fwd_bounds, extend_back_bounds).
  pose proof (rows_bounds (Z.to_nat (ahi - alo)) alo (∅, (alo, blo, 0))) as H.
  rewrite Z2Nat.id in H by lia.
  destruct (Difflib.rows _ _ _ _ _ _).2 as [[besti bestj] bestsize].
  simpl in *. destruct H as (? & ? & ? & ? & ?); [lia| |lia|lia].
  intros j k Hjk. by rewrite lookup_empty in Hjk.
Qed.
End MatchBounds.

(** ** The loop of [get_matching_blocks] ends within its fuel *)

Lemma blocks_loop_total (a b : list N) (b2j : gmap N (list Z)) (fuel : nat)
    (queue : list (Z * Z * Z * Z)) (acc : list Difflib.Match) :
  Forall window_ok queue → (queue_cost queue <= fuel)%nat →
  is_Some (Difflib.blocks_loop a b b2j fuel queue acc).
Proof.
  revert queue acc. induction fuel as [|fuel IH]; intros queue acc Hok Hcost.
  - destruct queue as [|[[[alo ahi] blo] bhi] queue]; [by eexists|].
    cbn [queue_cost window_cost] in Hcost. lia.
  - destruct queue as [|[[[alo ahi] blo] bhi] queue]; [by eexists|].
    apply Forall_cons in Hok as [[Ha Hb] Hok].
    cbn [queue_cost window_cost] in Hcost.
    cbn [Difflib.blocks_loop].
    pose proof (find_longest_match_bounds a b b2j alo ahi blo bhi Ha Hb) as Hm.
    destruct (Difflib.find_longest_match a b b2j alo ahi blo bhi) as [[i j] k].
    simpl in Hm.
    destruct (Z.eqb_spec k 0); [apply IH; [done|lia]|].
    apply IH.
    + destruct (_ && _), (_ && _); repeat (apply Forall_cons; split);
        unfold window_ok; try done; lia.
    + destruct (_ && _), (_ && _); cbn [queue_cost window_cost]; lia.
Qed.

Lemma get_matching_blocks_total (a b : list N) :
  is_Some (Difflib.blocks_loop a b (Difflib.chain_b b) (Difflib.blocks_fuel a)
             [(0, len a, 0, len b)] []).
Proof.
  apply blocks_loop_total.
  - apply Forall_singleton. unfold window_ok, len. lia.
  - unfold Difflib.blocks_fuel, len. cbn [queue_cost window_cost]. lia.
Qed.

(** ** The stretching loops *)

Lemma isbjunk_eqb_true (elt : N) : Bool.eqb (Difflib.isbjunk elt) true = false.
Proof. done. Qed.

Lemma extend_back_junk (a b : list N) (alo blo : Z) (fuel : nat) (mt : Difflib.Match) :
  Difflib.extend_back a b true alo blo fuel mt = mt.
Proof.
  destruct fuel as [|fuel]; [done|]. destruct mt as [[besti bestj] bestsize]. simpl.
  destruct (Difflib.at_ b (bestj - 1)); simpl; by rewrite ?andb_false_r.
Qed.

Lemma extend_fwd_junk (a b : list N) (ahi bhi : Z) (fuel : nat) (mt : Difflib.Match) :
  Difflib.extend_fwd a b true ahi bhi fuel mt = mt.
Proof.
  destruct fuel as [|fuel]; [done|]. destruct mt as [[besti bestj] bestsize]. simpl.
  destruct (Difflib.at_ b (bestj + bestsize)); simpl; by rewrite ?andb_false_r.
Qed.

Lemma at_in_range (t : list N) (i : Z) :
  0 ≤ i < len t → ∃ c, Difflib.at_ t i = Some c.
Proof.
  intros Hi. unfold Difflib.at_, len in *.
  destruct (t !! Z.to_nat i) eqn:H; [by eexists|].
  apply lookup_ge_None in H. lia.
Qed.

(** On the diagonal of a text against itself the stretch goes all the way. *)
Lemma extend_back_diag (t : list N) (fuel : nat) (besti bestsize : Z) :
  Z.of_nat fuel = besti → besti ≤ len t →
  Difflib.extend_back t t false 0 0 fuel (besti, besti, bestsize)
  = (0, 0, bestsize + besti).
Proof.
  revert besti bestsize. induction fuel as [|fuel IH]; intros besti bestsize Hf Hb.
  - simpl in *. subst besti. by rewrite Z.add_0_r.
  - simpl. destruct (at_in_range t (besti - 1)) as [c ->]; [lia|].
    destruct (Z.ltb_spec 0 besti); [|lia]. simpl.
    rewrite bool_decide_eq_true_2 by done.
    rewrite IH by lia. f_equal. lia.
Qed.

Lemma extend_fwd_diag (t : list N) (fuel : nat) (bestsize : Z) :
  0 ≤ bestsize → bestsize + Z.of_nat fuel = len t →
  Difflib.extend_fwd t t false (len t) (len t) fuel (0, 0, bestsize)
  = (0, 0, len t).
Proof.
  revert bestsize. induction fuel as [|fuel IH]; intros bestsize Hs Hf.
  - simpl in *. f_equal. lia.
  - simpl. rewrite ?Z.add_0_l. destruct (at_in_range t bestsize) as [c ->]; [lia|].
    destruct (Z.ltb_spec bestsize (len t)); [|lia]. simpl.
    rewrite bool_decide_eq_true_2 by done.
    apply IH; lia.
Qed.

(** ** The index [b2j] *)

Lemma index_from_lookup (l : list N) (i : Z) (b2j : gmap N (list Z)) (c : N) :
  Difflib.index_from i l b2j !! c =
    match positions_from i c l with
    | [] => b2j !! c
    | ps => Some (default [] (b2j !! c) ++ ps)
    end.
Proof.
  revert i b2j. induction l as [|x l IH]; intros i b2j; simpl; [done|].
  rewrite IH. case_bool_decide as Hx.
  - subst x. rewrite lookup_insert_eq. simpl.
    destruct (positions_from (i + 1) c l); simpl; by rewrite <- ?app_assoc.
  - by rewrite lookup_insert_ne.
Qed.

Lemma chain_b_lookup (b : list N) (c : N) (js : list Z) :
  Difflib.chain_b b !! c = Some js → js = positions_from 0 c b.
Proof.
  unfold Difflib.chain_b. intros H.
  assert (Difflib.index_from 0 b ∅ !! c = Some js) as Hjs.
  { destruct (200 <=? len b); [|done]. by apply map_lookup_filter_Some in H as [? _]. }
  rewrite index_from_lookup, lookup_empty in Hjs.
  destruct (positions_from 0 c b); [done|]. by injection Hjs.
Qed.

Lemma elem_of_positions_from (l : list N) (i : Z) (c : N) (j : Z) :
  j ∈ positions_from i c l ↔ i ≤ j < i + len l ∧ Difflib.at_ l (j - i) = Some c.
Proof.
  unfold Difflib.at_, len. revert i. induction l as [|x l IH]; intros i; simpl.
  - rewrite elem_of_nil. split; [done|]. lia.
  - rewrite elem_of_app, IH. split.
    + intros [Hj|[Hj Hc]].
      * case_bool_decide; [|by apply elem_of_nil in Hj].
        apply list_elem_of_singleton in Hj as ->. subst x.
        split; [lia|]. by replace (i - i) with 0 by lia.
      * split; [lia|]. replace (Z.to_nat (j - i)) with (S (Z.to_nat (j - (i + 1)))) by lia.
        done.
    + intros [Hj Hc]. destruct (decide (j = i)) as [->|Hne].
      * left. replace (i - i) with 0 in Hc by lia. simpl in Hc. injection Hc as ->.
        rewrite bool_decide_eq_true_2 by done. by apply list_elem_of_singleton.
      * right. split; [lia|].
        replace (Z.to_nat (j - i)) with (S (Z.to_nat (j - (i + 1)))) in Hc by lia.
        done.
Qed.

Lemma positions_from_sorted (l : list N) (i : Z) (c : N) :
  StronglySorted Z.lt (positions_from i c l).
Proof.
  revert i. induction l as [|x l IH]; intros i; simpl; [constructor|].
  case_bool_decide; simpl; [|apply IH].
  constructor; [apply IH|].
  apply Forall_forall. intros j Hj. apply elem_of_positions_from in Hj. lia.
Qed.

(** ** A text against itself *)

Section SameText.
Variable t : list N.

Lemma streak_nonneg (i : Z) : 0 ≤ streak t i.
Proof. unfold streak. lia. Qed.

Lemma streak_before : streak t (-1) = 0.
Proof. done. Qed.

Lemma streak_le (i : Z) : -1 ≤ i → streak t i ≤ i + 1.
Proof.
  intros Hi. unfold streak.
  pose proof (run_le (indexed t) (reverse (take (Z.to_nat (i + 1)) t))) as H.
  rewrite length_reverse, length_take in H. lia.
Qed.

Lemma streak_step (i : Z) (c : N) :
  0 ≤ i → Difflib.at_ t i = Some c →
  streak t i = if indexed t c then streak t (i - 1) + 1 else 0.
Proof.
  intros Hi Hc. unfold streak, Difflib.at_ in *.
  replace (Z.to_nat (i + 1)) with (S (Z.to_nat i)) by lia.
  replace (Z.to_nat (i - 1 + 1)) with (Z.to_nat i) by lia.
  rewrite (take_S_r _ _ _ Hc), reverse_snoc. simpl.
  destruct (indexed t c); lia.
Qed.

Lemma row_diag (i : Z) (c : N) (j2len : gmap Z Z) (js : list Z)
    (acc : gmap Z Z * Difflib.Match) :
  0 ≤ i → Difflib.at_ t i = Some c → indexed t c = true →
  row_streaks t (i - 1) j2len → default 0 (j2len !! (i - 1)) = streak t (i - 1) →
  StronglySorted Z.lt js →
  Forall (fun j => 0 ≤ j < len t ∧ Difflib.at_ t j = Some c) js →
  row_streaks t i acc.1 → best_diag t (i + 1) i acc.2 →
  (i ∈ js ∨ (acc.1 !! i = Some (streak t i) ∧ streak t i ≤ acc.2.2 ∧ Forall (Z.lt i) js)) →
  let r := Difflib.row 0 (len t) i j2len js acc in
  row_streaks t i r.1 ∧ default 0 (r.1 !! i) = streak t i ∧ best_diag t (i + 1) (i + 1) r.2.
Proof.
  intros Hi Hc Hidx Hprev Hprev_i.
  assert (streak t i = streak t (i - 1) + 1) as Hsi
    by (rewrite (streak_step i c) by done; by rewrite Hidx).
  revert acc. induction js as [|j js IH]; intros acc Hsort Hjs Hrow Hbest Hstate.
  - destruct Hstate as [Hin|(Hrow_i & Hle & _)]; [by apply elem_of_nil in Hin|].
    simpl. rewrite Hrow_i. split_and!; [done..|].
    destruct acc as [newj2len [[besti bestj] bestsize]]. simpl in *.
    destruct Hbest as (? & ? & ? & ? & Hold). split_and!; try done; try lia.
    intros i' Hi'. destruct (decide (i' = i)) as [->|]; [done|]. apply Hold. lia.
  - apply StronglySorted_inv in Hsort as [Hsort Hlt].
    apply Forall_cons in Hjs as [[Hj Hcj] Hjs].
    simpl. destruct (Z.ltb_spec j 0); [lia|]. destruct (Z.leb_spec (len t) j); [lia|].
    destruct acc as [newj2len [[besti bestj] bestsize]].
    set (k := default 0 (j2len !! (j - 1)) + 1).
    assert (streak t j = streak t (j - 1) + 1) as Hsj
      by (rewrite (streak_step j c) by (done || lia); by rewrite Hidx).
    assert (1 ≤ k ∧ k ≤ streak t i ∧ k ≤ streak t j) as Hk.
    { subst k. pose proof (streak_nonneg (i - 1)). pose proof (streak_nonneg (j - 1)).
      destruct (j2len !! (j - 1)) as [k'|] eqn:Hk'; simpl; [|lia].
      apply Hprev in Hk'. lia. }
    assert (row_streaks t i (<[j:=k]> newj2len)) as Hrow'.
    { intros j' k' Hj'. destruct (decide (j' = j)) as [->|Hne].
      - rewrite lookup_insert_eq in Hj'. by injection Hj' as <-.
      - rewrite lookup_insert_ne in Hj' by done. by apply Hrow. }
    simpl in Hbest. destruct Hbest as (Hd & Hbi & Hbs & Hend & Hold).
    simpl in Hstate.
    destruct (decide (j = i)) as [->|Hne].
    + (* the diagonal *)
      assert (k = streak t i) as Hki by (subst k; lia).
      apply IH; simpl; try done.
      * pose proof (streak_le i). destruct (Z.ltb_spec bestsize k); simpl.
        -- split_and!; try lia. intros i' Hi'. specialize (Hold i' Hi'). lia.
        -- split_and!; try done.
      * right. rewrite lookup_insert_eq, Hki. split_and!; [done| |done].
        destruct (Z.ltb_spec bestsize (streak t i)); simpl; lia.
    + destruct Hstate as [Hin|(Hrow_i & Hle & Hgt)].
      * (* before the diagonal *)
        apply elem_of_cons in Hin as [->|Hin]; [done|].
        assert (j < i) by (by eapply (proj1 (Forall_forall _ _) Hlt)).
        assert (streak t j ≤ bestsize) by (apply Hold; lia).
        destruct (Z.ltb_spec bestsize k); [lia|].
        apply IH; simpl; try done. by left.
      * (* after the diagonal *)
        apply Forall_cons in Hgt as [Hgt Hgts].
        destruct (Z.ltb_spec bestsize k); [lia|].
        apply IH; simpl; try done.
        right. by rewrite lookup_insert_ne by done.
Qed.
End SameText.

Lemma rows_diag (t : list N) (m : nat) (i : Z) (acc : gmap Z Z * Difflib.Match) :
  0 ≤ i → i + Z.of_nat m ≤ len t →
  row_streaks t (i - 1) acc.1 → default 0 (acc.1 !! (i - 1)) = streak t (i - 1) →
  best_diag t i i acc.2 →
  best_diag t (i + Z.of_nat m) (i + Z.of_nat m)
    (Difflib.rows t (Difflib.chain_b t) 0 (len t) (seqZ i (Z.of_nat m)) acc).2.
Proof.
  revert i acc. induction m as [|m IH]; intros i acc Hi Hm Hrow Hrow_i Hbest.
  - rewrite seqZ_nil by lia. simpl. by replace (i + Z.of_nat 0) with i by lia.
  - rewrite seqZ_cons by lia. cbn [Difflib.rows].
    replace (Z.pred (Z.of_nat (S m))) with (Z.of_nat m) by lia.
    replace (i + Z.of_nat (S m)) with (Z.succ i + Z.of_nat m) by lia.
    destruct (at_in_range t i) as [c Hc]; [lia|]. rewrite Hc.
    assert (row_streaks t i (∅ : gmap Z Z)) as Hempty
      by (intros j k Hjk; by rewrite lookup_empty in Hjk).
    destruct (Difflib.chain_b t !! c) as [js|] eqn:Hjs; simpl.
    + pose proof (chain_b_lookup t c js Hjs) as ->.
      destruct (row_diag t i c acc.1 (positions_from 0 c t) (∅, acc.2))
        as (Hr & Hr_i & Hb); try done.
      * unfold indexed. rewrite Hjs. by apply bool_decide_eq_true_2.
      * apply positions_from_sorted.
      * apply Forall_forall. intros j Hj. apply elem_of_positions_from in Hj.
        replace (j - 0) with j in Hj by lia. split; [lia|tauto].
      * destruct acc as [j2len [[besti bestj] bestsize]]. simpl in *.
        destruct Hbest as (? & ? & ? & ? & Hold). split_and!; try done; lia.
      * left. apply elem_of_positions_from. replace (i - 0) with i by lia.
        split; [lia|done].
      * apply IH; try lia; by replace (Z.succ i - 1) with i by lia.
    + assert (streak t i = 0) as Hs.
      { rewrite (streak_step t i c) by done. unfold indexed. rewrite Hjs.
        by rewrite bool_decide_eq_false_2 by (by intros [? ?]). }
      apply IH; try lia; replace (Z.succ i - 1) with i by lia; simpl; try done.
      destruct acc as [j2len [[besti bestj] bestsize]]. simpl in *.
      destruct Hbest as (? & ? & ? & ? & Hold). split_and!; try done; try lia.
      intros i' Hi'. destruct (decide (i' = i)) as [->|]; [lia|]. apply Hold. lia.
Qed.

(** Against itself a text is one match from end to end. *)
Lemma find_longest_match_same (t : list N) :
  Difflib.find_longest_match t t (Difflib.chain_b t) 0 (len t) 0 (len t)
  = (0, 0, len t).
Proof.
  unfold Difflib.find_longest_match.
  assert (best_diag t (0 + Z.of_nat (length t)) (0 + Z.of_nat (length t))
            (Difflib.rows t (Difflib.chain_b t) 0 (len t)
               (seqZ 0 (Z.of_nat (length t))) (∅, (0, 0, 0))).2) as H.
  { apply rows_diag; simpl; try done; try (unfold len; lia).
    split_and!; try done. intros i' Hi'. lia. }
  replace (len t - 0) with (Z.of_nat (length t)) by (unfold len; lia).
  destruct (Difflib.rows _ _ _ _ _ _).2 as [[besti bestj] bestsize].
  destruct H as (<- & Hi & Hs & Hend & _).
  unfold Difflib.back_fuel, Difflib.fwd_fuel. simpl.
  rewrite extend_back_diag by (unfold len in *; lia).
  simpl. rewrite extend_fwd_diag by (unfold len in *; lia).
  by rewrite extend_back_junk, extend_fwd_junk.
Qed.

Lemma get_matching_blocks_same (t : list N) :
  Difflib.get_matching_blocks t t
  = if decide (t = []) then [(0, 0, 0)] else [(0, 0, len t); (len t, len t, 0)].
Proof.
  unfold Difflib.get_matching_blocks, Difflib.blocks_fuel.
  cbn [Nat.mul Nat.add Difflib.blocks_loop]. rewrite Nat.add_comm.
  cbn [Nat.add Difflib.blocks_loop].
  rewrite find_longest_match_same.
  destruct t as [|c t]; [done|].
  rewrite decide_False by done.
  destruct (Z.eqb_spec (len (c :: t)) 0) as [H|H]; [unfold len in H; simpl in H; lia|].
  rewrite !Z.add_0_l, !Z.ltb_irrefl, !andb_false_r.
  destruct (2 * length (c :: t))%nat; simpl; rewrite ?Z.eqb_refl; simpl;
    by destruct (Z.eqb_spec (len (c :: t)) 0).
Qed.

Lemma diff_size_same (t : list N) : diff_size t t = 0.
Proof.
  unfold diff_size, Difflib.get_opcodes. rewrite get_matching_blocks_same.
  destruct (decide (t = [])); simpl; [done|].
  rewrite !Z.add_0_l, !Z.ltb_irrefl. simpl.
  destruct (len t =? 0); simpl; by rewrite ?Z.ltb_irrefl.
Qed.

(** ** A text against the empty text *)

Lemma rows_no_index (a : list N) (blo bhi : Z) (range : list Z)
    (acc : gmap Z Z * Difflib.Match) :
  (Difflib.rows a ∅ blo bhi range acc).2 = acc.2.
Proof.
  revert acc. induction range as [|i range IH]; intros acc; [done|].
  cbn [Difflib.rows]. rewrite IH.
  destruct (Difflib.at_ a i); by rewrite ?lookup_empty.
Qed.

Lemma find_longest_match_empty (a : list N) :
  Difflib.find_longest_match a [] ∅ 0 (len a) 0 0 = (0, 0, 0).
Proof.
  unfold Difflib.find_longest_match. rewrite rows_no_index.
  cbn [snd fst]. rewrite extend_back_junk, extend_fwd_junk.
  change (Difflib.back_fuel 0 (0, 0, 0)) with 0%nat.
  cbn [Difflib.extend_back].
  destruct (Difflib.fwd_fuel (len a) (0, 0, 0)); [done|].
  cbn [Difflib.extend_fwd]. by rewrite andb_false_r.
Qed.

Lemma get_matching_blocks_empty (a : list N) :
  Difflib.get_matching_blocks a [] = [(len a, 0, 0)].
Proof.
  unfold Difflib.get_matching_blocks, Difflib.blocks_fuel.
  rewrite Nat.add_comm. cbn [Nat.add Difflib.blocks_loop].
  change (Difflib.chain_b []) with (∅ : gmap N (list Z)).
  change (len []) with 0. rewrite find_longest_match_empty.
  by destruct (2 * length a)%nat.
Qed.

Lemma diff_size_empty (p : list N) : diff_size p [] = len p.
Proof.
  unfold diff_size, Difflib.get_opcodes. rewrite get_matching_blocks_empty.
  cbn [Difflib.opcodes_from]. rewrite Z.ltb_irrefl, andb_false_r.
  destruct (Z.ltb_spec 0 (len p)); simpl; [lia|]. unfold len in *. lia.
Qed.

(** ** The magnitude *)

Lemma diff_size_magnitude (previous current : list N) :
  diff_size previous current = magnitude previous current.
Proof.
  unfold diff_size, magnitude.
  generalize (Difflib.get_opcodes previous current). intros ops.
  enough (∀ acc, fold_left
            (fun changed (op : Difflib.opcode) =>
               let '(tag, i1, i2, j1, j2) := op in
               match tag with
               | Difflib.Equal => changed
               | _ => changed + ((i2 - i1) + (j2 - j1))
               end) ops acc
          = acc + foldr Z.add 0
                    (map span_lengths (filter (fun op => is_edit op = true) ops)))
    as H by (rewrite H; lia).
  induction ops as [|[[[[tag i1] i2] j1] j2] ops IH]; intros acc; simpl; [lia|].
  rewrite IH. destruct tag.
  all: try (rewrite filter_cons_True by done; simpl; lia).
  rewrite filter_cons_False by done. done.
Qed.

(** ** Matching blocks match *)

Section MatchAgrees.
Variables (a b : list N).
Variables (alo ahi blo bhi : Z).

Lemma agree_extend (i j k : Z) (c : N) :
  0 ≤ k → agree a b (i - k, j - k, k) →
  Difflib.at_ a i = Some c → Difflib.at_ b j = Some c →
  agree a b (i - (k + 1) + 1, j - (k + 1) + 1, k + 1).
Proof.
  intros Hk Hag Ha Hb d Hd.
  destruct (decide (d = k)) as [->|Hne].
  - exists c. split; [by replace (i - (k + 1) + 1 + k) with i by lia|].
    by replace (j - (k + 1) + 1 + k) with j by lia.
  - destruct (Hag d) as (c' & ? & ?); [lia|]. exists c'.
    split; [by replace (i - (k + 1) + 1 + d) with (i - k + d) by lia|].
    by replace (j - (k + 1) + 1 + d) with (j - k + d) by lia.
Qed.

Lemma row_agrees_step (i : Z) (c : N) (j2len : gmap Z Z) (js : list Z)
    (acc : gmap Z Z * Difflib.Match) :
  alo ≤ i → Difflib.at_ a i = Some c →
  Forall (fun j => Difflib.at_ b j = Some c) js →
  row_ok alo blo bhi (i - 1) j2len → row_agrees a b (i - 1) j2len →
  row_agrees a b i acc.1 → agree a b acc.2 →
  row_agrees a b i (Difflib.row blo bhi i j2len js acc).1
  ∧ agree a b (Difflib.row blo bhi i j2len js acc).2.
Proof.
  intros Hi Ha Hjs Hok Hprev. revert acc.
  induction Hjs as [|j js Hj Hjs IH]; intros acc Hrow Hbest; simpl; [done|].
  destruct (Z.ltb_spec j blo); [by apply IH|].
  destruct (Z.leb_spec bhi j); [done|].
  destruct acc as [newj2len [[besti bestj] bestsize]].
  set (k := default 0 (j2len !! (j - 1)) + 1).
  assert (agree a b (i - k + 1, j - k + 1, k)) as Hk.
  { subst k. destruct (j2len !! (j - 1)) as [k'|] eqn:Hk'; simpl.
    - pose proof (Hok _ _ Hk') as (? & _).
      apply (agree_extend i j k' c); [lia| |done|done].
      apply Hprev in Hk'.
      replace (i - 1 - k' + 1) with (i - k') in Hk' by lia.
      by replace (j - 1 - k' + 1) with (j - k') in Hk' by lia.
    - apply (agree_extend i j 0 c); [lia| |done|done]. intros d Hd. lia. }
  apply IH; simpl.
  - intros j' k' Hj'. destruct (decide (j' = j)) as [->|Hne].
    + rewrite lookup_insert_eq in Hj'. by injection Hj' as <-.
    + rewrite lookup_insert_ne in Hj' by done. by apply Hrow.
  - by destruct (bestsize <? k).
Qed.

Lemma rows_agree (b2j : gmap N (list Z)) (n : nat) (i : Z) (acc : gmap Z Z * Difflib.Match) :
  (∀ c js, b2j !! c = Some js → Forall (fun j => Difflib.at_ b j = Some c) js) →
  alo ≤ i →
  row_ok alo blo bhi (i - 1) acc.1 → row_agrees a b (i - 1) acc.1 → agree a b acc.2 →
  agree a b (Difflib.rows a b2j blo bhi (seqZ i (Z.of_nat n)) acc).2.
Proof.
  intros Hb2j. revert i acc. induction n as [|n IH]; intros i acc Hi Hok Hrow Hbest.
  - by rewrite seqZ_nil by lia.
  - rewrite seqZ_cons by lia. cbn [Difflib.rows].
    replace (Z.pred (Z.of_nat (S n))) with (Z.of_nat n) by lia.
    assert (row_ok alo blo bhi i (∅ : gmap Z Z)) as Hok0
      by (intros j k Hjk; by rewrite lookup_empty in Hjk).
    assert (row_agrees a b i (∅ : gmap Z Z)) as Hrow0
      by (intros j k Hjk; by rewrite lookup_empty in Hjk).
    destruct (Difflib.at_ a i) as [c|] eqn:Hc.
    + assert (Forall (fun j => Difflib.at_ b j = Some c) (default [] (b2j !! c))) as Hjs.
      { destruct (b2j !! c) eqn:Hl; simpl; [by eapply Hb2j|constructor]. }
      destruct (row_agrees_step i c acc.1 (default [] (b2j !! c)) (∅, acc.2))
        as [Hr Hbe]; try done.
      apply IH; [lia| |by replace (Z.succ i - 1) with i by lia..].
      replace (Z.succ i - 1) with i by lia.
      (* the bounds of the new row *)
      assert (∀ js acc0, row_ok alo blo bhi i acc0.1 →
                row_ok alo blo bhi i (Difflib.row blo bhi i acc.1 js acc0).1) as Hrows.
      { clear -Hok Hi. induction js as [|j js IHjs]; intros acc0 H0; simpl; [done|].
        destruct (Z.ltb_spec j blo); [by apply IHjs|].
        destruct (Z.leb_spec bhi j); [done|].
        destruct acc0 as [newj2len [[besti bestj] bestsize]].
        apply IHjs. simpl. intros j' k' Hj'.
        destruct (decide (j' = j)) as [->|Hne].
        - rewrite lookup_insert_eq in Hj'. injection Hj' as <-.
          destruct (acc.1 !! (j - 1)) as [k0|] eqn:Hk0; simpl; [|lia].
          apply Hok in Hk0. lia.
        - rewrite lookup_insert_ne in Hj' by done. by apply H0. }
      by apply Hrows.
    + simpl. apply IH; [lia|by replace (Z.succ i - 1) with i by lia..].
Qed.

Lemma extend_back_agrees (junk : bool) (fuel : nat) (mt : Difflib.Match) :
  agree a b mt → agree a b (Difflib.extend_back a b junk alo blo fuel mt).
Proof.
  revert mt. induction fuel as [|fuel IH]; intros [[besti bestj] bestsize] H; [done|].
  simpl. destruct (_ && _) eqn:Hc; [|done].
  apply IH. apply andb_prop in Hc as [Hc Heq]. apply andb_prop in Hc as [_ Hb].
  apply bool_decide_eq_true in Heq.
  destruct (Difflib.at_ b (bestj - 1)) as [c|] eqn:Hbc; [|done].
  intros d Hd. destruct (decide (d = 0)) as [->|Hne].
  - exists c. by rewrite !Z.add_0_r.
  - destruct (H (d - 1)) as (c' & ? & ?); [lia|]. exists c'.
    split; [by replace (besti - 1 + d) with (besti + (d - 1)) by lia|].
    by replace (bestj - 1 + d) with (bestj + (d - 1)) by lia.
Qed.

Lemma extend_fwd_agrees (junk : bool) (fuel : nat) (mt : Difflib.Match) :
  agree a b mt → agree a b (Difflib.extend_fwd a b junk ahi bhi fuel mt).
Proof.
  revert mt. induction fuel as [|fuel IH]; intros [[besti bestj] bestsize] H; [done|].
  simpl. destruct (_ && _) eqn:Hc; [|done].
  apply IH. apply andb_prop in Hc as [Hc Heq]. apply andb_prop in Hc as [_ Hb].
  apply bool_decide_eq_true in Heq.
  destruct (Difflib.at_ b (bestj + bestsize)) as [c|] eqn:Hbc; [|done].
  intros d Hd. destruct (decide (d = bestsize)) as [->|Hne].
  - by exists c.
  - apply H. lia.
Qed.

Lemma find_longest_match_agrees :
  alo ≤ ahi →
  agree a b (Difflib.find_longest_match a b (Difflib.chain_b b) alo ahi blo bhi).
Proof.
  intros Ha. unfold Difflib.find_longest_match.
  do 2 (apply extend_fwd_agrees, extend_back_agrees).
  pose proof (rows_agree (Difflib.chain_b b) (Z.to_nat (ahi - alo)) alo
                (∅, (alo, blo, 0))) as H.
  rewrite Z2Nat.id in H by lia. apply H; simpl; try lia.
  - intros c js Hjs. apply chain_b_lookup in Hjs as ->.
    apply Forall_forall. intros j Hj. apply elem_of_positions_from in Hj as [_ Hj].
    by replace (j - 0) with j in Hj by lia.
  - intros j k Hjk. by rewrite lookup_empty in Hjk.
  - intros j k Hjk. by rewrite lookup_empty in Hjk.
Qed.
End MatchAgrees.

Lemma blocks_loop_agree (a b : list N) (fuel : nat) (queue : list (Z * Z * Z * Z))
    (acc blocks : list Difflib.Match) :
  Forall window_ok queue → Forall (agree a b) acc →
  Difflib.blocks_loop a b (Difflib.chain_b b) fuel queue acc = Some blocks →
  Forall (agree a b) blocks.
Proof.
  revert queue acc.
  induction fuel as [|fuel IH]; intros queue acc Hq Hacc Hloop;
    destruct queue as [|[[[alo ahi] blo] bhi] queue]; try done.
  - by injection Hloop as <-.
  - by injection Hloop as <-.
  - apply Forall_cons in Hq as [[Ha Hb] Hq]. cbn [Difflib.blocks_loop] in Hloop.
    pose proof (find_longest_match_agrees a b alo ahi blo bhi Ha) as Hag.
    pose proof (find_longest_match_bounds a b (Difflib.chain_b b) alo ahi blo bhi Ha Hb)
      as Hm.
    destruct (Difflib.find_longest_match a b _ alo ahi blo bhi) as [[i j] k].
    simpl in Hm. destruct (k =? 0); [by eapply IH|].
    eapply IH; [|by apply Forall_app; split; [|apply Forall_singleton]|done].
    destruct (_ && _), (_ && _); repeat (apply Forall_cons; split);
      unfold window_ok; try done; lia.
Qed.

Lemma insert_match_agree (a b : list N) (x : Difflib.Match) (l : list Difflib.Match) :
  agree a b x → Forall (agree a b) l → Forall (agree a b) (Difflib.insert_match x l).
Proof.
  intros Hx. induction 1 as [|y l Hy Hl IH]; simpl; [by apply Forall_singleton|].
  destruct (Difflib.match_ltb y x); repeat (apply Forall_cons; split); done.
Qed.

Lemma sort_matches_agree (a b : list N) (l : list Difflib.Match) :
  Forall (agree a b) l → Forall (agree a b) (Difflib.sort_matches l).
Proof.
  unfold Difflib.sort_matches.
  assert (∀ acc, Forall (agree a b) acc → Forall (agree a b) l →
            Forall (agree a b) (fold_left (fun acc x => Difflib.insert_match x acc) l acc))
    as H; [|by apply H].
  induction l as [|x l IH]; intros acc Hacc Hl; simpl; [done|].
  apply Forall_cons in Hl as [Hx Hl]. apply IH; [|done]. by apply insert_match_agree.
Qed.

Lemma collapse_agree (a b : list N) (cur : Difflib.Match) (blocks : list Difflib.Match) :
  agree a b cur → Forall (agree a b) blocks →
  Forall (agree a b) (Difflib.collapse cur blocks).
Proof.
  intros Hcur Hblocks. revert cur Hcur.
  induction Hblocks as [|[[i2 j2] k2] blocks H2 Hblocks IH];
    intros [[i1 j1] k1] Hcur; simpl.
  - destruct (k1 =? 0); [constructor|by apply Forall_singleton].
  - destruct (_ && _) eqn:Hadj.
    + apply andb_prop in Hadj as [<-%Z.eqb_eq <-%Z.eqb_eq]. apply IH.
      intros d Hd. destruct (Z.lt_ge_cases d k1).
      * apply Hcur. lia.
      * destruct (H2 (d - k1)) as (c & ? & ?); [lia|]. exists c.
        split; [by replace (i1 + d) with (i1 + k1 + (d - k1)) by lia|].
        by replace (j1 + d) with (j1 + k1 + (d - k1)) by lia.
    + apply Forall_app. split; [|by apply IH].
      destruct (k1 =? 0); [constructor|by apply Forall_singleton].
Qed.

(** Every matching block is a match of the two texts. *)
Lemma get_matching_blocks_agree (a b : list N) :
  Forall (agree a b) (Difflib.get_matching_blocks a b).
Proof.
  unfold Difflib.get_matching_blocks. apply Forall_app. split.
  - apply collapse_agree; [intros d Hd; lia|]. apply sort_matches_agree.
    destruct (get_matching_blocks_total a b) as [blocks Hb]. rewrite Hb. simpl.
    eapply blocks_loop_agree; [| |done]; [|constructor].
    apply Forall_singleton. unfold window_ok, len. lia.
  - apply Forall_singleton. intros d Hd. lia.
Qed.

Lemma opcodes_from_equal (a b : list N) (i j : Z) (blocks : list Difflib.Match)
    (i1 i2 j1 j2 : Z) :
  Forall (agree a b) blocks →
  (Difflib.Equal, i1, i2, j1, j2) ∈ Difflib.opcodes_from i j blocks →
  agree a b (i1, j1, i2 - i1) ∧ j2 - j1 = i2 - i1.
Proof.
  intros Hblocks. revert i j.
  induction Hblocks as [|[[ai bj] size] blocks Hb Hblocks IH]; intros i j Hin; simpl in Hin.
  - by apply elem_of_nil in Hin.
  - rewrite !elem_of_app in Hin. destruct Hin as [Hin|[Hin|Hin]].
    + destruct (_ && _); [|destruct (i <? ai); [|destruct (j <? bj)]];
        try (by apply elem_of_nil in Hin);
        by apply list_elem_of_singleton in Hin.
    + destruct (size =? 0); [by apply elem_of_nil in Hin|].
      apply list_elem_of_singleton in Hin. injection Hin as -> -> -> ->.
      split; [|lia]. by replace (ai + size - ai) with size by lia.
    + by eapply IH.
Qed.

(** The spans tagged [equal] hold the same characters in both texts. *)
Lemma equal_spans_agree (a b : list N) (i1 i2 j1 j2 : Z) :
  (Difflib.Equal, i1, i2, j1, j2) ∈ Difflib.get_opcodes a b →
  j2 - j1 = i2 - i1
  ∧ ∀ d, 0 ≤ d < i2 - i1 →
      ∃ c, Difflib.at_ a (i1 + d) = Some c ∧ Difflib.at_ b (j1 + d) = Some c.
Proof.
  intros Hin. apply (opcodes_from_equal a b) in Hin as [Hag Hlen];
    [|apply get_matching_blocks_agree].
  by split.
Qed.

End DifflibFacts.

(** ** The fuzzy loop *)

Section FuzzyLoop.
Local Open Scope Z_scope.

Lemma monitor_tick_unchanged
    (config : Monitor.AnalysisConfig) (previous raw : list N) (i : Monitor.input) :
  Monitor.capture i = Ok raw →
  (Monitor.decide config previous (normalize_text raw)).2 = false →
  Monitor.tick config previous i
  = sleep_then (Monitor.interval config)
      [NoChange (diff_size previous (normalize_text raw))] previous.
Proof.
  intros Hcap H. unfold Monitor.tick, Monitor.capture_ocr_text. rewrite Hcap.
  simpl in H. by rewrite H.
Qed.

Lemma monitor_tick_changed
    (config : Monitor.AnalysisConfig) (previous raw : list N) (i : Monitor.input) :
  Monitor.capture i = Ok raw →
  let current := normalize_text raw in
  (Monitor.decide config previous current).2 = true →
  Monitor.tick config previous i
  = match Monitor.analyze (Monitor.env i) current (Monitor.model config) with
    | Ok analysis =>
        sleep_then (Monitor.interval config)
          (shown_text config current
             ++ Monitor.print_block (text_of "Analysis") analysis) current
    | Raise exc =>
        if is_Exception exc then
          sleep_then (Monitor.interval config)
            (shown_text config current
               ++ Monitor.print_block (text_of "Analysis error") (exn_str exc)) current
        else (shown_text config current, Raise exc)
    end.
Proof.
  intros Hcap current H. unfold Monitor.tick, Monitor.capture_ocr_text. rewrite Hcap.
  fold current. simpl in H. by rewrite H.
Qed.

Lemma sleep_then_events {S : Type} (d : float) (events : list event) (st : S) (e : event) :
  e ∈ (sleep_then d events st).1 → e ∈ events ∨ e = Slept d.
Proof.
  unfold sleep_then. destruct (time_sleep d); simpl; [by left|].
  rewrite elem_of_app, list_elem_of_singleton. tauto.
Qed.

Lemma monitor_tick_changed_events
    (config : Monitor.AnalysisConfig) (previous raw : list N) (i : Monitor.input) (m : Z) :
  Monitor.capture i = Ok raw →
  (Monitor.decide config previous (normalize_text raw)).2 = true →
  NoChange m ∉ (Monitor.tick config previous i).1.
Proof.
  intros Hcap H Hin. rewrite (monitor_tick_changed config previous raw i Hcap H) in Hin.
  assert (NoChange m ∉ shown_text config (normalize_text raw)) as Hshown.
  { unfold shown_text, Monitor.print_block.
    destruct (Monitor.show_raw_text config); [|apply not_elem_of_nil].
    rewrite list_elem_of_singleton. discriminate. }
  destruct (Monitor.analyze _ _ _) as [analysis|exc].
  - apply sleep_then_events in Hin as [Hin|]; [|done].
    apply elem_of_app in Hin as [|Hin]; [done|].
    unfold Monitor.print_block in Hin. by apply list_elem_of_singleton in Hin.
  - destruct (is_Exception exc); [|done].
    apply sleep_then_events in Hin as [Hin|]; [|done].
    apply elem_of_app in Hin as [|Hin]; [done|].
    unfold Monitor.print_block in Hin. by apply list_elem_of_singleton in Hin.
Qed.

(** C3, as amended.  Under the fuzzy strategy a text against itself has
    magnitude 0; the verdict is "unchanged" for every threshold of 1 or
    more, and "changed" when the threshold is 0, since the test is
    [changed >= min_change_chars]. *)
Theorem fuzzy_same_text (config : Monitor.AnalysisConfig) (t : list N) :
  (Monitor.decide config t t).1 = 0
  ∧ (1 ≤ Monitor.min_change_chars config → Monitor.decide config t t = (0, false))
  ∧ (Monitor.min_change_chars config ≤ 0 → Monitor.decide config t t = (0, true)).
Proof.
  unfold Monitor.decide. rewrite diff_size_same. split_and!; [done|..]; intros H; f_equal.
  - apply Z.leb_gt. lia.
  - by apply Z.leb_le.
Qed.

Lemma fuzzy_same_text_witness :
  1 ≤ Monitor.min_change_chars (local_config 50)
  ∧ Monitor.decide (local_config 50) (text_of "hello") (text_of "hello") = (0, false).
Proof.
  split; [simpl; lia|].
  apply (fuzzy_same_text (local_config 50) (text_of "hello")). simpl. lia.
Defined.

(** The claim as it stands fails at the threshold 0, which is a
    threshold "[>= 0]": the same text is then a change. *)
Lemma fuzzy_same_text_counterexample :
  0 ≤ Monitor.min_change_chars (local_config 0)
  ∧ Monitor.decide (local_config 0) (text_of "hello") (text_of "hello") = (0, true).
Proof. split; [simpl; lia|]. vm_compute. reflexivity. Qed.

(** C1, as amended.  In both loops an iteration with a "changed"
    verdict ends with the current sample as the previous one.  In the
    digest loop the new state holds the digest of the captured text, and
    the same capture in the next iteration only sleeps.  In the fuzzy
    loop [previous] becomes the current text whether the analysis
    returns or raises an [Exception]; the same capture in the next
    iteration is reported as "no change" with magnitude 0, provided the
    threshold [min_change_chars] is 1 or more. *)
Theorem previous_advances :
  (∀ (args : Analyzer.Args) (st : Analyzer.state) (raw : list N),
     Analyzer.changed (digest_of (clean_text raw)) (Analyzer.prev_digest st) = true →
     let st' :=
       {| Analyzer.prev_digest := digest_of (clean_text raw);
          Analyzer.recent_text :=
            Analyzer.deque_append (Analyzer.history args) (Analyzer.recent_text st)
              (clean_text raw) |} in
     Analyzer.tick args st (Ok raw)
     = sleep_then (Analyzer.interval args)
         [PrintAnalysis (analyze_text (clean_text raw)) (clean_text raw)
            (summarize_recent (Analyzer.recent_text st'))] st'
     ∧ Analyzer.tick args st' (Ok raw) = sleep_then (Analyzer.interval args) [] st')
  ∧ (∀ (config : Monitor.AnalysisConfig) (previous raw : list N) (i : Monitor.input),
       Monitor.capture i = Ok raw →
       let current := normalize_text raw in
       (Monitor.decide config previous current).2 = true →
       (∀ analysis,
          Monitor.analyze (Monitor.env i) current (Monitor.model config) = Ok analysis →
          Monitor.tick config previous i
          = sleep_then (Monitor.interval config)
              (shown_text config current
                 ++ Monitor.print_block (text_of "Analysis") analysis) current)
       ∧ (∀ exc,
            Monitor.analyze (Monitor.env i) current (Monitor.model config) = Raise exc →
            is_Exception exc = true →
            Monitor.tick config previous i
            = sleep_then (Monitor.interval config)
                (shown_text config current
                   ++ Monitor.print_block (text_of "Analysis error") (exn_str exc))
                current)
       ∧ (1 ≤ Monitor.min_change_chars config →
          Monitor.tick config current i
          = sleep_then (Monitor.interval config) [NoChange 0] current)).
Proof.
  split.
  - intros args st raw H st'. split.
    + unfold Analyzer.tick. by rewrite H.
    + apply analyzer_tick_unchanged. apply changed_same.
  - intros config previous raw i Hcap current H. split_and!.
    + intros analysis Ha.
      rewrite (monitor_tick_changed config previous raw i Hcap H). fold current.
      by rewrite Ha.
    + intros exc Ha He.
      rewrite (monitor_tick_changed config previous raw i Hcap H). fold current.
      by rewrite Ha, He.
    + intros Hthr.
      rewrite (monitor_tick_unchanged config current raw i Hcap); fold current.
      * by rewrite diff_size_same.
      * unfold Monitor.decide. rewrite diff_size_same. simpl. apply Z.leb_gt. lia.
Qed.

Lemma previous_advances_witness :
  let i := {| Monitor.capture := Ok (text_of "hello"); Monitor.env := quiet_world |} in
  let remote := {| Monitor.interval := 2; Monitor.min_change_chars := 3;
                   Monitor.show_raw_text := false;
                   Monitor.model := text_of "gpt-4.1-mini" |} in
  Monitor.tick remote [] i
  = ([Block (text_of "Analysis error") (text_of "OPENAI_API_KEY is not set"); Slept 2],
     Ok (text_of "hello"))
  ∧ Monitor.tick remote (text_of "hello") i = ([NoChange 0; Slept 2], Ok (text_of "hello"))
  ∧ Analyzer.tick
      {| Analyzer.interval := 2; Analyzer.region := None; Analyzer.history := 8 |}
      {| Analyzer.prev_digest := digest_of (text_of "hello");
         Analyzer.recent_text := [text_of "hello"] |}
      (Ok (text_of "hello"))
    = ([Slept 2],
       Ok {| Analyzer.prev_digest := digest_of (text_of "hello");
             Analyzer.recent_text := [text_of "hello"] |}).
Proof.
  intros i remote.
  destruct (proj2 previous_advances remote [] (text_of "hello") i eq_refl eq_refl)
    as (_ & Hfail & Hnext).
  split; [|split].
  - exact (Hfail (RuntimeError (text_of "OPENAI_API_KEY is not set")) eq_refl eq_refl).
  - apply Hnext. simpl. lia.
  - exact (proj2 (proj1 previous_advances
             {| Analyzer.interval := 2; Analyzer.region := None; Analyzer.history := 8 |}
             {| Analyzer.prev_digest := []; Analyzer.recent_text := [] |}
             (text_of "hello") eq_refl)).
Defined.

(** The claim as it stands fails in the fuzzy loop at the threshold 0:
    after an iteration with a "changed" verdict the same capture is a
    change again, and is analysed again. *)
Lemma previous_advances_counterexample :
  let i := {| Monitor.capture := Ok (text_of "hello"); Monitor.env := quiet_world |} in
  let report :=
    Block (text_of "Analysis")
      (text_of "1 non-empty lines, ~1 words. Top line: hello No high-signal keywords detected.") in
  Monitor.decide (local_config 0) [] (text_of "hello") = (5, true)
  ∧ Monitor.tick (local_config 0) [] i = ([report; Slept 2], Ok (text_of "hello"))
  ∧ Monitor.decide (local_config 0) (text_of "hello") (text_of "hello") = (0, true)
  ∧ Monitor.tick (local_config 0) (text_of "hello") i
    = ([report; Slept 2], Ok (text_of "hello")).
Proof. vm_compute. repeat split; reflexivity. Qed.

End FuzzyLoop.

(** * Further properties *)

(** ** What cleaning and normalizing keep *)

Lemma islinebreak_isspace (c : N) : islinebreak c = true → isspace c = true.
Proof.
  unfold islinebreak, isspace.
  rewrite !orb_true_iff, !andb_true_iff, !N.leb_le, !N.eqb_eq. lia.
Qed.

Lemma visible_cons (c : N) (s : list N) :
  visible (c :: s) = if isspace c then visible s else c :: visible s.
Proof.
  unfold visible. destruct (isspace c) eqn:Hc.
  - by rewrite filter_cons_False by (by rewrite Hc).
  - by rewrite filter_cons_True.
Qed.

Lemma visible_app (s t : list N) : visible (s ++ t) = visible s ++ visible t.
Proof. apply filter_app. Qed.

Lemma visible_nil_blank (s : list N) : visible s = [] ↔ blank s.
Proof.
  unfold blank. induction s as [|c s IH]; [by split; [constructor|]|].
  rewrite visible_cons, Forall_cons. destruct (isspace c).
  - rewrite IH. by split; [|intros [_ ?]].
  - split; [done|]. by intros [? _].
Qed.

Lemma visible_lstrip (s : list N) : visible (lstrip s) = visible s.
Proof.
  induction s as [|c s IH]; [done|]. simpl.
  destruct (isspace c) eqn:Hc; [|done]. by rewrite IH, visible_cons, Hc.
Qed.

Lemma visible_rstrip (s : list N) : visible (rstrip s) = visible s.
Proof.
  induction s as [|c s IH]; [done|]. simpl. rewrite (visible_cons c s), <- IH.
  destruct (rstrip s) as [|d r]; [|by rewrite visible_cons].
  destruct (isspace c) eqn:Hc; [done|]. by rewrite visible_cons, Hc.
Qed.

Lemma visible_strip (s : list N) : visible (strip s) = visible s.
Proof. unfold strip. by rewrite visible_rstrip, visible_lstrip. Qed.

Lemma visible_concat_splitlines (s : list N) :
  visible (concat (splitlines s)) = visible s.
Proof.
  remember (length s) as n eqn:Hn.
  revert s Hn. induction (lt_wf n) as [n _ IH]. intros s ->.
  destruct s as [|c rest]; [done|]. simpl splitlines.
  destruct (islinebreak c) eqn:Hc.
  - rewrite visible_cons, (islinebreak_isspace c Hc). simpl concat.
    destruct rest as [|d rest']; [done|].
    destruct (N.eqb_spec c Chars.CR) as [->|_]; simpl andb.
    + destruct (N.eqb_spec d Chars.LF) as [->|_].
      * rewrite (visible_cons Chars.LF). change (isspace Chars.LF) with true.
        eapply IH; [|done]. simpl. lia.
      * eapply IH; [|done]. simpl. lia.
    + eapply IH; [|done]. simpl. lia.
  - assert (visible (concat (splitlines rest)) = visible rest) as H
      by (eapply IH; [|done]; simpl; lia).
    rewrite (visible_cons c rest), <- H.
    destruct (splitlines rest) as [|l ls]; simpl; by rewrite visible_cons.
Qed.

Lemma visible_join_LF (ls : list (list N)) :
  visible (join [Chars.LF] ls) = visible (concat ls).
Proof.
  induction ls as [|l ls IH]; [done|].
  destruct ls as [|l' ls'].
  - simpl. by rewrite app_nil_r.
  - change (join [Chars.LF] (l :: l' :: ls'))
      with (l ++ Chars.LF :: join [Chars.LF] (l' :: ls')).
    change (concat (l :: l' :: ls')) with (l ++ concat (l' :: ls')).
    rewrite !visible_app, visible_cons. change (isspace Chars.LF) with true.
    by rewrite IH.
Qed.

Lemma visible_concat_strip (ls : list (list N)) :
  visible (concat (filter (fun ln => nonempty ln = true) (map strip ls)))
  = visible (concat ls).
Proof.
  induction ls as [|l ls IH]; [done|].
  change (map strip (l :: ls)) with (strip l :: map strip ls).
  change (concat (l :: ls)) with (l ++ concat ls).
  rewrite visible_app, <- IH, <- (visible_strip l).
  destruct (strip l) as [|c r] eqn:Hl.
  - by rewrite filter_cons_False by done.
  - rewrite filter_cons_True by done. by rewrite concat_cons, visible_app.
Qed.

Lemma visible_clean_text (t : list N) : visible (clean_text t) = visible t.
Proof.
  unfold clean_text.
  by rewrite visible_join_LF, visible_concat_strip, visible_concat_splitlines.
Qed.

(** the lines that [clean_text] joins *)
Lemma clean_text_lines_ok (t : list N) :
  Forall (fun l => l ≠ [] ∧ no_break l ∧ strip l = l)
    (filter (fun ln => nonempty ln = true) (map strip (splitlines t))).
Proof.
  apply Forall_forall. intros l Hl.
  apply list_elem_of_filter in Hl as [Hne Hl].
  apply list_elem_of_fmap in Hl as (l0 & -> & Hl0).
  split_and!.
  - by destruct (strip l0).
  - apply Forall_strip.
    by eapply (proj1 (Forall_forall _ _) (splitlines_no_break t)).
  - apply strip_idem.
Qed.

Lemma join_head (sep l : list N) (ls : list (list N)) :
  l ≠ [] → head (join sep (l :: ls)) = head l.
Proof. destruct l; [done|]. by destruct ls. Qed.

Lemma strip_head (s : list N) :
  head (strip s) = None ∨ (∃ c, head (strip s) = Some c ∧ isspace c = false).
Proof. unfold strip. rewrite rstrip_head by apply lstrip_head. apply lstrip_head. Qed.

(** X1. A capture counts as blank exactly when it is white space: the
    cleaned text is empty if and only if every character of the capture
    is white space (line ends included). *)
Theorem clean_text_blank (t : list N) : clean_text t = [] ↔ blank t.
Proof.
  split.
  - intros H. apply visible_nil_blank. by rewrite <- visible_clean_text, H.
  - intros H. apply visible_nil_blank in H. rewrite <- visible_clean_text in H.
    revert H. unfold clean_text.
    pose proof (clean_text_lines_ok t) as Hok.
    destruct (filter _ (map strip (splitlines t))) as [|l ls]; [done|].
    apply Forall_cons in Hok as [(Hne & _ & Hs) _]. intros H.
    pose proof (join_head [Chars.LF] l ls Hne) as Hh.
    destruct (strip_head l) as [Hl|(c & Hl & Hc)]; rewrite Hs in Hl.
    + by destruct l.
    + rewrite Hl in Hh. destruct (join [Chars.LF] (l :: ls)) as [|c' r]; [done|].
      injection Hh as ->. by rewrite visible_cons, Hc in H.
Qed.

(** X2. Cleaning keeps the lines that are not blank, trimmed and in
    their order, and nothing else: splitting the cleaned text into lines
    gives back exactly those lines, none of them is empty, and none
    starts or ends with white space. *)
Theorem clean_text_lines (t : list N) :
  splitlines (clean_text t)
  = filter (fun ln => nonempty ln = true) (map strip (splitlines t))
  ∧ Forall (fun l => l ≠ [] ∧ trimmed l) (splitlines (clean_text t)).
Proof.
  pose proof (clean_text_lines_ok t) as Hok.
  assert (splitlines (clean_text t)
          = filter (fun ln => nonempty ln = true) (map strip (splitlines t))) as ->.
  { unfold clean_text. apply splitlines_join.
    eapply Forall_impl; [done|]. by intros l (? & ? & _). }
  split; [done|]. eapply Forall_impl; [done|]. by intros l (? & _ & ?).
Qed.

Lemma visible_normalize_text (t : list N) : visible (normalize_text t) = visible t.
Proof.
  unfold normalize_text. rewrite sub_hspaces, sub_newlines3, visible_strip.
  assert (∀ n s, visible (squeeze_newlines n s) = visible s) as ->.
  { intros n s. revert n. induction s as [|c s IH]; intros n; [done|]. simpl.
    destruct (N.eqb_spec c Chars.LF) as [->|_].
    - rewrite (visible_cons Chars.LF s). change (isspace Chars.LF) with true.
      destruct (n <? 2)%nat; [|done].
      rewrite visible_cons. change (isspace Chars.LF) with true. apply IH.
    - by rewrite !visible_cons, IH. }
  assert (∀ b s, visible (squeeze_hspace b s) = visible s) as ->.
  { intros b s. revert b. induction s as [|c s IH]; intros b; [done|]. simpl.
    destruct (is_hspace_cases c) as [[-> Hc]|(-> & _ & _)].
    - assert (isspace c = true) as Hs by (by destruct Hc as [-> | ->]).
      rewrite (visible_cons c s), Hs.
      destruct b; [done|]. rewrite visible_cons. change (isspace Chars.SPACE) with true.
      apply IH.
    - by rewrite !visible_cons, IH. }
  unfold remove_cr. induction t as [|c t IH]; [done|].
  rewrite visible_cons. destruct (decide (c = Chars.CR)) as [->|Hc].
  - rewrite filter_cons_False by naive_solver. by change (isspace Chars.CR) with true.
  - rewrite filter_cons_True by done. rewrite visible_cons. by rewrite IH.
Qed.

(** X3. Cleaning and normalizing touch white space only: with the white
    space taken out, the cleaned text and the normalized text are the
    captured text, character for character. *)
Theorem visible_text_kept (t : list N) :
  visible (clean_text t) = visible t ∧ visible (normalize_text t) = visible t.
Proof. split; [apply visible_clean_text|apply visible_normalize_text]. Qed.

Lemma hspace_normal_no_TAB (b : bool) (s : list N) :
  hspace_normal b s → Chars.TAB ∉ s.
Proof.
  revert b. induction s as [|c s IH]; intros b; simpl.
  - intros _. apply not_elem_of_nil.
  - intros (Ht & _ & Hs). apply not_elem_of_cons. split; [done|by eapply IH].
Qed.

Lemma hspace_normal_no_pair (b : bool) (s : list N) :
  hspace_normal b s → ¬ infix [Chars.SPACE; Chars.SPACE] s.
Proof.
  revert b. induction s as [|c s IH]; intros b; simpl.
  - intros _ (l1 & l2 & H). by destruct l1.
  - intros (_ & _ & Hs) (l1 & l2 & H). destruct l1 as [|c1 l1].
    + injection H as -> ->. simpl in Hs. by destruct Hs as (_ & Hs & _); specialize (Hs eq_refl).
    + injection H as -> ->. apply (IH _ Hs). by exists l1, l2.
Qed.

Lemma newline_normal_no_triple (seen : nat) (s : list N) :
  newline_normal seen s → ¬ infix [Chars.LF; Chars.LF; Chars.LF] s.
Proof.
  revert seen. induction s as [|c s IH]; intros seen; simpl.
  - intros _ (l1 & l2 & H). by destruct l1.
  - intros Hs (l1 & l2 & H). destruct l1 as [|c1 l1].
    + injection H as -> ->. simpl in Hs. lia.
    + injection H as -> ->.
      destruct (c1 =? Chars.LF); [destruct Hs as [_ Hs]|];
        apply (IH _ Hs); by exists l1, l2.
Qed.

(** X4. The shape of a normalized text: it holds no carriage return and
    no tab, never two blanks in a row, never three newlines in a row,
    and neither end of it is white space. *)
Theorem normalize_text_shape (x : list N) :
  let y := normalize_text x in
  (Chars.CR ∉ y) ∧ (Chars.TAB ∉ y)
  ∧ ¬ infix [Chars.SPACE; Chars.SPACE] y
  ∧ ¬ infix [Chars.LF; Chars.LF; Chars.LF] y
  ∧ trimmed y.
Proof.
  intros y. subst y. unfold trimmed, normalize_text.
  rewrite !sub_hspaces, !sub_newlines3.
  set (y := squeeze_newlines 0 (squeeze_hspace false (remove_cr x))).
  assert (no_CR (strip y)) as Hcr
    by apply Forall_strip, no_CR_squeeze_newlines, no_CR_squeeze_hspace, remove_cr_no_CR.
  assert (hspace_normal false (strip y)) as Hh.
  { eapply hspace_normal_rstrip, hspace_normal_lstrip,
      hspace_normal_squeeze_newlines; [apply squeeze_hspace_normal|done]. }
  assert (newline_normal 0 (strip y)) as Hn
    by (eapply newline_normal_rstrip, newline_normal_lstrip, squeeze_newlines_normal).
  split_and!.
  - intros H. by apply (proj1 (Forall_forall _ _) Hcr) in H.
  - by eapply hspace_normal_no_TAB.
  - by eapply hspace_normal_no_pair.
  - by eapply newline_normal_no_triple.
  - apply strip_idem.
Qed.

(** ** The digest loop: history and reports *)

Lemma last_n_snoc {A : Type} (n : nat) (l : list A) (x : A) :
  last_n n (last_n n l ++ [x]) = last_n n (l ++ [x]).
Proof.
  unfold last_n. destruct (decide (length l ≤ n)%nat) as [Hle|Hgt].
  - replace (length l - n)%nat with 0%nat by lia. by rewrite drop_0.
  - destruct n as [|n].
    + by rewrite !Nat.sub_0_r, !drop_all.
    + rewrite !length_app, length_drop. simpl length.
      rewrite drop_app_le by (rewrite length_drop; lia).
      rewrite drop_drop, (drop_app_le l [x]) by lia.
      f_equal. f_equal. lia.
Qed.

Lemma deque_append_last_n (maxlen : Z) (R : list (list N)) (x : list N) :
  Analyzer.deque_append maxlen (last_n (Z.to_nat maxlen) R) x
  = last_n (Z.to_nat maxlen) (R ++ [x]).
Proof. apply (last_n_snoc (Z.to_nat maxlen) R x). Qed.

Lemma reported_app (ev1 ev2 : list event) :
  reported (ev1 ++ ev2) = reported ev1 ++ reported ev2.
Proof. apply omap_app. Qed.

Lemma sleeps_app (ev1 ev2 : list event) : sleeps (ev1 ++ ev2) = sleeps ev1 ++ sleeps ev2.
Proof. apply omap_app. Qed.

Lemma reports_ok_app (h : nat) (R : list (list N)) (ev1 ev2 : list event) :
  reports_ok h R ev1 → reports_ok h (R ++ reported ev1) ev2 →
  reports_ok h R (ev1 ++ ev2).
Proof.
  revert R. induction ev1 as [|ev ev1 IH]; intros R; simpl.
  - by rewrite app_nil_r.
  - destruct ev; simpl; try apply IH.
    intros [H1 H2] H3. split; [done|]. apply IH; [done|].
    by rewrite <- app_assoc.
Qed.

Lemma reports_ok_at (h : nat) (R : list (list N)) (pre post : list event)
    (a : Analysis) (snippet summary : list N) :
  reports_ok h R (pre ++ PrintAnalysis a snippet summary :: post) →
  report_ok h (R ++ reported pre) a snippet summary.
Proof.
  revert R. induction pre as [|ev pre IH]; intros R; simpl.
  - rewrite app_nil_r. by intros [? _].
  - destruct ev; simpl; try apply IH.
    intros [_ H]. apply IH in H. by rewrite <- app_assoc in H.
Qed.

Lemma sleep_then_reported {S : Type} (d : float) (events : list event) (st : S) :
  reported (sleep_then d events st).1 = reported events.
Proof.
  unfold sleep_then. destruct (time_sleep d); [done|].
  simpl. rewrite reported_app. simpl. apply app_nil_r.
Qed.

Lemma sleep_then_reports_ok {S : Type} (h : nat) (R : list (list N))
    (d : float) (events : list event) (st : S) :
  reports_ok h R events → reports_ok h R (sleep_then d events st).1.
Proof.
  intros H. unfold sleep_then. destruct (time_sleep d); [done|].
  simpl. by apply reports_ok_app.
Qed.

Lemma sleep_then_state {S : Type} (d : float) (events : list event) (st st' : S) :
  (sleep_then d events st).2 = Ok st' → st' = st.
Proof. unfold sleep_then. destruct (time_sleep d); [done|]. by intros [= ->]. Qed.

(** one iteration keeps the history and makes reports as described *)
Lemma analyzer_tick_reports (args : Analyzer.Args) (st : Analyzer.state)
    (captured : result (list N)) (R : list (list N)) :
  let h := Z.to_nat (Analyzer.history args) in
  history_of h R st →
  reports_ok h R (Analyzer.tick args st captured).1
  ∧ ∀ st', (Analyzer.tick args st captured).2 = Ok st' →
      history_of h (R ++ reported (Analyzer.tick args st captured).1) st'.
Proof.
  intros h [Hrecent Hprev]. unfold Analyzer.tick.
  destruct captured as [raw|e].
  - destruct (Analyzer.changed _ _) eqn:Hch.
    + apply andb_prop in Hch as [Hne Hdiff].
      apply bool_decide_eq_true in Hdiff.
      assert (clean_text raw ≠ []) as Hraw.
      { intros H. by rewrite H in Hne. }
      split.
      * apply sleep_then_reports_ok. simpl. split; [|done].
        split_and!; [done|apply clean_text_idem| |done|].
        -- intros Hlast. apply Hdiff. by rewrite Hprev, Hlast.
        -- by rewrite Hrecent, deque_append_last_n.
      * intros st' Hst'. rewrite sleep_then_reported.
        apply sleep_then_state in Hst' as ->. split; simpl.
        -- by rewrite Hrecent, deque_append_last_n.
        -- by rewrite last_snoc.
    + split; [by apply sleep_then_reports_ok|].
      intros st' Hst'. rewrite sleep_then_reported.
      apply sleep_then_state in Hst' as ->. simpl. by rewrite app_nil_r.
  - destruct (is_Exception e); [|done].
    split; [by apply sleep_then_reports_ok|].
    intros st' Hst'. rewrite sleep_then_reported.
    apply sleep_then_state in Hst' as ->. simpl. by rewrite app_nil_r.
Qed.

Lemma analyzer_loop_reports (args : Analyzer.Args) (inputs : list Analyzer.input)
    (st : Analyzer.state) (R : list (list N)) :
  let h := Z.to_nat (Analyzer.history args) in
  history_of h R st →
  reports_ok h R (Analyzer.loop args st inputs).1
  ∧ ∀ st', (Analyzer.loop args st inputs).2 = Running st' →
      history_of h (R ++ reported (Analyzer.loop args st inputs).1) st'.
Proof.
  intros h. revert st R. induction inputs as [|i rest IH]; intros st R Hst.
  - simpl. split; [done|]. intros st' [= ->]. by rewrite app_nil_r.
  - cbn [Analyzer.loop]. destruct (Analyzer.stop i); [by split|].
    destruct (analyzer_tick_reports args st (Analyzer.capture i) R Hst) as [Hok Hnext].
    destruct (Analyzer.tick args st (Analyzer.capture i)) as [events [st1|e]];
      simpl in *; [|by split].
    specialize (Hnext st1 eq_refl).
    destruct (IH st1 _ Hnext) as [Hok' Hnext'].
    destruct (Analyzer.loop args st1 rest) as [events' e']. simpl in *.
    split; [by apply reports_ok_app|].
    intros st' He'. rewrite reported_app, app_assoc. by apply Hnext'.
Qed.

(** how [main] comes to its end *)
Lemma analyzer_main_cases (args : Analyzer.Args) (inputs : list Analyzer.input) :
  (PrimFloat.ltb (Analyzer.interval args) 0.5 = true
   ∧ Analyzer.main args inputs
     = ([Stderr (text_of "Interval too small. Use >= 0.5 seconds.")], Exit 2%Z))
  ∨ (PrimFloat.ltb (Analyzer.interval args) 0.5 = false
     ∧ ∃ e, Analyzer.parse_region (Analyzer.region args) = Raise e
            ∧ Analyzer.main args inputs
              = ([Stderr (text_of "Invalid --region: " ++ exn_str e)], Exit 2%Z))
  ∨ (PrimFloat.ltb (Analyzer.interval args) 0.5 = false
     ∧ ∃ region, Analyzer.parse_region (Analyzer.region args) = Ok region
         ∧ (Analyzer.history args < 0 ∨ 2 ^ 63 ≤ Analyzer.history args)%Z
         ∧ ∃ e, Analyzer.main args inputs = (analyzer_banner region, Uncaught e)
                ∧ (e = ValueError (text_of "maxlen must be non-negative")
                   ∨ e = OverflowError
                           (text_of "Python int too large to convert to C ssize_t")))
  ∨ (PrimFloat.ltb (Analyzer.interval args) 0.5 = false
     ∧ ∃ region, Analyzer.parse_region (Analyzer.region args) = Ok region
         ∧ (0 ≤ Analyzer.history args < 2 ^ 63)%Z
         ∧ Analyzer.main args inputs
           = (analyzer_banner region
                ++ (Analyzer.loop args {| Analyzer.prev_digest := [];
                                          Analyzer.recent_text := [] |} inputs).1,
              (Analyzer.loop args {| Analyzer.prev_digest := [];
                                     Analyzer.recent_text := [] |} inputs).2)).
Proof.
  unfold Analyzer.main.
  destruct (PrimFloat.ltb (Analyzer.interval args) 0.5); [by left|right].
  destruct (Analyzer.parse_region (Analyzer.region args)) as [region|e].
  - right.
    destruct (Z.ltb_spec (Analyzer.history args) (-9223372036854775808)),
      (Z.ltb_spec 9223372036854775807 (Analyzer.history args)); cbn [orb];
      try (left; split; [done|]; exists region; split_and!; [done|lia|];
           eexists; split; [done|by right]).
    destruct (Z.ltb_spec (Analyzer.history args) 0).
    + left. split; [done|]. exists region. split_and!; [done|lia|].
      eexists. split; [done|by left].
    + right. split; [done|]. exists region. split_and!; [done|lia..|].
      by destruct (Analyzer.loop _ _ _).
  - left. split; [done|]. by exists e.
Qed.

Lemma analyzer_banner_reported (region : option Analyzer.Region) :
  reported (analyzer_banner region) = [].
Proof. by destruct region. Qed.

Lemma reports_ok_banner (h : nat) (region : option Analyzer.Region) (events : list event) :
  reports_ok h [] events → reports_ok h [] (analyzer_banner region ++ events).
Proof. by destruct region. Qed.

(** the reports of a whole run *)
Lemma analyzer_main_reports (args : Analyzer.Args) (inputs : list Analyzer.input) :
  let h := Z.to_nat (Analyzer.history args) in
  reports_ok h [] (Analyzer.main args inputs).1
  ∧ ∀ st, (Analyzer.main args inputs).2 = Running st →
      history_of h (reported (Analyzer.main args inputs).1) st.
Proof.
  intros h.
  destruct (analyzer_main_cases args inputs)
    as [[_ ->]|[(_ & e & _ & ->)|[(_ & region & _ & _ & e & -> & _)
                                  |(_ & region & _ & _ & ->)]]];
    cbn [fst snd].
  - by split.
  - by split.
  - split; [|done]. by destruct region.
  - destruct (analyzer_loop_reports args inputs
                {| Analyzer.prev_digest := []; Analyzer.recent_text := [] |} [])
      as [Hok Hst]; [done|].
    split; [by apply reports_ok_banner|].
    intros st Hrun. rewrite reported_app, analyzer_banner_reported. by apply Hst.
Qed.

(** X5. When a run of the digest program is still going, its history
    holds the texts of the last [--history] reports it has made, oldest
    first, and its digest is that of the text reported last (the empty
    digest before the first report). *)
Theorem analyzer_history (args : Analyzer.Args) (inputs : list Analyzer.input)
    (events : list event) (st : Analyzer.state) :
  Analyzer.main args inputs = (events, Running st) →
  Analyzer.recent_text st
  = last_n (Z.to_nat (Analyzer.history args)) (reported events)
  ∧ Analyzer.prev_digest st = digest_of (default [] (last (reported events))).
Proof.
  intros Hmain. destruct (analyzer_main_reports args inputs) as [_ H].
  rewrite Hmain in H. by apply H.
Qed.

Lemma analyzer_history_witness :
  let run := Analyzer.main short_history three_captures in
  ∃ st, run.2 = Running st
        ∧ Analyzer.recent_text st = [text_of "world"]
        ∧ Analyzer.prev_digest st = digest_of (text_of "world").
Proof.
  intros run.
  set (st := {| Analyzer.prev_digest := digest_of (text_of "world");
                Analyzer.recent_text := [text_of "world"] |}).
  assert (Analyzer.main short_history three_captures = (run.1, Running st)) as Hrun
    by (vm_compute; reflexivity).
  exists st. split; [subst run; by rewrite Hrun|].
  destruct (analyzer_history _ _ _ _ Hrun) as [H1 H2]. split; [done|done].
Defined.

(** X6. The digest program never reports a blank text and never reports
    the same text twice in a row: the text of every report is not empty,
    is a cleaned text, and differs from the text of the report before
    it, whatever happened in between (blank captures, failed captures). *)
Theorem analyzer_reports_differ (args : Analyzer.Args) (inputs : list Analyzer.input)
    (events : list event) (e : ending Analyzer.state)
    (pre post : list event) (a : Analysis) (snippet summary : list N) :
  Analyzer.main args inputs = (events, e) →
  events = pre ++ PrintAnalysis a snippet summary :: post →
  snippet ≠ [] ∧ clean_text snippet = snippet ∧ last (reported pre) ≠ Some snippet.
Proof.
  intros Hmain ->. destruct (analyzer_main_reports args inputs) as [H _].
  rewrite Hmain in H. apply reports_ok_at in H as (? & ? & ? & _). done.
Qed.

Lemma analyzer_reports_differ_witness :
  let hello := text_of "hello" in
  let world := text_of "world" in
  world ≠ [] ∧ clean_text world = world
  ∧ last (reported
            [Stdout (text_of "Starting live screen OCR. Press Ctrl+C to stop.");
             PrintAnalysis (analyze_text hello) hello (summarize_recent [hello]);
             Slept 2; Slept 2]) ≠ Some world.
Proof.
  intros hello world.
  apply (analyzer_reports_differ short_history three_captures
           (Analyzer.main short_history three_captures).1
           (Analyzer.main short_history three_captures).2
           _ [Slept 2] (analyze_text world) world (summarize_recent [world])).
  - by destruct (Analyzer.main short_history three_captures).
  - vm_compute. reflexivity.
Defined.

(** X7. What a report of the digest program holds: the analysis is
    [analyze_text] of the reported text, and the summary is
    [summarize_recent] of the last [--history] reported texts, the
    current one included. *)
Theorem analyzer_report_content (args : Analyzer.Args) (inputs : list Analyzer.input)
    (events : list event) (e : ending Analyzer.state)
    (pre post : list event) (a : Analysis) (snippet summary : list N) :
  Analyzer.main args inputs = (events, e) →
  events = pre ++ PrintAnalysis a snippet summary :: post →
  a = analyze_text snippet
  ∧ summary = summarize_recent
                (last_n (Z.to_nat (Analyzer.history args)) (reported pre ++ [snippet])).
Proof.
  intros Hmain ->. destruct (analyzer_main_reports args inputs) as [H _].
  rewrite Hmain in H. apply reports_ok_at in H as (_ & _ & _ & ? & ?). done.
Qed.

Lemma analyzer_report_content_witness :
  let hello := text_of "hello" in
  let world := text_of "world" in
  analyze_text world = analyze_text world
  ∧ summarize_recent [world]
    = summarize_recent
        (last_n (Z.to_nat (Analyzer.history short_history))
           (reported
              [Stdout (text_of "Starting live screen OCR. Press Ctrl+C to stop.");
               PrintAnalysis (analyze_text hello) hello (summarize_recent [hello]);
               Slept 2; Slept 2] ++ [world])).
Proof.
  intros hello world.
  apply (analyzer_report_content short_history three_captures
           (Analyzer.main short_history three_captures).1
           (Analyzer.main short_history three_captures).2
           _ [Slept 2] (analyze_text world) world (summarize_recent [world])).
  - by destruct (Analyzer.main short_history three_captures).
  - vm_compute. reflexivity.
Defined.

(** X8. With [--history 0] the history stays empty, so every report of
    the digest program carries the summary "No text captured yet.",
    also right after a text was captured and reported. *)
Theorem analyzer_history_zero (args : Analyzer.Args) (inputs : list Analyzer.input)
    (events : list event) (e : ending Analyzer.state)
    (a : Analysis) (snippet summary : list N) :
  Analyzer.history args = 0%Z →
  Analyzer.main args inputs = (events, e) →
  PrintAnalysis a snippet summary ∈ events →
  summary = text_of "No text captured yet.".
Proof.
  intros Hzero Hmain Hin.
  apply list_elem_of_split in Hin as (pre & post & ->).
  destruct (analyzer_main_reports args inputs) as [H _].
  rewrite Hmain in H. apply reports_ok_at in H as (_ & _ & _ & _ & ->).
  rewrite Hzero. unfold last_n. simpl. rewrite Nat.sub_0_r.
  by rewrite drop_all.
Qed.

Lemma analyzer_history_zero_witness :
  summarize_recent [] = text_of "No text captured yet.".
Proof.
  apply (analyzer_history_zero no_history three_captures
           (Analyzer.main no_history three_captures).1
           (Analyzer.main no_history three_captures).2
           (analyze_text (text_of "world")) (text_of "world")).
  - reflexivity.
  - by destruct (Analyzer.main no_history three_captures).
  - vm_compute. repeat constructor.
Defined.

(** ** The digest loop: sleeping, failures and the ways out *)

Lemma is_nan_spec (x : float) : PrimFloat.is_nan x = true → Prim2SF x = SpecFloat.S754_nan.
Proof.
  unfold PrimFloat.is_nan. rewrite FloatAxioms.eqb_spec. unfold SpecFloat.SFeqb.
  destruct (Prim2SF x) as [s|s| |s m e]; simpl; try done; try (by destruct s).
  rewrite Z.compare_refl, Pos.compare_cont_refl. by destruct s.
Qed.

(** a NaN is below nothing and nothing is below it *)
Lemma is_nan_ltb (x y : float) :
  PrimFloat.is_nan x = true → PrimFloat.ltb x y = false ∧ PrimFloat.ltb y x = false.
Proof.
  intros H%is_nan_spec. rewrite !ltb_spec. unfold SpecFloat.SFltb. rewrite H.
  split; [done|]. by destruct (Prim2SF y) as [s|s| |s m e].
Qed.

Lemma time_sleep_not_nan (d : float) : time_sleep d = None → PrimFloat.is_nan d = false.
Proof. unfold time_sleep. by destruct (PrimFloat.is_nan d). Qed.

Lemma time_sleep_nan (d : float) :
  PrimFloat.is_nan d = true →
  time_sleep d = Some (ValueError (text_of "Invalid value NaN (not a number)")).
Proof. unfold time_sleep. by intros ->. Qed.

(** a duration at or above the floor of 0.5 seconds *)
Lemma at_least_half (d : float) :
  PrimFloat.ltb d 0.5 = false → time_sleep d = None → PrimFloat.leb 0.5 d = true.
Proof.
  intros Hlt Hs. apply leb_total; [by apply time_sleep_not_nan|done|done].
Qed.


Lemma analyzer_pause_floor (args : Analyzer.Args) (d : float) :
  PrimFloat.ltb (Analyzer.interval args) 0.5 = false →
  analyzer_pause args d → time_sleep d = None → PrimFloat.leb 0.5 d = true.
Proof.
  intros Hlt [-> | ->] Hs; [by apply at_least_half|].
  unfold py_max in *. destruct (PrimFloat.ltb (Analyzer.interval args) 2); [done|].
  by apply at_least_half.
Qed.

Lemma sleep_then_sleeps {S : Type} (d : float) (events : list event) (st : S) :
  sleeps events = [] →
  (time_sleep d = None ∧ sleeps (sleep_then d events st).1 = [d]
   ∧ (sleep_then d events st).2 = Ok st)
  ∨ (∃ e, time_sleep d = Some e ∧ sleeps (sleep_then d events st).1 = []
          ∧ (sleep_then d events st).2 = Raise e).
Proof.
  intros H. unfold sleep_then. destruct (time_sleep d) as [e|].
  - right. by exists e.
  - left. split; [done|]. simpl. by rewrite sleeps_app, H.
Qed.

(** One iteration of the digest loop: it sleeps once, for the interval
    or the backoff, and goes on; or the sleep raises; or the capture
    raised what [except Exception] does not catch. *)
Lemma analyzer_tick_sleeps (args : Analyzer.Args) (st : Analyzer.state)
    (captured : result (list N)) :
  (∃ d st', analyzer_pause args d ∧ time_sleep d = None
            ∧ sleeps (Analyzer.tick args st captured).1 = [d]
            ∧ (Analyzer.tick args st captured).2 = Ok st')
  ∨ (∃ d e, analyzer_pause args d ∧ time_sleep d = Some e
            ∧ sleeps (Analyzer.tick args st captured).1 = []
            ∧ (Analyzer.tick args st captured).2 = Raise e)
  ∨ (∃ e, captured = Raise e ∧ is_Exception e = false
          ∧ Analyzer.tick args st captured = ([], Raise e)).
Proof.
  unfold Analyzer.tick. destruct captured as [raw|e].
  - destruct (Analyzer.changed _ _).
    + edestruct (sleep_then_sleeps (S := Analyzer.state) (Analyzer.interval args))
        as [(H1 & H2 & H3)|(e & H1 & H2 & H3)];
        [|left; eexists _, _; split; [by left|by split_and!]
         |right; left; eexists _, _; split; [by left|by split_and!]].
      done.
    + edestruct (sleep_then_sleeps (S := Analyzer.state) (Analyzer.interval args))
        as [(H1 & H2 & H3)|(e & H1 & H2 & H3)];
        [|left; eexists _, _; split; [by left|by split_and!]
         |right; left; eexists _, _; split; [by left|by split_and!]].
      done.
  - destruct (is_Exception e) eqn:He.
    + edestruct (sleep_then_sleeps (S := Analyzer.state)
                   (py_max (Analyzer.interval args) 2))
        as [(H1 & H2 & H3)|(e' & H1 & H2 & H3)];
        [|left; eexists _, _; split; [by right|by split_and!]
         |right; left; eexists _, _; split; [by right|by split_and!]].
      done.
    + right. right. by exists e.
Qed.

(** the sleeps of the loop, and how it can end *)
Lemma analyzer_loop_sleeps (args : Analyzer.Args) (inputs : list Analyzer.input)
    (st : Analyzer.state) :
  let run := Analyzer.loop args st inputs in
  Forall (fun d => analyzer_pause args d ∧ time_sleep d = None) (sleeps run.1)
  ∧ match run.2 with
    | Running _ => length (sleeps run.1) = length inputs
    | Exit status =>
        status = 0%Z ∧ last run.1 = Some stopped
        ∧ ∃ i, i ∈ inputs ∧ Analyzer.stop i = true
    | Uncaught e =>
        (∃ d, analyzer_pause args d ∧ time_sleep d = Some e)
        ∨ (is_Exception e = false ∧ ∃ i, i ∈ inputs ∧ Analyzer.capture i = Raise e)
    end.
Proof.
  revert st. induction inputs as [|i rest IH]; intros st; [by split|].
  cbn [Analyzer.loop]. destruct (Analyzer.stop i) eqn:Hstop.
  { simpl. split; [constructor|]. split_and!; [done..|].
    exists i. split; [left|done]. }
  destruct (analyzer_tick_sleeps args st (Analyzer.capture i))
    as [(d & st' & Hd & Hs & Hev & Hst)|[(d & e & Hd & Hs & Hev & Hst)|(e & Hc & He & Ht)]].
  - destruct (Analyzer.tick args st (Analyzer.capture i)) as [events r].
    simpl in Hev, Hst. subst r.
    specialize (IH st'). destruct (Analyzer.loop args st' rest) as [events' e'].
    simpl in *. destruct IH as [IH1 IH2]. rewrite sleeps_app, Hev. split.
    + by constructor.
    + destruct e' as [status|e'|st''].
      * destruct IH2 as (-> & Hlast & i' & Hi' & Hstop').
        split_and!; [done| |exists i'; split; [by right|done]].
        rewrite last_app, Hlast. done.
      * destruct IH2 as [IH2|(He' & i' & Hi' & Hc')]; [by left|right].
        split; [done|]. exists i'. split; [by right|done].
      * simpl. by rewrite IH2.
  - destruct (Analyzer.tick args st (Analyzer.capture i)) as [events r].
    simpl in Hev, Hst. subst r. simpl. rewrite Hev. split; [constructor|].
    left. by exists d.
  - rewrite Ht. simpl. split; [constructor|]. right. split; [done|].
    exists i. split; [left|done].
Qed.

Lemma analyzer_banner_sleeps (region : option Analyzer.Region) :
  sleeps (analyzer_banner region) = [].
Proof. by destruct region. Qed.

Lemma analyzer_banner_last (region : option Analyzer.Region) (events : list event) (e : event) :
  last events = Some e → last (analyzer_banner region ++ events) = Some e.
Proof. intros H. by rewrite last_app, H. Qed.

(** X9. The digest program never captures twice without sleeping in
    between, and never sleeps less than half a second: every sleep of a
    run lasts the interval or the backoff [max(interval, 2.0)], each at
    least 0.5 seconds, and a run that is still going has slept once for
    every iteration it made. *)
Theorem analyzer_sleeps (args : Analyzer.Args) (inputs : list Analyzer.input)
    (events : list event) (e : ending Analyzer.state) :
  Analyzer.main args inputs = (events, e) →
  Forall (fun d => analyzer_pause args d ∧ PrimFloat.leb 0.5 d = true) (sleeps events)
  ∧ (∀ st, e = Running st → length (sleeps events) = length inputs).
Proof.
  intros Hmain.
  destruct (analyzer_main_cases args inputs)
    as [[_ H]|[(_ & ex & _ & H)|[(_ & region & _ & _ & ex & H & _)
                                 |(Hlt & region & _ & _ & H)]]];
    rewrite H in Hmain; apply pair_equal_spec in Hmain as [<- <-].
  - split; [constructor|done].
  - split; [constructor|done].
  - rewrite analyzer_banner_sleeps. split; [constructor|done].
  - pose proof (analyzer_loop_sleeps args inputs
                  {| Analyzer.prev_digest := []; Analyzer.recent_text := [] |}) as [H1 H2].
    rewrite sleeps_app, analyzer_banner_sleeps. simpl app. split.
    + eapply Forall_impl; [exact H1|]. intros d [Hd Hs]. split; [done|].
      by eapply analyzer_pause_floor.
    + intros st Hst. by rewrite Hst in H2.
Qed.

Lemma analyzer_sleeps_witness :
  let run := Analyzer.main short_history three_captures in
  sleeps run.1 = [2%float; 2%float; 2%float]
  ∧ Forall (fun d => analyzer_pause short_history d ∧ PrimFloat.leb 0.5 d = true)
      (sleeps run.1).
Proof.
  intros run. split; [vm_compute; reflexivity|].
  refine (proj1 (analyzer_sleeps short_history three_captures run.1 run.2 _)).
  subst run. by destruct (Analyzer.main short_history three_captures).
Defined.



(** X11. The exit statuses of the digest program.  Status 2 is the
    start-up refusal: the interval is below 0.5 or the region was not
    accepted, one line went to the error stream and nothing else
    happened.  Status 0 is the stop request: start-up was passed, an
    iteration found the stop flag set, and the last line printed is
    "Stopped.".  There is no other status. *)
Theorem analyzer_exit_status (args : Analyzer.Args) (inputs : list Analyzer.input)
    (events : list event) (status : Z) :
  Analyzer.main args inputs = (events, Exit status) →
  (status = 2%Z
   ∧ (PrimFloat.ltb (Analyzer.interval args) 0.5 = true
      ∨ ∃ e, Analyzer.parse_region (Analyzer.region args) = Raise e)
   ∧ ∃ line, events = [Stderr line])
  ∨ (status = 0%Z
     ∧ PrimFloat.ltb (Analyzer.interval args) 0.5 = false
     ∧ (∃ region, Analyzer.parse_region (Analyzer.region args) = Ok region)
     ∧ (∃ i, i ∈ inputs ∧ Analyzer.stop i = true)
     ∧ last events = Some stopped).
Proof.
  intros Hmain.
  destruct (analyzer_main_cases args inputs)
    as [[Hlt H]|[(_ & ex & Hr & H)|[(_ & region & _ & _ & ex & H & _)
                                    |(Hlt & region & Hr & _ & H)]]];
    rewrite H in Hmain; try done.
  - apply pair_equal_spec in Hmain as [<- [= <-]]. left. split_and!; [done|by left|by eexists].
  - apply pair_equal_spec in Hmain as [<- [= <-]]. left. split_and!; [done|right; by exists ex|by eexists].
  - apply pair_equal_spec in Hmain as [<- Hend].
    pose proof (analyzer_loop_sleeps args inputs
                  {| Analyzer.prev_digest := []; Analyzer.recent_text := [] |}) as [_ H2].
    rewrite Hend in H2. destruct H2 as (-> & Hlast & Hi).
    right. split_and!; [done|done|by exists region|done|].
    by apply analyzer_banner_last.
Qed.

Lemma analyzer_exit_status_witness :
  ∃ events, Analyzer.main short_history stop_after_one = (events, Exit 0%Z)
            ∧ last events = Some stopped.
Proof.
  exists (Analyzer.main short_history stop_after_one).1.
  assert (Analyzer.main short_history stop_after_one
          = ((Analyzer.main short_history stop_after_one).1, Exit 0%Z)) as Hmain
    by (vm_compute; reflexivity).
  split; [exact Hmain|].
  destruct (analyzer_exit_status _ _ _ _ Hmain) as [(H & _)|(_ & _ & _ & _ & H)];
    [discriminate H|exact H].
Defined.

Lemma py_int_raises (v : list N) (e : exn) :
  py_int v = Raise e → ∃ msg, e = ValueError msg.
Proof.
  unfold py_int. destruct (match strip v with [] => None | _ => _ end); [done|].
  intros [= <-]. by eexists.
Qed.

(** X12. What [parse_region] answers.  No region is selected exactly
    when the option is missing or empty.  A region that is accepted is
    a box with x1 < x2 and y1 < y2, whose four numbers are what [int]
    reads in the four comma-separated parts of the option, trimmed.
    Whatever is refused is refused with a [ValueError], the one
    exception [main] expects. *)
Theorem parse_region_spec (region : option (list N)) :
  (Analyzer.parse_region region = Ok None ↔ region = None ∨ region = Some [])
  ∧ (∀ x1 y1 x2 y2,
       Analyzer.parse_region region = Ok (Some (x1, y1, x2, y2)) →
       (x1 < x2)%Z ∧ (y1 < y2)%Z
       ∧ ∃ text, region = Some text
           ∧ map py_int (map strip (split_on (chr ",") text))
             = [Ok x1; Ok y1; Ok x2; Ok y2])
  ∧ (∀ e, Analyzer.parse_region region = Raise e → ∃ msg, e = ValueError msg).
Proof.
  destruct region as [[|c text]|].
  { split_and!; [split; [by right|done]|done|done]. }
  2: { split_and!; [split; [by left|done]|done|done]. }
  unfold Analyzer.parse_region.
  destruct (map strip (split_on (chr ",") (c :: text)))
    as [|p1 [|p2 [|p3 [|p4 [|p5 ps]]]]] eqn:Hparts;
    try (split_and!; [split; [done|by intros [|]]|done|intros e [= <-]; by eexists]).
  destruct (py_int p1) as [x1'|e1] eqn:H1;
    [|split_and!; [split; [done|by intros [|]]|done|intros e [= <-]; by eapply py_int_raises]].
  destruct (py_int p2) as [y1'|e2] eqn:H2;
    [|split_and!; [split; [done|by intros [|]]|done|intros e [= <-]; by eapply py_int_raises]].
  destruct (py_int p3) as [x2'|e3] eqn:H3;
    [|split_and!; [split; [done|by intros [|]]|done|intros e [= <-]; by eapply py_int_raises]].
  destruct (py_int p4) as [y2'|e4] eqn:H4;
    [|split_and!; [split; [done|by intros [|]]|done|intros e [= <-]; by eapply py_int_raises]].
  destruct (Z.ltb_spec x1' x2'), (Z.ltb_spec y1' y2'); simpl;
    try (split_and!; [split; [done|by intros [|]]|done|intros e [= <-]; by eexists]).
  split_and!; [split; [done|by intros [|]]| |done].
  intros x1 y1 x2 y2 [= <- <- <- <-]. split_and!; [done..|].
  exists (c :: text). split; [done|]. rewrite Hparts. cbn [map]. by rewrite H1, H2, H3, H4.
Qed.

(** X13. A NaN interval passes the start-up check of the digest program
    (it is not below 0.5), and the program dies at the first sleep: with
    a region and a history size that are accepted (the size not
    negative and below [2^63]), the first iteration, whether its
    capture gives a text (of ASCII characters) or fails, ends in the
    [ValueError] of [time.sleep], before any sleep was made. *)
Theorem analyzer_nan_interval (args : Analyzer.Args)
    (i : Analyzer.input) (rest : list Analyzer.input) :
  PrimFloat.is_nan (Analyzer.interval args) = true →
  (∃ region, Analyzer.parse_region (Analyzer.region args) = Ok region) →
  (0 ≤ Analyzer.history args < 2 ^ 63)%Z →
  Analyzer.stop i = false →
  (∀ e, Analyzer.capture i = Raise e → is_Exception e = true) →
  (∀ raw, Analyzer.capture i = Ok raw → isascii raw) →
  (Analyzer.main args (i :: rest)).2
  = Uncaught (ValueError (text_of "Invalid value NaN (not a number)"))
  ∧ sleeps (Analyzer.main args (i :: rest)).1 = [].
Proof.
  intros Hnan [region Hr] Hh Hstop Hcap _.
  destruct (analyzer_main_cases args (i :: rest))
    as [[Hlt _]|[(_ & ex & Hr' & _)|[(_ & ? & _ & ? & _)|(_ & region' & Hr' & _ & ->)]]].
  - by rewrite (proj1 (is_nan_ltb _ 0.5 Hnan)) in Hlt.
  - by rewrite Hr in Hr'.
  - lia.
  - cbn [fst snd Analyzer.loop]. rewrite Hstop.
    assert (py_max (Analyzer.interval args) 2 = Analyzer.interval args) as Hmax
      by (unfold py_max; by rewrite (proj1 (is_nan_ltb _ 2 Hnan))).
    destruct (analyzer_tick_sleeps args
                {| Analyzer.prev_digest := []; Analyzer.recent_text := [] |}
                (Analyzer.capture i))
      as [(d & st' & Hd & Hs & _)|[(d & e & Hd & Hs & Hev & Hst)|(e & Hc & He & _)]].
    + destruct Hd as [-> | ->]; [|rewrite Hmax in Hs]; by rewrite time_sleep_nan in Hs.
    + assert (e = ValueError (text_of "Invalid value NaN (not a number)")) as ->.
      { destruct Hd as [-> | ->]; [|rewrite Hmax in Hs];
          rewrite time_sleep_nan in Hs by done; by injection Hs. }
      destruct (Analyzer.tick _ _ _) as [events r]. cbn [fst snd] in *. subst r.
      cbn [fst snd]. split; [done|]. by rewrite sleeps_app, analyzer_banner_sleeps, Hev.
    + apply Hcap in Hc. by rewrite Hc in He.
Qed.

Lemma analyzer_nan_interval_witness :
  (Analyzer.main nan_interval three_captures).2
  = Uncaught (ValueError (text_of "Invalid value NaN (not a number)"))
  ∧ sleeps (Analyzer.main nan_interval three_captures).1 = [].
Proof.
  apply (analyzer_nan_interval nan_interval).
  - reflexivity.
  - by exists None.
  - done.
  - reflexivity.
  - intros e. discriminate.
  - intros raw [= <-]. by repeat constructor.
Defined.

(** ** The matching blocks tile the two texts *)

Section Tiling.
Local Open Scope Z_scope.

Lemma within_widen (w w' : Z * Z * Z * Z) (mt : Difflib.Match) :
  (let '(alo, ahi, blo, bhi) := w in
   let '(alo', ahi', blo', bhi') := w' in
   alo' ≤ alo ∧ ahi ≤ ahi' ∧ blo' ≤ blo ∧ bhi ≤ bhi') →
  within w mt → within w' mt.
Proof.
  destruct w as [[[alo ahi] blo] bhi], w' as [[[alo' ahi'] blo'] bhi'],
    mt as [[i j] k]. simpl. lia.
Qed.

Lemma chain_in_nil (w : Z * Z * Z * Z) : chain_in w [].
Proof. split; constructor. Qed.

(** a chain left of a block, the block, a chain right of it *)
Lemma chain_in_join (alo ahi blo bhi i j k : Z) (cl cr : list Difflib.Match) :
  alo ≤ i → blo ≤ j → 0 < k → i + k ≤ ahi → j + k ≤ bhi →
  chain_in (alo, i, blo, j) cl → chain_in (i + k, ahi, j + k, bhi) cr →
  chain_in (alo, ahi, blo, bhi) (cl ++ (i, j, k) :: cr).
Proof.
  intros ? ? ? ? ? [Hsl Hwl] [Hsr Hwr]. split.
  - apply StronglySorted_app_2; [|done|].
    + intros x y Hx Hy.
      apply (proj1 (Forall_forall _ _) Hwl) in Hx.
      destruct x as [[i1 j1] k1]. simpl in Hx.
      apply elem_of_cons in Hy as [->|Hy]; [simpl; lia|].
      apply (proj1 (Forall_forall _ _) Hwr) in Hy.
      destruct y as [[i2 j2] k2]. simpl in *. lia.
    + apply SSorted_cons; [done|].
      eapply Forall_impl; [exact Hwr|]. intros [[i2 j2] k2]. simpl. lia.
  - apply Forall_app. split; [|apply Forall_cons; split].
    + eapply Forall_impl; [exact Hwl|]. intros mt. apply within_widen. lia.
    + simpl. lia.
    + eapply Forall_impl; [exact Hwr|]. intros mt. apply within_widen. lia.
Qed.

(** The loop of [get_matching_blocks]: what it adds to the blocks it
    started with is, window by window, a chain of blocks. *)
Lemma blocks_loop_chains (a b : list N) (b2j : gmap N (list Z)) (fuel : nat)
    (queue : list (Z * Z * Z * Z)) (acc res : list Difflib.Match) :
  Forall window_ok queue →
  Difflib.blocks_loop a b b2j fuel queue acc = Some res →
  ∃ chains, Forall2 chain_in queue chains ∧ res ≡ₚ acc ++ concat chains.
Proof.
  revert queue acc. induction fuel as [|fuel IH]; intros queue acc Hq Hres.
  { destruct queue as [|[[[alo ahi] blo] bhi] queue]; [|done].
    injection Hres as <-. exists []. split; [constructor|]. by rewrite app_nil_r. }
  destruct queue as [|[[[alo ahi] blo] bhi] queue].
  { injection Hres as <-. exists []. split; [constructor|]. by rewrite app_nil_r. }
  apply Forall_cons in Hq as [[Ha Hb] Hq].
  cbn [Difflib.blocks_loop] in Hres.
  pose proof (find_longest_match_bounds a b b2j alo ahi blo bhi Ha Hb) as Hok.
  destruct (Difflib.find_longest_match a b b2j alo ahi blo bhi) as [[i j] k].
  simpl in Hok. destruct Hok as (Hi & Hj & Hk & Hik & Hjk).
  destruct (Z.eqb_spec k 0) as [Hk0|Hk0].
  { subst k. apply IH in Hres as (chains & Hch & Hperm); [|done].
    exists ([] :: chains). split; [|done].
    constructor; [apply chain_in_nil|done]. }
  assert (0 < k) as Hkpos by lia.
  destruct ((alo <? i) && (blo <? j)) eqn:Hleft,
           ((i + k <? ahi) && (j + k <? bhi)) eqn:Hright.
  - apply IH in Hres as (chains & Hch & Hperm).
    2: { repeat (apply Forall_cons; split); [simpl; lia..|done]. }
    apply Forall2_cons_inv_l in Hch as (cr & chains1 & Hcr & Hch & ->).
    apply Forall2_cons_inv_l in Hch as (cl & chains2 & Hcl & Hch & ->).
    exists ((cl ++ (i, j, k) :: cr) :: chains2). split.
    + constructor; [by apply chain_in_join|done].
    + rewrite Hperm. cbn [concat]. solve_Permutation.
  - apply IH in Hres as (chains & Hch & Hperm).
    2: { repeat (apply Forall_cons; split); [simpl; lia..|done]. }
    apply Forall2_cons_inv_l in Hch as (cl & chains2 & Hcl & Hch & ->).
    exists ((cl ++ (i, j, k) :: []) :: chains2). split.
    + constructor; [|done]. apply chain_in_join; try done. apply chain_in_nil.
    + rewrite Hperm. cbn [concat]. solve_Permutation.
  - apply IH in Hres as (chains & Hch & Hperm).
    2: { repeat (apply Forall_cons; split); [simpl; lia..|done]. }
    apply Forall2_cons_inv_l in Hch as (cr & chains1 & Hcr & Hch & ->).
    exists (([] ++ (i, j, k) :: cr) :: chains1). split.
    + constructor; [|done]. apply chain_in_join; try done. apply chain_in_nil.
    + rewrite Hperm. cbn [concat]. solve_Permutation.
  - apply IH in Hres as (chains & Hch & Hperm); [|done].
    exists (([] ++ (i, j, k) :: []) :: chains). split.
    + constructor; [|done]. apply chain_in_join; try done; apply chain_in_nil.
    + rewrite Hperm. cbn [concat]. solve_Permutation.
Qed.

(** *** Sorting the blocks *)

Lemma match_ltb_spec (x y : Difflib.Match) :
  Difflib.match_ltb x y = true ↔
  x.1.1 < y.1.1
  ∨ (x.1.1 = y.1.1 ∧ (x.1.2 < y.1.2 ∨ (x.1.2 = y.1.2 ∧ x.2 < y.2))).
Proof.
  destruct x as [[i1 j1] k1], y as [[i2 j2] k2]. simpl.
  rewrite !orb_true_iff, !andb_true_iff, !orb_true_iff, !andb_true_iff,
    !Z.ltb_lt, !Z.eqb_eq. done.
Qed.

Lemma lex_le_spec (x y : Difflib.Match) :
  lex_le x y ↔
  x.1.1 < y.1.1
  ∨ (x.1.1 = y.1.1 ∧ (x.1.2 < y.1.2 ∨ (x.1.2 = y.1.2 ∧ x.2 ≤ y.2))).
Proof.
  unfold lex_le. rewrite <- not_true_iff_false, match_ltb_spec. lia.
Qed.

Lemma lex_le_antisymm : AntiSymm eq lex_le.
Proof.
  intros [[i1 j1] k1] [[i2 j2] k2]. rewrite !lex_le_spec. simpl.
  intros H1 H2. repeat f_equal; lia.
Qed.

Lemma lex_le_trans (x y z : Difflib.Match) : lex_le x y → lex_le y z → lex_le x z.
Proof. rewrite !lex_le_spec. lia. Qed.

Lemma before_lex_le (x y : Difflib.Match) : before x y → lex_le x y.
Proof.
  destruct x as [[i1 j1] k1], y as [[i2 j2] k2]. rewrite lex_le_spec. simpl. lia.
Qed.

Lemma insert_match_perm (x : Difflib.Match) (l : list Difflib.Match) :
  Difflib.insert_match x l ≡ₚ x :: l.
Proof.
  induction l as [|y l IH]; [done|]. simpl.
  destruct (Difflib.match_ltb y x); [|done].
  rewrite IH. apply perm_swap.
Qed.

Lemma insert_match_sorted (x : Difflib.Match) (l : list Difflib.Match) :
  StronglySorted lex_le l → StronglySorted lex_le (Difflib.insert_match x l).
Proof.
  induction 1 as [|y l Hl IH Hy]; simpl; [repeat constructor|].
  destruct (Difflib.match_ltb y x) eqn:Hyx.
  - apply SSorted_cons; [done|].
    rewrite insert_match_perm. apply Forall_cons. split; [|done].
    apply lex_le_spec. apply match_ltb_spec in Hyx. lia.
  - apply SSorted_cons; [by apply SSorted_cons|].
    apply Forall_cons. split; [done|].
    eapply Forall_impl; [exact Hy|]. intros z. by apply lex_le_trans.
Qed.

Lemma sort_matches_spec (l : list Difflib.Match) :
  Difflib.sort_matches l ≡ₚ l ∧ StronglySorted lex_le (Difflib.sort_matches l).
Proof.
  unfold Difflib.sort_matches.
  assert (∀ acc, StronglySorted lex_le acc →
            fold_left (fun acc x => Difflib.insert_match x acc) l acc ≡ₚ acc ++ l
            ∧ StronglySorted lex_le
                (fold_left (fun acc x => Difflib.insert_match x acc) l acc)) as H.
  { induction l as [|x l IH]; intros acc Hacc; simpl.
    - by rewrite app_nil_r.
    - destruct (IH (Difflib.insert_match x acc)) as [H1 H2];
        [by apply insert_match_sorted|].
      split; [|done]. rewrite H1, insert_match_perm.
      by rewrite <- Permutation_middle. }
  apply (H []). constructor.
Qed.

(** sorting a chain, in whatever order its blocks come, gives the chain *)
Lemma sort_matches_chain (w : Z * Z * Z * Z) (l c : list Difflib.Match) :
  chain_in w c → l ≡ₚ c → Difflib.sort_matches l = c.
Proof.
  intros [Hc _] Hperm. destruct (sort_matches_spec l) as [Hp Hs].
  apply (@StronglySorted_unique _ lex_le lex_le_antisymm); [done| |by rewrite Hp].
  clear -Hc. induction Hc as [|x c Hc IH Hx]; constructor; [done|].
  eapply Forall_impl; [exact Hx|]. intros y. apply before_lex_le.
Qed.

(** *** From the chain to the opcodes *)

Lemma chain_from_weaken (i j i' j' : Z) (blocks : list Difflib.Match) :
  i' ≤ i → j' ≤ j → chain_from i j blocks → chain_from i' j' blocks.
Proof.
  destruct blocks as [|[[ai bj] size] rest]; simpl; [done|].
  intros ? ? (? & ? & ? & ?). split_and!; [lia..|done].
Qed.

Lemma chain_in_from (la lb i j : Z) (c : list Difflib.Match) :
  chain_in (i, la, j, lb) c → i ≤ la → j ≤ lb →
  chain_from i j (c ++ [(la, lb, 0)]).
Proof.
  intros [Hs Hw]. revert i j Hw.
  induction Hs as [|[[ai bj] size] c Hs IH Hx]; intros i j Hw Hi Hj; simpl; [lia|].
  apply Forall_cons in Hw as [Hw1 Hw]. simpl in Hw1.
  split_and!; [lia..|]. apply IH; [|lia..].
  apply Forall_forall. intros [[i2 j2] k2] Hin.
  pose proof (proj1 (Forall_forall _ _) Hw _ Hin) as H1.
  pose proof (proj1 (Forall_forall _ _) Hx _ Hin) as H2.
  simpl in *. lia.
Qed.

Lemma collapse_chain (cur : Difflib.Match) (blocks suffix : list Difflib.Match) (i j : Z) :
  chain_from i j (cur :: blocks ++ suffix) →
  chain_from i j (Difflib.collapse cur blocks ++ suffix)
  ∧ matched (Difflib.collapse cur blocks) = matched (cur :: blocks).
Proof.
  revert cur i j. induction blocks as [|[[i2 j2] k2] rest IH];
    intros [[i1 j1] k1] i j; cbn [Difflib.collapse].
  - intros (Hi & Hj & Hk & Hrest). destruct (Z.eqb_spec k1 0) as [->|Hk1].
    + split; [|done]. simpl. eapply chain_from_weaken; [| |exact Hrest]; lia.
    + split; [|done]. simpl. done.
  - intros (Hi & Hj & Hk & Hrest).
    destruct ((i1 + k1 =? i2) && (j1 + k1 =? j2)) eqn:Hadj.
    + apply andb_prop in Hadj as [<-%Z.eqb_eq <-%Z.eqb_eq].
      destruct (IH (i1, j1, k1 + k2) i j) as [H1 H2].
      { simpl in *. destruct Hrest as (_ & _ & Hk2 & Hrest).
        split_and!; [lia..|]. by rewrite <- !Z.add_assoc in Hrest. }
      split; [done|]. rewrite H2. simpl. unfold matched. simpl. lia.
    + destruct (IH (i2, j2, k2) (i1 + k1) (j1 + k1) Hrest) as [H1 H2].
      destruct (Z.eqb_spec k1 0) as [->|Hk1]; simpl.
      * split; [eapply chain_from_weaken; [| |exact H1]; lia|].
        rewrite H2. unfold matched. simpl. lia.
      * split; [done|]. unfold matched in *. simpl in *. lia.
Qed.

Lemma chain_end_sentinel (i j la lb : Z) (blocks : list Difflib.Match) :
  chain_end i j (blocks ++ [(la, lb, 0)]) = (la, lb).
Proof.
  revert i j. induction blocks as [|[[ai bj] size] rest IH]; intros i j; simpl.
  - by rewrite !Z.add_0_r.
  - apply IH.
Qed.

Lemma matched_app (l1 l2 : list Difflib.Match) :
  matched (l1 ++ l2) = matched l1 + matched l2.
Proof.
  unfold matched. induction l1 as [|x l1 IH]; simpl; [done|]. rewrite IH. lia.
Qed.

(** the blocks of a chain fit between its start and its end *)
Lemma chain_from_room (i j : Z) (blocks : list Difflib.Match) :
  chain_from i j blocks →
  0 ≤ matched blocks
  ∧ i + matched blocks ≤ (chain_end i j blocks).1
  ∧ j + matched blocks ≤ (chain_end i j blocks).2.
Proof.
  revert i j. induction blocks as [|[[ai bj] size] rest IH]; intros i j; simpl.
  - unfold matched. simpl. lia.
  - intros (Hi & Hj & Hk & Hrest). apply IH in Hrest.
    unfold matched in *. simpl in *. lia.
Qed.

Lemma edits_app (ops1 ops2 : list Difflib.opcode) :
  edits (ops1 ++ ops2) = edits ops1 + edits ops2.
Proof.
  unfold edits. rewrite filter_app, map_app, foldr_app.
  induction (map span_lengths (filter _ ops1)) as [|x l IH]; simpl; [done|].
  rewrite IH. lia.
Qed.

(** Along a chain, the spans that are not tagged [equal] are what the
    blocks leave uncovered, in both texts. *)
Lemma edits_chain (i j : Z) (blocks : list Difflib.Match) :
  chain_from i j blocks →
  edits (Difflib.opcodes_from i j blocks)
  = ((chain_end i j blocks).1 - i) + ((chain_end i j blocks).2 - j)
    - 2 * matched blocks.
Proof.
  revert i j. induction blocks as [|[[ai bj] size] rest IH]; intros i j.
  - intros _. unfold edits, matched. simpl. lia.
  - intros (Hi & Hj & Hk & Hrest). cbn [Difflib.opcodes_from chain_end].
    rewrite !edits_app, (IH _ _ Hrest).
    destruct (size =? 0), (Z.ltb_spec i ai), (Z.ltb_spec j bj);
      unfold edits, matched; simpl; lia.
Qed.

(** The matching blocks of two texts follow one another from the start
    of both texts to their ends. *)
Lemma get_matching_blocks_chain (a b : list N) :
  chain_from 0 0 (Difflib.get_matching_blocks a b)
  ∧ chain_end 0 0 (Difflib.get_matching_blocks a b) = (len a, len b).
Proof.
  unfold Difflib.get_matching_blocks.
  destruct (get_matching_blocks_total a b) as [res Hres]. rewrite Hres. simpl default.
  apply blocks_loop_chains in Hres as (chains & Hch & Hperm).
  2: { repeat constructor; unfold len; lia. }
  apply Forall2_cons_inv_l in Hch as (c & chains' & Hc & Hnil & ->).
  apply Forall2_nil_inv_l in Hnil as ->. simpl in Hperm. rewrite app_nil_r in Hperm.
  rewrite (sort_matches_chain _ res c Hc Hperm).
  split; [|apply chain_end_sentinel].
  apply collapse_chain. simpl. split_and!; [done..|].
  apply chain_in_from; [done|unfold len; lia..].
Qed.

Lemma diff_size_matched (a b : list N) :
  diff_size a b = len a + len b - 2 * matched (Difflib.get_matching_blocks a b)
  ∧ 0 ≤ matched (Difflib.get_matching_blocks a b)
  ∧ matched (Difflib.get_matching_blocks a b) ≤ len a
  ∧ matched (Difflib.get_matching_blocks a b) ≤ len b.
Proof.
  destruct (get_matching_blocks_chain a b) as [Hchain Hend].
  pose proof (edits_chain 0 0 _ Hchain) as He.
  pose proof (chain_from_room 0 0 _ Hchain) as Hroom.
  rewrite Hend in He, Hroom. simpl in He, Hroom.
  rewrite diff_size_magnitude. unfold magnitude, Difflib.get_opcodes.
  unfold edits in He. lia.
Qed.

(** When the blocks leave nothing uncovered, the texts agree from the
    start of the chain on. *)
Lemma chain_full_agree (a b : list N) (i j la lb : Z) (blocks : list Difflib.Match) :
  chain_from i j blocks → Forall (agree a b) blocks →
  chain_end i j blocks = (la, lb) →
  matched blocks = la - i → matched blocks = lb - j →
  ∀ d, 0 ≤ d < la - i →
    ∃ c, Difflib.at_ a (i + d) = Some c ∧ Difflib.at_ b (j + d) = Some c.
Proof.
  revert i j. induction blocks as [|[[ai bj] size] rest IH]; intros i j.
  - intros _ _ _ H. unfold matched in H. simpl in H. lia.
  - intros (Hi & Hj & Hk & Hrest) Hag Hend Hma Hmb d Hd.
    apply Forall_cons in Hag as [Hag1 Hag]. simpl in Hend.
    pose proof (chain_from_room _ _ _ Hrest) as Hroom. rewrite Hend in Hroom.
    unfold matched in *. simpl in *.
    assert (ai = i) as -> by lia. assert (bj = j) as -> by lia.
    destruct (decide (d < size)) as [Hlt|Hge]; [apply Hag1; lia|].
    destruct (IH (i + size) (j + size) Hrest Hag Hend) with (d := d - size)
      as (c & Hc1 & Hc2); [lia..|].
    exists c. split; [rewrite <- Hc1|rewrite <- Hc2]; f_equal; lia.
Qed.

(** X14. The change magnitude counts what the matching blocks leave
    uncovered: it is the two lengths added up, less twice the number of
    matched characters.  So it is never negative, never more than the
    two lengths together, never less than their difference, and it is
    odd exactly when the two lengths together are. *)
Theorem diff_size_bounds (old new : list N) :
  Z.abs (len old - len new) ≤ diff_size old new ≤ len old + len new
  ∧ (diff_size old new) mod 2 = (len old + len new) mod 2
  ∧ diff_size old new
    = len old + len new - 2 * matched (Difflib.get_matching_blocks old new).
Proof.
  destruct (diff_size_matched old new) as (Hd & H0 & Ha & Hb).
  split_and!; [lia|lia| |done].
  rewrite Hd.
  replace (len old + len new - 2 * matched (Difflib.get_matching_blocks old new))
    with (len old + len new + (- matched (Difflib.get_matching_blocks old new)) * 2)
    by lia.
  apply Z.mod_add. lia.
Qed.

(** a magnitude of zero leaves no room for a difference *)
Lemma diff_size_zero_eq (old new : list N) : diff_size old new = 0 → old = new.
Proof.
  intros Hzero.
  destruct (diff_size_matched old new) as (Hd & H0 & Ha & Hb).
  destruct (get_matching_blocks_chain old new) as [Hchain Hend].
  assert (len old = len new) as Hlen by lia.
  pose proof (chain_full_agree old new 0 0 (len old) (len new) _ Hchain
                (get_matching_blocks_agree old new) Hend) as Hag.
  apply list_eq. intros n.
  destruct (decide (Z.of_nat n < len old)) as [Hn|Hn].
  - destruct (Hag ltac:(lia) ltac:(lia) (Z.of_nat n)) as (c & H1 & H2); [lia|].
    unfold Difflib.at_ in H1, H2. rewrite Z.add_0_l, Nat2Z.id in H1, H2.
    by rewrite H1, H2.
  - unfold len in *. rewrite !lookup_ge_None_2 by lia. done.
Qed.

(** X15. The change magnitude is zero for equal texts and for no
    others. *)
Theorem diff_size_zero (old new : list N) : diff_size old new = 0 ↔ old = new.
Proof. split; [apply diff_size_zero_eq|intros ->; apply diff_size_same]. Qed.

(** against the empty text the magnitude is a length *)
Lemma diff_size_from_empty (t : list N) : diff_size [] t = len t.
Proof.
  destruct (diff_size_matched [] t) as (H1 & H2 & H3 & H4).
  unfold len in *. simpl in *. lia.
Qed.

End Tiling.

(** ** The opcodes are an alignment *)

Section Alignment.
Local Open Scope Z_scope.

Lemma opcodes_tile (i j : Z) (blocks : list Difflib.Match) :
  chain_from i j blocks →
  tiles i j (chain_end i j blocks).1 (chain_end i j blocks).2
    (Difflib.opcodes_from i j blocks).
Proof.
  revert i j. induction blocks as [|[[ai bj] size] rest IH]; intros i j; [done|].
  intros (Hi & Hj & Hk & Hrest). specialize (IH _ _ Hrest).
  cbn [Difflib.opcodes_from chain_end].
  destruct (Z.eqb_spec size 0) as [->|Hsize].
  - rewrite !Z.add_0_r in *.
    destruct (Z.ltb_spec i ai), (Z.ltb_spec j bj); cbn [andb app tiles];
      try (split_and!; [done|done|lia..|done]).
    by replace i with ai by lia; replace j with bj by lia.
  - destruct (Z.ltb_spec i ai), (Z.ltb_spec j bj); cbn [andb app tiles];
      split_and!; try done; lia.
Qed.

(** In an alignment every character of either text lies in one span:
    the spans that are counted and the matching ones add up to the two
    lengths. *)
Lemma tiles_lengths (i j la lb : Z) (ops : list Difflib.opcode) :
  tiles i j la lb ops →
  foldr Z.add 0 (map span_lengths (filter (fun op => is_edit op = true) ops))
  + 2 * matching_length ops
  = (la - i) + (lb - j).
Proof.
  unfold matching_length. revert i j.
  induction ops as [|[[[[tag i1] i2] j1] j2] ops IH]; intros i j; cbn [tiles].
  - intros [-> ->]. simpl. lia.
  - intros (-> & -> & Htag & Hrest). apply IH in Hrest.
    destruct tag.
    1-3: rewrite (filter_cons_True (fun op : Difflib.opcode => is_edit op = true)),
           (filter_cons_False (fun op : Difflib.opcode => is_edit op = false)) by done.
    4: rewrite (filter_cons_False (fun op : Difflib.opcode => is_edit op = true)),
         (filter_cons_True (fun op : Difflib.opcode => is_edit op = false)) by done.
    all: cbn [map foldr span_lengths]; lia.
Qed.

(** The opcodes of two texts are an alignment of the two texts. *)
Lemma get_opcodes_tile (a b : list N) :
  tiles 0 0 (len a) (len b) (Difflib.get_opcodes a b).
Proof.
  destruct (get_matching_blocks_chain a b) as [Hchain Hend].
  pose proof (opcodes_tile 0 0 _ Hchain) as H. by rewrite Hend in H.
Qed.

End Alignment.

Section FuzzyMagnitude.
Local Open Scope Z_scope.

(** C5.  Under the fuzzy strategy, for every pair of texts the magnitude
    is the sum, over the opcodes of the alignment, of the lengths of the
    inserted, deleted and replaced spans on both sides (and the
    alignment is computed: the matcher's loop ends within its fuel); the
    verdict is "changed" exactly when the magnitude is at least
    [min_change_chars], and the iteration reports "no change" exactly
    when it is not; against an empty current text the magnitude is the
    length of the previous text.  The opcodes are an alignment of the
    two texts: their spans follow one another from the start of both
    texts to their ends, none is empty, and the spans that are not
    counted, those tagged [equal], hold the same characters in both
    texts.  So the magnitude counts every character of either text
    that lies in no matching span; it lies between the difference of
    the two lengths and their sum, and it is zero for equal texts
    only. *)
Theorem fuzzy_magnitude (config : Monitor.AnalysisConfig) (previous current : list N) :
  let changed := (Monitor.decide config previous current).1 in
  let verdict := (Monitor.decide config previous current).2 in
  changed = magnitude previous current
  ∧ is_Some (Difflib.blocks_loop previous current (Difflib.chain_b current)
               (Difflib.blocks_fuel previous) [(0, len previous, 0, len current)] [])
  ∧ (verdict = true ↔ Monitor.min_change_chars config ≤ changed)
  ∧ (∀ (i : Monitor.input) (raw : list N),
       Monitor.capture i = Ok raw → normalize_text raw = current →
       (verdict = false →
        Monitor.tick config previous i
        = sleep_then (Monitor.interval config) [NoChange changed] previous)
       ∧ (verdict = true → ∀ m, NoChange m ∉ (Monitor.tick config previous i).1))
  ∧ (previous ≠ [] → (Monitor.decide config previous []).1 = len previous)
  ∧ (∀ i1 i2 j1 j2,
       (Difflib.Equal, i1, i2, j1, j2) ∈ Difflib.get_opcodes previous current →
       j2 - j1 = i2 - i1
       ∧ ∀ d, 0 ≤ d < i2 - i1 →
           ∃ c, Difflib.at_ previous (i1 + d) = Some c
                ∧ Difflib.at_ current (j1 + d) = Some c)
  ∧ tiles 0 0 (len previous) (len current) (Difflib.get_opcodes previous current)
  ∧ changed
    = len previous + len current
      - 2 * matching_length (Difflib.get_opcodes previous current)
  ∧ Z.abs (len previous - len current) ≤ changed ≤ len previous + len current
  ∧ (changed = 0 ↔ previous = current).
Proof.
  intros changed verdict. subst changed verdict. split_and!.
  - apply diff_size_magnitude.
  - apply get_matching_blocks_total.
  - simpl. apply Z.leb_le.
  - intros i raw Hcap <-. split.
    + by apply monitor_tick_unchanged.
    + intros H m. by apply (monitor_tick_changed_events config previous raw).
  - intros _. apply diff_size_empty.
  - apply equal_spans_agree.
  - apply get_opcodes_tile.
  - simpl. rewrite diff_size_magnitude. unfold magnitude.
    pose proof (tiles_lengths _ _ _ _ _ (get_opcodes_tile previous current)). lia.
  - simpl. pose proof (diff_size_matched previous current). lia.
  - simpl. pose proof (diff_size_matched previous current). lia.
  - simpl. split; [apply diff_size_zero_eq|intros ->; apply diff_size_same].
Qed.

Lemma fuzzy_magnitude_witness :
  text_of "hello world" ≠ []
  ∧ Monitor.decide (local_config 2) (text_of "hello world") (text_of "hello world!!!")
    = (3, true)
  ∧ magnitude (text_of "hello world") (text_of "hello world!!!") = 3
  ∧ (Monitor.decide (local_config 2) (text_of "hello world") []).1 = 11.
Proof.
  split; [done|].
  pose proof (fuzzy_magnitude (local_config 2) (text_of "hello world")
                (text_of "hello world!!!")) as (H1 & _ & _ & _ & H5 & _).
  split; [vm_compute; reflexivity|]. split; [by rewrite <- H1|].
  by rewrite H5.
Defined.

End FuzzyMagnitude.

(** ** The fuzzy loop: thresholds, sleeping and the ways out *)

Section FuzzyRuns.
Local Open Scope Z_scope.

(** X16. What the threshold of the fuzzy loop means.  With a threshold
    of 1 or more, a text equal to the previous one is never analysed;
    with a threshold of 1 or less, every text that differs from the
    previous one is analysed (so at threshold 1 the verdict is exactly
    "the text differs"); and a threshold above the two lengths together
    is out of reach. *)
Theorem fuzzy_threshold (config : Monitor.AnalysisConfig) (previous current : list N) :
  let verdict := (Monitor.decide config previous current).2 in
  (1 ≤ Monitor.min_change_chars config → verdict = true → previous ≠ current)
  ∧ (Monitor.min_change_chars config ≤ 1 → previous ≠ current → verdict = true)
  ∧ (len previous + len current < Monitor.min_change_chars config → verdict = false).
Proof.
  intros verdict. subst verdict. unfold Monitor.decide. simpl.
  pose proof (diff_size_matched previous current) as (Hd & H0 & Ha & Hb).
  split_and!.
  - intros Hthr Hv%Z.leb_le ->. rewrite diff_size_same in Hv. lia.
  - intros Hthr Hne. apply Z.leb_le.
    destruct (decide (diff_size previous current = 0)) as [Hz|Hz]; [|lia].
    by apply diff_size_zero_eq in Hz.
  - intros Hthr. apply Z.leb_gt. lia.
Qed.

Lemma above_half_not_negative (x : float) :
  PrimFloat.ltb 0.5 x = true → PrimFloat.ltb x 0 = false.
Proof.
  rewrite !ltb_spec. unfold SpecFloat.SFltb.
  replace (Prim2SF 0.5) with (SpecFloat.S754_finite false 4503599627370496 (-53))
    by (vm_compute; reflexivity).
  replace (Prim2SF 0) with (SpecFloat.S754_zero false) by (vm_compute; reflexivity).
  destruct (Prim2SF x) as [s|s| |s m e]; simpl; try done; by destruct s.
Qed.

(** the interval that [parse_args] hands to the loop *)
Lemma clamped_interval (x : float) :
  let d := py_max 0.5 x in
  PrimFloat.is_nan d = false ∧ PrimFloat.leb 0.5 d = true ∧ PrimFloat.ltb d 0 = false.
Proof.
  unfold py_max. destruct (PrimFloat.ltb 0.5 x) eqn:Hlt; simpl.
  - split_and!.
    + destruct (PrimFloat.is_nan x) eqn:Hnan; [|done].
      by rewrite (proj2 (is_nan_ltb x 0.5 Hnan)) in Hlt.
    + by apply ltb_leb.
    + by apply above_half_not_negative.
  - done.
Qed.

Lemma print_block_sleeps (title body : list N) : sleeps (Monitor.print_block title body) = [].
Proof. done. Qed.

(** One iteration of the fuzzy loop: it sleeps once, for the interval,
    and goes on with the text it had or the one it has just met; or it
    raises. *)
Lemma monitor_tick_ends (config : Monitor.AnalysisConfig) (previous : list N)
    (i : Monitor.input) :
  let t := Monitor.tick config previous i in
  (∃ previous', time_sleep (Monitor.interval config) = None
     ∧ sleeps t.1 = [Monitor.interval config] ∧ t.2 = Ok previous'
     ∧ (previous' = previous
        ∨ ∃ raw, Monitor.capture i = Ok raw ∧ previous' = normalize_text raw))
  ∨ (∃ e, sleeps t.1 = [] ∧ t.2 = Raise e ∧ monitor_failure config i e).
Proof.
  unfold Monitor.tick, Monitor.capture_ocr_text, monitor_failure.
  destruct (Monitor.capture i) as [raw|e]; [|right; exists e; by split_and!; [..|left]].
  assert (∀ (events : list event) (p : list N),
            sleeps events = [] →
            (p = previous ∨ ∃ raw', Ok raw = Ok raw' ∧ p = normalize_text raw') →
            let t := sleep_then (Monitor.interval config) events p in
            (∃ previous', time_sleep (Monitor.interval config) = None
               ∧ sleeps t.1 = [Monitor.interval config] ∧ t.2 = Ok previous'
               ∧ (previous' = previous
                  ∨ ∃ raw', Ok raw = Ok raw' ∧ previous' = normalize_text raw'))
            ∨ (∃ e, sleeps t.1 = [] ∧ t.2 = Raise e
                 ∧ (Ok raw = Raise e
                    ∨ time_sleep (Monitor.interval config) = Some e
                    ∨ is_Exception e = false
                      ∧ ∃ raw', Ok raw = Ok raw'
                          ∧ Monitor.analyze (Monitor.env i) (normalize_text raw')
                              (Monitor.model config) = Raise e))) as Hsleep.
  { intros events p Hev Hp.
    destruct (sleep_then_sleeps (Monitor.interval config) events p Hev)
      as [(H1 & H2 & H3)|(e & H1 & H2 & H3)].
    - left. exists p. by split_and!.
    - right. exists e. split_and!; [done..|]. right. by left. }
  destruct (Monitor.min_change_chars config <=? _).
  - assert (sleeps (if Monitor.show_raw_text config
                    then Monitor.print_block (text_of "OCR text") (normalize_text raw)
                    else []) = []) as Hshown by (by destruct (Monitor.show_raw_text config)).
    destruct (Monitor.analyze _ _ _) as [analysis|exc] eqn:Han.
    + apply Hsleep; [by rewrite sleeps_app, Hshown|]. right. by exists raw.
    + destruct (is_Exception exc) eqn:Hexc.
      * apply Hsleep; [by rewrite sleeps_app, Hshown|]. right. by exists raw.
      * right. exists exc. split_and!; [done..|]. right. right. split; [done|].
        by exists raw.
  - apply Hsleep; [done|by left].
Qed.

(** the sleeps of the loop, and how it can end *)
Lemma monitor_loop_ends (config : Monitor.AnalysisConfig) (inputs : list Monitor.input)
    (previous : list N) :
  let run := Monitor.loop config previous inputs in
  Forall (fun d => d = Monitor.interval config) (sleeps run.1)
  ∧ match run.2 with
    | Running previous' =>
        length (sleeps run.1) = length inputs
        ∧ (previous' = previous
           ∨ ∃ i raw, i ∈ inputs ∧ Monitor.capture i = Ok raw
                      ∧ previous' = normalize_text raw)
    | Uncaught e => ∃ i, i ∈ inputs ∧ monitor_failure config i e
    | Exit _ => False
    end.
Proof.
  revert previous. induction inputs as [|i rest IH]; intros previous.
  { simpl. split; [constructor|]. split; [done|by left]. }
  cbn [Monitor.loop].
  destruct (monitor_tick_ends config previous i)
    as [(p & Hs & Hev & Hok & Hp)|(e & Hev & Hraise & Hf)].
  - destruct (Monitor.tick config previous i) as [events r].
    cbn [fst snd] in Hev, Hok. subst r.
    specialize (IH p). destruct (Monitor.loop config p rest) as [events' e'].
    cbn [fst snd] in *. destruct IH as [IH1 IH2]. rewrite sleeps_app, Hev. split.
    + by constructor.
    + destruct e' as [status|e'|p']; [done| |].
      * destruct IH2 as (i' & Hi' & Hf). exists i'. split; [by right|done].
      * destruct IH2 as [Hlen Hp']. split; [simpl; by rewrite Hlen|].
        destruct Hp' as [->|(i' & raw & Hi' & Hc & ->)].
        -- destruct Hp as [->|(raw & Hc & ->)]; [by left|].
           right. exists i, raw. split; [left|done].
        -- right. exists i', raw. split; [by right|done].
  - destruct (Monitor.tick config previous i) as [events r].
    cbn [fst snd] in Hev, Hraise. subst r. cbn [fst snd]. rewrite Hev.
    split; [constructor|]. exists i. split; [left|done].
Qed.


(** how [main] comes to its end *)
Lemma monitor_main_cases (args : Monitor.Namespace) (inputs : list Monitor.input) :
  let config := Monitor.parse_args args in
  let run := Monitor.loop config [] inputs in
  (run.2 = Uncaught KeyboardInterrupt
   ∧ Monitor.main args inputs = ((monitor_banner :: run.1) ++ [stopped], Exit 0))
  ∨ (run.2 ≠ Uncaught KeyboardInterrupt
     ∧ Monitor.main args inputs = (monitor_banner :: run.1, run.2)).
Proof.
  unfold Monitor.main, Monitor.run.
  destruct (Monitor.loop (Monitor.parse_args args) [] inputs) as [events e].
  cbn [fst snd]. destruct e as [status|[]|p]; first [by left|by right].
Qed.

(** X17. The fuzzy loop on captures too short to count: as long as
    every capture normalizes to fewer characters than the threshold,
    nothing is analysed, the previous text stays empty, and each
    iteration prints "No meaningful change" with the full length of the
    captured text, then sleeps. *)
Theorem monitor_quiet_start (config : Monitor.AnalysisConfig)
    (inputs : list Monitor.input) :
  time_sleep (Monitor.interval config) = None →
  Forall (short_capture config) inputs →
  Monitor.run config inputs
  = (monitor_banner :: concat (map (no_change_line config) inputs), Running []).
Proof.
  intros Hs Hshort. unfold Monitor.run.
  assert (Monitor.loop config [] inputs
          = (concat (map (no_change_line config) inputs), Running [])) as ->; [|done].
  induction Hshort as [|i rest (raw & Hc & Hlen) _ IH]; [done|].
  cbn [Monitor.loop]. unfold Monitor.tick, Monitor.capture_ocr_text, no_change_line.
  rewrite Hc, diff_size_from_empty.
  destruct (Z.leb_spec (Monitor.min_change_chars config) (len (normalize_text raw)));
    [lia|].
  unfold sleep_then. rewrite Hs, IH. simpl. by rewrite Hc.
Qed.

Lemma monitor_quiet_start_witness :
  Monitor.run (Monitor.parse_args default_namespace) two_short_captures
  = ([monitor_banner; NoChange 5; Slept 2; NoChange 11; Slept 2], Running []).
Proof.
  apply (monitor_quiet_start (Monitor.parse_args default_namespace) two_short_captures).
  - reflexivity.
  - repeat constructor; eexists; (split; [reflexivity|vm_compute; reflexivity]).
Defined.

(** X18. The text the fuzzy loop keeps as [previous] is always a
    normalized one: it is empty, or it is the normalized text of one of
    the captures made so far; in both cases normalizing it again
    changes nothing. *)
Theorem monitor_previous_normalized (args : Monitor.Namespace)
    (inputs : list Monitor.input) (events : list event) (previous : list N) :
  Monitor.main args inputs = (events, Running previous) →
  normalize_text previous = previous
  ∧ (previous = []
     ∨ ∃ i raw, i ∈ inputs ∧ Monitor.capture i = Ok raw
                ∧ previous = normalize_text raw).
Proof.
  intros Hmain.
  destruct (monitor_main_cases args inputs) as [[_ H]|[_ H]];
    rewrite H in Hmain; [done|].
  apply pair_equal_spec in Hmain as [_ Hend].
  pose proof (monitor_loop_ends (Monitor.parse_args args) inputs []) as [_ H2].
  rewrite Hend in H2. destruct H2 as [_ [->|(i & raw & Hi & Hc & ->)]].
  - split; [done|by left].
  - split; [apply normalize_text_idem|]. right. by exists i, raw.
Qed.

Lemma monitor_previous_normalized_witness :
  let previous := text_of "hello world" in
  normalize_text previous = previous
  ∧ (previous = []
     ∨ ∃ i raw, i ∈ two_short_captures ∧ Monitor.capture i = Ok raw
                ∧ previous = normalize_text raw).
Proof.
  apply (monitor_previous_normalized eager_namespace two_short_captures
           (Monitor.main eager_namespace two_short_captures).1).
  vm_compute. reflexivity.
Defined.

(** X19. The fuzzy program never sleeps less than half a second,
    whatever interval was asked for, a NaN included: every sleep of a
    run lasts the interval of the configuration, which is at least 0.5,
    and a run that is still going has slept once for every iteration. *)
Theorem monitor_sleeps (args : Monitor.Namespace) (inputs : list Monitor.input)
    (events : list event) (e : ending (list N)) :
  Monitor.main args inputs = (events, e) →
  let d := Monitor.interval (Monitor.parse_args args) in
  PrimFloat.leb 0.5 d = true
  ∧ Forall (fun d' => d' = d) (sleeps events)
  ∧ (∀ previous, e = Running previous → length (sleeps events) = length inputs).
Proof.
  intros Hmain d. split; [apply (clamped_interval (Monitor.arg_interval args))|].
  pose proof (monitor_loop_ends (Monitor.parse_args args) inputs []) as [H1 H2].
  destruct (monitor_main_cases args inputs) as [[_ H]|[_ H]];
    rewrite H in Hmain; apply pair_equal_spec in Hmain as [<- <-].
  - split; [|done]. change (monitor_banner :: ?l) with ([monitor_banner] ++ l).
    rewrite !sleeps_app. simpl. by rewrite app_nil_r.
  - split; [done|]. intros previous Hend. rewrite Hend in H2. by destruct H2.
Qed.

Lemma monitor_sleeps_witness :
  let run := Monitor.main default_namespace two_short_captures in
  let d := Monitor.interval (Monitor.parse_args default_namespace) in
  PrimFloat.leb 0.5 d = true
  ∧ Forall (fun d' => d' = d) (sleeps run.1)
  ∧ (∀ previous, run.2 = Running previous →
       length (sleeps run.1) = length two_short_captures).
Proof.
  intros run. apply (monitor_sleeps default_namespace two_short_captures).
  subst run. by destruct (Monitor.main default_namespace two_short_captures).
Defined.



End FuzzyRuns.

(** ** The lists and the tallies of an analysis *)

Lemma text_ltb_irrefl (a : list N) : text_ltb a a = false.
Proof.
  induction a as [|x a IH]; [done|]. simpl.
  by rewrite N.ltb_irrefl, N.eqb_refl, IH.
Qed.

Lemma text_ltb_trans (a b c : list N) :
  text_ltb a b = true → text_ltb b c = true → text_ltb a c = true.
Proof.
  revert b c. induction a as [|x a IH]; intros [|y b] [|z c]; simpl; try done.
  rewrite !orb_true_iff, !andb_true_iff, !N.ltb_lt, !N.eqb_eq.
  intros [Hxy|[-> Hab]] [Hyz|[-> Hbc]]; [left; lia|by left|by left|].
  right. split; [done|]. by eapply IH.
Qed.

Lemma text_ltb_total (a b : list N) :
  text_ltb a b = false → text_ltb b a = false → a = b.
Proof.
  revert b. induction a as [|x a IH]; intros [|y b]; simpl; try done.
  rewrite !orb_false_iff, !andb_false_iff, !N.ltb_ge, !N.eqb_neq.
  intros [Hxy H1] [Hyx H2]. assert (x = y) as -> by lia.
  f_equal. apply IH; [by destruct H1|by destruct H2].
Qed.

Lemma insert_sorted_elem (x y : list N) (l : list (list N)) :
  y ∈ insert_sorted x l ↔ y = x ∨ y ∈ l.
Proof.
  induction l as [|z l IH]; simpl.
  - rewrite list_elem_of_singleton. split; [by left|]. intros [?|H]; [done|].
    by apply not_elem_of_nil in H.
  - destruct (text_ltb x z) eqn:Hxz; [by rewrite elem_of_cons|].
    destruct (text_ltb z x) eqn:Hzx.
    + rewrite !elem_of_cons, IH. tauto.
    + rewrite (text_ltb_total x z Hxz Hzx), elem_of_cons. tauto.
Qed.

Lemma insert_sorted_sorted (x : list N) (l : list (list N)) :
  StronglySorted text_lt l → StronglySorted text_lt (insert_sorted x l).
Proof.
  induction 1 as [|z l Hl IH Hz]; simpl; [repeat constructor|].
  destruct (text_ltb x z) eqn:Hxz.
  - apply SSorted_cons; [by apply SSorted_cons|].
    apply Forall_cons. split; [done|].
    eapply Forall_impl; [exact Hz|]. intros y Hy. by eapply text_ltb_trans.
  - destruct (text_ltb z x) eqn:Hzx; [|by apply SSorted_cons].
    apply SSorted_cons; [done|]. apply Forall_forall. intros y Hy.
    apply insert_sorted_elem in Hy as [->|Hy]; [done|].
    by apply (proj1 (Forall_forall _ _) Hz).
Qed.

Lemma sorted_set_spec (xs : list (list N)) :
  StronglySorted text_lt (sorted_set xs) ∧ ∀ x, x ∈ sorted_set xs ↔ x ∈ xs.
Proof.
  unfold sorted_set. induction xs as [|y xs [IH1 IH2]]; simpl.
  - split; [constructor|done].
  - split; [by apply insert_sorted_sorted|].
    intros x. rewrite insert_sorted_elem, elem_of_cons, IH2. done.
Qed.

(** *** Tallies *)

Section Tallies.
Local Open Scope Z_scope.

Lemma count_in_snoc (w x : list N) (ws : list (list N)) :
  count_in w (ws ++ [x]) = count_in w ws + (if decide (x = w) then 1 else 0).
Proof.
  unfold count_in, len. rewrite filter_app, length_app.
  destruct (decide (x = w)) as [->|Hne].
  - rewrite (filter_cons_True _ w []) by done. simpl. lia.
  - rewrite (filter_cons_False _ x []) by done. simpl. lia.
Qed.

Lemma count_in_pos (w : list N) (ws : list (list N)) : 0 < count_in w ws ↔ w ∈ ws.
Proof.
  unfold count_in, len. split.
  - intros H. destruct (filter (λ x, x = w) ws) as [|y l] eqn:Hf; [simpl in H; lia|].
    assert (y ∈ filter (λ x, x = w) ws) as Hy by (rewrite Hf; left).
    by apply list_elem_of_filter in Hy as [-> ?].
  - intros H. assert (w ∈ filter (λ x, x = w) ws) as Hw by (by apply list_elem_of_filter).
    destruct (filter _ ws); [by apply not_elem_of_nil in Hw|simpl; lia].
Qed.

Lemma tally_keys (w : list N) (c : list (list N * Z)) (w' : list N) :
  w' ∈ (tally w c).*1 ↔ w' = w ∨ w' ∈ c.*1.
Proof.
  induction c as [|[w0 n0] c IH]; simpl.
  - rewrite list_elem_of_singleton. split; [by left|]. intros [?|H]; [done|].
    by apply not_elem_of_nil in H.
  - destruct (bool_decide_reflect (w = w0)) as [->|Hne]; simpl.
    + rewrite !elem_of_cons. tauto.
    + rewrite !elem_of_cons, IH. tauto.
Qed.

Lemma tally_NoDup (w : list N) (c : list (list N * Z)) :
  NoDup c.*1 → NoDup (tally w c).*1.
Proof.
  induction c as [|[w0 n0] c IH]; simpl.
  - intros _. apply NoDup_singleton.
  - rewrite NoDup_cons. intros [Hw0 Hc].
    destruct (bool_decide_reflect (w = w0)) as [->|Hne]; simpl.
    + by apply NoDup_cons.
    + apply NoDup_cons. split; [|by apply IH].
      rewrite tally_keys. intros [?|?]; [congruence|done].
Qed.

Lemma tally_counts (ws : list (list N)) (w : list N) (c : list (list N * Z)) :
  NoDup c.*1 → Forall (counts ws) c → w ∈ c.*1 ∨ count_in w ws = 0 →
  Forall (counts (ws ++ [w])) (tally w c).
Proof.
  unfold counts. induction c as [|[w0 n0] c IH]; simpl.
  - intros _ _ [H|H]; [by apply not_elem_of_nil in H|].
    apply Forall_cons. split; [|constructor]. simpl.
    rewrite count_in_snoc, H, decide_True by done. done.
  - rewrite NoDup_cons, Forall_cons. simpl. intros [Hw0 Hnd] [[-> Hpos] Hc] Hw.
    destruct (bool_decide_reflect (w = w0)) as [->|Hne]; simpl.
    + apply Forall_cons. simpl. rewrite count_in_snoc, decide_True by done.
      split; [lia|]. apply Forall_forall. intros [w1 n1] Hin.
      pose proof (proj1 (Forall_forall _ _) Hc _ Hin) as [H1 H2]. simpl in *.
      rewrite count_in_snoc, decide_False; [lia|].
      intros ->. apply Hw0. apply list_elem_of_fmap. by exists (w1, n1).
    + apply Forall_cons. simpl. rewrite count_in_snoc, decide_False by done.
      split; [lia|]. apply IH; [done..|].
      destruct Hw as [Hw|Hw]; [|by right].
      apply elem_of_cons in Hw as [?|?]; [done|by left].
Qed.

Lemma tally_step (ws : list (list N)) (c : list (list N * Z)) (w : list N) :
  tally_of ws c → tally_of (ws ++ [w]) (tally w c).
Proof.
  intros (Hnd & Hc & Hall). split_and!.
  - by apply tally_NoDup.
  - apply tally_counts; [done..|].
    destruct (decide (w ∈ ws)) as [Hin|Hout]; [left; by apply Hall|right].
    destruct (decide (0 < count_in w ws)) as [Hpos%count_in_pos|Hz]; [done|].
    pose proof (Nat2Z.is_nonneg (length (filter (λ x, x = w) ws))).
    unfold count_in, len in *. lia.
  - intros w' Hw'. apply tally_keys.
    apply elem_of_app in Hw' as [Hw'|Hw']; [right; by apply Hall|left].
    by apply list_elem_of_singleton in Hw'.
Qed.

Lemma Counter_spec (ws : list (list N)) : tally_of ws (Counter ws).
Proof.
  unfold Counter.
  assert (∀ seen c, tally_of seen c →
            tally_of (seen ++ ws) (fold_left (fun c w => tally w c) ws c)) as H.
  { induction ws as [|w ws IH]; intros seen c Hc; simpl.
    - by rewrite app_nil_r.
    - replace (seen ++ w :: ws) with ((seen ++ [w]) ++ ws) by (by rewrite <- app_assoc).
      apply IH. by apply tally_step. }
  apply (H [] []). split_and!; [constructor|constructor|].
  intros w Hw. by apply not_elem_of_nil in Hw.
Qed.

Lemma insert_by_count_perm (x : list N * Z) (l : list (list N * Z)) :
  insert_by_count x l ≡ₚ x :: l.
Proof.
  induction l as [|y l IH]; [done|]. simpl.
  destruct (y.2 <? x.2); [done|]. rewrite IH. apply perm_swap.
Qed.

Lemma insert_by_count_sorted (x : list N * Z) (l : list (list N * Z)) :
  StronglySorted count_ge l → StronglySorted count_ge (insert_by_count x l).
Proof.
  induction 1 as [|y l Hl IH Hy]; simpl; [repeat constructor|].
  destruct (Z.ltb_spec y.2 x.2).
  - apply SSorted_cons; [by apply SSorted_cons|].
    apply Forall_cons. split; [unfold count_ge; lia|].
    eapply Forall_impl; [exact Hy|]. unfold count_ge. intros z. lia.
  - apply SSorted_cons; [done|]. rewrite insert_by_count_perm.
    apply Forall_cons. split; [done|done].
Qed.

Lemma by_count_spec (c : list (list N * Z)) :
  fold_left (fun acc x => insert_by_count x acc) c [] ≡ₚ c
  ∧ StronglySorted count_ge (fold_left (fun acc x => insert_by_count x acc) c []).
Proof.
  assert (∀ acc, StronglySorted count_ge acc →
            fold_left (fun acc x => insert_by_count x acc) c acc ≡ₚ acc ++ c
            ∧ StronglySorted count_ge
                (fold_left (fun acc x => insert_by_count x acc) c acc)) as H.
  { induction c as [|x c IH]; intros acc Hacc; simpl.
    - by rewrite app_nil_r.
    - destruct (IH (insert_by_count x acc)) as [H1 H2];
        [by apply insert_by_count_sorted|].
      split; [|done]. rewrite H1, insert_by_count_perm.
      by rewrite <- Permutation_middle. }
  apply (H []). constructor.
Qed.

(** [most_common n] of the tally of [ws]: at most [n] entries, each for
    a different word of [ws] with the number of times it occurs there,
    in order of decreasing count; a word of [ws] is left out only if
    the list is full, and then it occurs no more often than any word
    listed. *)
Lemma most_common_spec (n : nat) (ws : list (list N)) :
  let top := most_common n (Counter ws) in
  (length top ≤ n)%nat
  ∧ NoDup top.*1
  ∧ StronglySorted count_ge top
  ∧ (∀ w k, (w, k) ∈ top → w ∈ ws ∧ k = count_in w ws)
  ∧ (∀ w, w ∈ ws → w ∉ top.*1 →
       length top = n ∧ ∀ x, x ∈ top → count_in w ws ≤ x.2).
Proof.
  intros top. subst top. unfold most_common.
  destruct (by_count_spec (Counter ws)) as [Hperm Hsorted].
  destruct (Counter_spec ws) as (Hnd & Hc & Hall).
  set (sorted := fold_left (fun acc x => insert_by_count x acc) (Counter ws) []) in *.
  rewrite <- (take_drop n sorted) in Hsorted, Hperm.
  apply StronglySorted_app in Hsorted as (Hcross & Hs1 & _).
  assert (∀ w k, (w, k) ∈ Counter ws → k = count_in w ws ∧ w ∈ ws) as Hentry.
  { intros w k Hin. apply (proj1 (Forall_forall _ _) Hc) in Hin as [H1 H2].
    simpl in *. split; [done|]. apply count_in_pos. lia. }
  split_and!.
  - rewrite length_take. lia.
  - rewrite <- Hperm, fmap_app in Hnd. by apply NoDup_app in Hnd as [? _].
  - done.
  - intros w k Hin. apply and_comm, Hentry. rewrite <- Hperm. apply elem_of_app. by left.
  - intros w Hw Hout.
    apply Hall, list_elem_of_fmap in Hw as ([w' k] & -> & Hin). simpl in Hout.
    pose proof (Hentry _ _ Hin) as [-> _].
    rewrite <- Hperm in Hin. apply elem_of_app in Hin as [Hin|Hin].
    { exfalso. apply Hout. apply list_elem_of_fmap. by exists (w', count_in w' ws). }
    split.
    + rewrite length_take. apply Nat.min_l.
      destruct (decide (n ≤ length sorted)%nat); [done|].
      rewrite drop_ge in Hin by lia. by apply not_elem_of_nil in Hin.
    + intros x Hx. by apply (Hcross x (w', count_in w' ws)).
Qed.

(** X22. The top words of an analysis.  They are at most eight, each a
    different counted word (a word of the lowercased text that is no
    stop word) with the number of times it occurs, in order of
    decreasing count; a counted word is left out only if eight are
    listed, and then it occurs no more often than any of those. *)
Theorem top_words_spec (text : list N) :
  let top := top_words (analyze_text text) in
  let ws := counted_words text in
  (length top ≤ 8)%nat
  ∧ NoDup top.*1
  ∧ StronglySorted count_ge top
  ∧ (∀ w k, (w, k) ∈ top → w ∈ ws ∧ (w ∉ STOP_WORDS) ∧ k = count_in w ws ∧ 1 ≤ k)
  ∧ (∀ w, w ∈ ws → w ∉ top.*1 →
       length top = 8%nat ∧ ∀ x, x ∈ top → count_in w ws ≤ x.2).
Proof.
  intros top ws.
  destruct (most_common_spec 8 ws) as (H1 & H2 & H3 & H4 & H5).
  split_and!; [done..| |done].
  intros w k Hin. destruct (H4 w k Hin) as [Hw ->].
  split_and!; [done| |done|].
  - subst ws. unfold counted_words in Hw. by apply list_elem_of_filter in Hw as [? _].
  - apply count_in_pos in Hw. lia.
Qed.

End Tallies.

(** ** What the patterns match *)

Lemma last_char_app (prev : option N) (s t : list N) :
  last_char (last_char prev s) t = last_char prev (s ++ t).
Proof.
  unfold last_char. destruct t as [|c t _] using rev_ind.
  - by rewrite app_nil_r.
  - by rewrite app_assoc, !last_snoc.
Qed.

Section MatcherSound.
Context {R : Type}.

Lemma rep_loop_sound (r : regex)
    (body : option N → list N → (option N → list N → option R) → option R)
    (k : option N → list N → option R) :
  sound_for r body →
  ∀ fuel lo prev s x, rep_loop body k fuel lo prev s = Some x →
    ∃ s1 s2, s = s1 ++ s2 ∧ matches (Rep lo r) prev s1 s2
             ∧ k (last_char prev s1) s2 = Some x.
Proof.
  intros Hbody.
  assert (∀ lo prev s x,
            match lo with O => k prev s | S _ => None end = Some x →
            ∃ s1 s2, s = s1 ++ s2 ∧ matches (Rep lo r) prev s1 s2
                     ∧ k (last_char prev s1) s2 = Some x) as Hstop.
  { intros [|lo] prev s x H; [|done]. exists [], s. split_and!; [done|constructor|done]. }
  induction fuel as [|fuel IH]; intros lo prev s x H; simpl in H; [by apply Hstop|].
  destruct (body prev s _) as [y|] eqn:Hb; [|by apply Hstop].
  injection H as ->.
  apply Hbody in Hb as (s1 & s2 & -> & Hm & Hk).
  destruct (Nat.ltb_spec (length s2) (length (s1 ++ s2))) as [Hlt|]; [|done].
  apply IH in Hk as (t1 & t2 & -> & Hrep & Hk).
  exists (s1 ++ t1), t2. split_and!.
  - by rewrite app_assoc.
  - apply matches_Rep_more; [|done..].
    intros ->. simpl in Hlt. lia.
  - by rewrite <- last_char_app.
Qed.

Lemma m_sound (r : regex) : sound_for r (m (R := R) r).
Proof.
  induction r as [|c|p|r1 IH1 r2 IH2|r1 IH1 r2 IH2|lo r IH|]; intros prev s k x H;
    cbn [m] in H.
  - exists [], s. split_and!; [done|constructor|done].
  - destruct s as [|y s]; [done|]. destruct (N.eqb_spec y c) as [->|]; [|done].
    exists [c], s. split_and!; [done|constructor|done].
  - destruct s as [|y s]; [done|]. destruct (p y) eqn:Hp; [|done].
    exists [y], s. split_and!; [done|by constructor|done].
  - apply IH1 in H as (s1 & s2 & -> & H1 & H).
    apply IH2 in H as (t1 & t2 & -> & H2 & H).
    exists (s1 ++ t1), t2. split_and!.
    + by rewrite app_assoc.
    + by constructor.
    + by rewrite <- last_char_app.
  - destruct (m r1 prev s k) as [y|] eqn:H1.
    + injection H as ->. apply IH1 in H1 as (s1 & s2 & -> & H1 & H).
      exists s1, s2. split_and!; [done|by apply matches_Alt_l|done].
    + apply IH2 in H as (s1 & s2 & -> & H2 & H).
      exists s1, s2. split_and!; [done|by apply matches_Alt_r|done].
  - eapply rep_loop_sound in H; [exact H|exact IH].
  - destruct (xorb _ _) eqn:Hx; [|done].
    exists [], s. split_and!; [done|by constructor|done].
Qed.

End MatcherSound.

(** an attempt that succeeds found a match at the head of the text *)
Lemma match_here_sound (r : regex) (must_advance : bool) (prev : option N)
    (s mt : list N) :
  match_here r must_advance prev s = Some mt →
  ∃ rest, s = mt ++ rest ∧ matches r prev mt rest.
Proof.
  unfold match_here. destruct (m r prev s _) as [rest|] eqn:H; [|done].
  intros [= <-]. apply m_sound in H as (s1 & s2 & -> & Hm & Hk).
  destruct (_ && _); [done|]. injection Hk as <-.
  exists s2. rewrite length_app.
  replace (length s1 + length s2 - length s2)%nat with (length s1) by lia.
  by rewrite take_app_length.
Qed.

(** the equations of [scan] *)
Lemma scan_nil (r : regex) (skip : nat) (prev : option N) :
  scan r skip prev [] =
    match skip with
    | S _ => []
    | O =>
        match match_here r false prev [] with
        | Some (c0 :: mt) => [Matched (c0 :: mt)]
        | Some [] =>
            Matched [] ::
              match match_here r true prev [] with
              | Some (c0 :: mt) => [Matched (c0 :: mt)]
              | _ => []
              end
        | None => []
        end
    end.
Proof. by destruct skip. Qed.

Lemma scan_cons (r : regex) (skip : nat) (prev : option N) (c : N) (s : list N) :
  scan r skip prev (c :: s) =
    match skip with
    | S n => scan r n (Some c) s
    | O =>
        match match_here r false prev (c :: s) with
        | Some (c0 :: mt) => Matched (c0 :: mt) :: scan r (length mt) (Some c) s
        | Some [] =>
            Matched [] ::
              match match_here r true prev (c :: s) with
              | Some (c0 :: mt) => Matched (c0 :: mt) :: scan r (length mt) (Some c) s
              | _ => Skipped c :: scan r 0 (Some c) s
              end
        | None => Skipped c :: scan r 0 (Some c) s
        end
    end.
Proof. by destruct skip. Qed.

(** The tokens of a scan, put together, are the text that was left to
    scan. *)
Lemma scan_rebuilds (r : regex) (s : list N) (skip : nat) (prev : option N) :
  concat (map token_text (scan r skip prev s)) = drop skip s.
Proof.
  revert skip prev. induction s as [|c s IH]; intros skip prev.
  - rewrite scan_nil, drop_nil. destruct skip; [|done].
    destruct (match_here r false prev []) as [[|c0 mt]|] eqn:H1; [| |done].
    + destruct (match_here r true prev []) as [[|c0 mt]|] eqn:H2; [done| |done].
      apply match_here_sound in H2 as (rest & H2 & _). done.
    + apply match_here_sound in H1 as (rest & H1 & _). done.
  - rewrite scan_cons. destruct skip as [|n]; [|apply IH].
    assert (∀ c0 mt ma, match_here r ma prev (c :: s) = Some (c0 :: mt) →
              concat (map token_text (Matched (c0 :: mt) :: scan r (length mt) (Some c) s))
              = c :: s) as Hmatch.
    { intros c0 mt ma (rest & Heq & _)%match_here_sound.
      simpl. rewrite IH. injection Heq as <- ->.
      by rewrite drop_app_length. }
    assert (concat (map token_text (Skipped c :: scan r 0 (Some c) s)) = c :: s) as Hskip
      by (simpl; by rewrite IH).
    destruct (match_here r false prev (c :: s)) as [[|c0 mt]|] eqn:H1.
    + destruct (match_here r true prev (c :: s)) as [[|c0 mt]|] eqn:H2;
        [done|by eapply Hmatch|done].
    + by eapply Hmatch.
    + done.
Qed.

(** Every match that a scan reports is a match of the pattern. *)
Lemma scan_matches (r : regex) (s : list N) (skip : nat) (prev : option N) (mt : list N) :
  Matched mt ∈ scan r skip prev s → ∃ prev' rest, matches r prev' mt rest.
Proof.
  revert skip prev. induction s as [|c s IH]; intros skip prev.
  - rewrite scan_nil. destruct skip; [|by intros ?%not_elem_of_nil].
    destruct (match_here r false prev []) as [[|c0 mt0]|] eqn:H1;
      [|by apply match_here_sound in H1 as (rest & H1 & _)|by intros ?%not_elem_of_nil].
    intros [[= ->]|Hin]%elem_of_cons.
    + apply match_here_sound in H1 as (rest & _ & H1). by exists prev, rest.
    + destruct (match_here r true prev []) as [[|c0 mt0]|] eqn:H2;
        [by apply not_elem_of_nil in Hin
        |by apply match_here_sound in H2 as (rest & H2 & _)
        |by apply not_elem_of_nil in Hin].
  - rewrite scan_cons. destruct skip as [|n]; [|apply IH].
    assert (∀ c0 mt0 ma, match_here r ma prev (c :: s) = Some (c0 :: mt0) →
              Matched mt ∈ Matched (c0 :: mt0) :: scan r (length mt0) (Some c) s →
              ∃ prev' rest, matches r prev' mt rest) as Hmatch.
    { intros c0 mt0 ma (rest & _ & Hm)%match_here_sound [[= ->]|Hin]%elem_of_cons.
      - by exists prev, rest.
      - by eapply IH. }
    assert (Matched mt ∈ Skipped c :: scan r 0 (Some c) s →
            ∃ prev' rest, matches r prev' mt rest) as Hskip.
    { intros [[= ]|Hin]%elem_of_cons. by eapply IH. }
    destruct (match_here r false prev (c :: s)) as [[|c0 mt0]|] eqn:H1;
      [|by eapply Hmatch|done].
    intros [[= ->]|Hin]%elem_of_cons.
    + apply match_here_sound in H1 as (rest & _ & H1). by exists prev, rest.
    + destruct (match_here r true prev (c :: s)) as [[|c0 mt0]|] eqn:H2;
        [by apply Hskip|by eapply Hmatch|by apply Hskip].
Qed.

Lemma elem_of_matches_of (ts : list token) (mt : list N) :
  mt ∈ matches_of ts ↔ Matched mt ∈ ts.
Proof.
  unfold matches_of. rewrite list_elem_of_omap. split.
  - intros ([c|mt'] & Hin & [= ->]). done.
  - intros Hin. by exists (Matched mt).
Qed.

Lemma findall_matches (r : regex) (s mt : list N) :
  mt ∈ findall r s → ∃ prev rest, matches r prev mt rest.
Proof. intros Hin%elem_of_matches_of. by eapply scan_matches. Qed.

Lemma infix_concat (x : list N) (l : list (list N)) : x ∈ l → infix x (concat l).
Proof.
  intros (l1 & l2 & ->)%list_elem_of_split.
  exists (concat l1), (concat l2). by rewrite concat_app.
Qed.

Lemma scan_rebuilds_all (r : regex) (s : list N) :
  concat (map token_text (scan r 0 None s)) = s.
Proof. apply (scan_rebuilds r s 0 None). Qed.

Lemma findall_infix (r : regex) (s mt : list N) : mt ∈ findall r s → infix mt s.
Proof.
  intros Hin%elem_of_matches_of.
  pose proof (infix_concat mt (map token_text (scan r 0 None s))) as H.
  rewrite scan_rebuilds_all in H. apply H.
  apply list_elem_of_fmap. by exists (Matched mt).
Qed.

(** the matches of a scan are no longer than the text, all together *)
Lemma findall_length (r : regex) (s : list N) :
  (length (concat (findall r s)) ≤ length s)%nat.
Proof.
  assert (∀ ts, (length (concat (matches_of ts))
                 ≤ length (concat (map token_text ts)))%nat) as H.
  { induction ts as [|[c|mt] ts IH]; simpl; [done|lia|].
    rewrite !length_app. lia. }
  specialize (H (scan r 0 None s)). by rewrite scan_rebuilds_all in H.
Qed.

(** *** Reading a match back *)

Lemma matches_Eps_inv (prev : option N) (s rest : list N) :
  matches Eps prev s rest → s = [].
Proof. by inversion 1. Qed.

Lemma matches_Lit_inv (c : N) (prev : option N) (s rest : list N) :
  matches (Lit c) prev s rest → s = [c].
Proof. by inversion 1. Qed.

Lemma matches_Cls_inv (p : N → bool) (prev : option N) (s rest : list N) :
  matches (Cls p) prev s rest → ∃ x, s = [x] ∧ p x = true.
Proof. inversion 1; subst. by eexists. Qed.

Lemma matches_Cat_inv (r1 r2 : regex) (prev : option N) (s rest : list N) :
  matches (Cat r1 r2) prev s rest →
  ∃ s1 s2, s = s1 ++ s2 ∧ matches r1 prev s1 (s2 ++ rest)
           ∧ matches r2 (last_char prev s1) s2 rest.
Proof. inversion 1; subst. by eexists _, _. Qed.

Lemma matches_Alt_inv (r1 r2 : regex) (prev : option N) (s rest : list N) :
  matches (Alt r1 r2) prev s rest → matches r1 prev s rest ∨ matches r2 prev s rest.
Proof. inversion 1; subst; first [by left|by right]. Qed.

Lemma matches_WordB_inv (prev : option N) (s rest : list N) :
  matches WordB prev s rest → s = [].
Proof. by inversion 1. Qed.

Lemma matches_Rep_Cls (lo : nat) (p : N → bool) (prev : option N) (s rest : list N) :
  matches (Rep lo (Cls p)) prev s rest →
  Forall (fun c => p c = true) s ∧ (lo ≤ length s)%nat.
Proof.
  intros H. remember (Rep lo (Cls p)) as r eqn:Hr. revert lo Hr.
  induction H as [| | | | | | |r0 prev rest|lo0 r0 prev s1 s2 rest Hne H1 _ H2 IH];
    intros lo Hr; try discriminate.
  - injection Hr as <- _. split; [constructor|done].
  - injection Hr as -> ->.
    apply matches_Cls_inv in H1 as (x & -> & Hx).
    destruct (IH _ eq_refl) as [Hall Hlen]. split.
    + by constructor.
    + simpl. lia.
Qed.

Lemma matches_chars (cs : list N) (prev : option N) (s rest : list N) :
  matches (foldr (fun c r => Cat (Lit c) r) Eps cs) prev s rest → s = cs.
Proof.
  revert prev s. induction cs as [|c cs IH]; intros prev s H; simpl in H.
  - by apply matches_Eps_inv in H.
  - apply matches_Cat_inv in H as (s1 & s2 & -> & ->%matches_Lit_inv & H).
    apply IH in H as ->. done.
Qed.

Lemma matches_lits (w : string) (prev : option N) (s rest : list N) :
  matches (lits w) prev s rest → s = text_of w.
Proof. apply matches_chars. Qed.

Lemma matches_opt (r : regex) (prev : option N) (s rest : list N) :
  matches (opt r) prev s rest → matches r prev s rest ∨ s = [].
Proof. intros [H|H%matches_Eps_inv]%matches_Alt_inv; first [by left|by right]. Qed.

Lemma matches_one_of (w : string) (ws : list string) (prev : option N) (s rest : list N) :
  matches (one_of (w :: ws)) prev s rest → s ∈ map text_of (w :: ws).
Proof.
  simpl.
  assert (∀ r0, matches (fold_left (fun r w' => Alt r (lits w')) ws r0) prev s rest →
                matches r0 prev s rest ∨ s ∈ map text_of ws) as H.
  { induction ws as [|w' ws IH]; intros r0 H; simpl in H; [by left|].
    apply IH in H as [H|H]; [|right; by right].
    apply matches_Alt_inv in H as [H|H%matches_lits]; [by left|].
    right. subst s. left. }
  intros [->%matches_lits|Hin]%H; [left|by right].
Qed.

(** a signal: the phrase between two word boundaries *)
Lemma matches_signal (w : string) (ws : list string) (prev : option N) (s rest : list N) :
  matches (Cat WordB (Cat (one_of (w :: ws)) WordB)) prev s rest →
  s ∈ map text_of (w :: ws).
Proof.
  intros (s1 & s2 & -> & ->%matches_WordB_inv & H)%matches_Cat_inv.
  apply matches_Cat_inv in H as (t1 & t2 & -> & H & ->%matches_WordB_inv).
  apply matches_one_of in H. by rewrite app_nil_r.
Qed.

Lemma matches_url (prev : option N) (s rest : list N) :
  matches re_url prev s rest → link_shape s.
Proof.
  unfold re_url.
  intros (s1 & s2 & -> & ->%matches_lits & H)%matches_Cat_inv.
  apply matches_Cat_inv in H as (o & s3 & -> & Ho%matches_opt & H).
  apply matches_Cat_inv in H as (s4 & tail & -> & ->%matches_lits & H).
  apply matches_Rep_Cls in H as [Hall Hlen].
  assert (tail ≠ []) as Hne by (intros ->; simpl in Hlen; lia).
  assert (Forall (fun c => isspace c = false ∧ c ≠ chr ")") tail) as Hok.
  { eapply Forall_impl; [exact Hall|]. intros c Hc. simpl in Hc.
    apply negb_true_iff, orb_false_iff in Hc as [Hs Hp]. split; [done|].
    intros ->. done. }
  destruct Ho as [->%matches_Lit_inv| ->].
  - exists (text_of "https"), tail. split_and!; [done|by right|done|done].
  - exists (text_of "http"), tail. split_and!; [done|by left|done|done].
Qed.

Lemma matches_email (prev : option N) (s rest : list N) :
  matches re_email prev s rest → address_shape s.
Proof.
  unfold re_email.
  intros (name & s2 & -> & [Hname Hn]%matches_Rep_Cls & H)%matches_Cat_inv.
  apply matches_Cat_inv in H as (s3 & s4 & -> & ->%matches_Lit_inv & H).
  apply matches_Cat_inv in H as (domain & s5 & -> & [Hdom Hd]%matches_Rep_Cls & H).
  apply matches_Cat_inv in H as (s6 & tld & -> & ->%matches_Lit_inv & H).
  apply matches_Rep_Cls in H as [Htld Ht].
  exists name, domain, tld. split_and!; try done.
  - intros ->. simpl in Hn. lia.
  - intros ->. simpl in Hd. lia.
Qed.

Lemma matches_word (prev : option N) (s rest : list N) :
  matches re_word prev s rest → word_shape s.
Proof.
  unfold re_word.
  intros (s1 & tail & -> & (c & -> & Hc)%matches_Cls_inv & H)%matches_Cat_inv.
  apply matches_Rep_Cls in H as [Hall Hlen].
  exists c, tail. split_and!; try done. intros ->. simpl in Hlen. lia.
Qed.

Lemma sorted_set_Forall (P : list N → Prop) (xs : list (list N)) :
  (∀ x, x ∈ xs → P x) → Forall P (sorted_set xs).
Proof.
  intros H. apply Forall_forall. intros x Hx. apply H.
  by apply (proj2 (sorted_set_spec xs)).
Qed.

Lemma lower_no_upper (s : list N) : Forall (fun c => is_upper c = false) (lower s).
Proof.
  unfold lower. apply Forall_fmap, Forall_forall. intros c _. simpl.
  destruct (is_upper c) eqn:Hc; [|done].
  unfold is_upper, in_range in *.
  apply andb_prop in Hc as [H1%N.leb_le H2%N.leb_le].
  apply andb_false_iff. right. apply N.leb_gt. lia.
Qed.

Lemma infix_Forall (P : N → Prop) (x s : list N) : infix x s → Forall P s → Forall P x.
Proof.
  intros (l1 & l2 & ->) H. apply Forall_app in H as [_ H].
  by apply Forall_app in H as [H _].
Qed.

(** X23. An analysis quotes the text and invents nothing: every link
    and every address it lists occurs in the text as it stands, every
    signal and every top word occurs in the lowercased text; the words
    it counts do not overlap and have two characters at least, so
    twice their number is at most the number of characters of the
    lowercased text (whatever lowering does to the length of the text),
    which for a text of ASCII characters is the number of characters of
    the text; and the question marks are at most as many as the
    characters. *)
Theorem analysis_quotes_text (text : list N) :
  let a := analyze_text text in
  Forall (fun u => infix u text) (urls a)
  ∧ Forall (fun e => infix e text) (emails a)
  ∧ Forall (fun t => infix t (lower text)) (todo_signals a)
  ∧ Forall (fun t => infix t (lower text)) (urgency_hits a)
  ∧ Forall (fun wk => infix wk.1 (lower text)) (top_words a)
  ∧ (2 * word_count a ≤ len (lower text))%Z
  ∧ (isascii text → 2 * word_count a ≤ char_count a)%Z
  ∧ (0 ≤ question_count a ≤ char_count a)%Z.
Proof.
  intros a. subst a. unfold analyze_text. simpl.
  assert (2 * len (findall re_word (lower text)) ≤ len (lower text))%Z as Hwords.
  { pose proof (findall_length re_word (lower text)) as Hlen.
    assert (2 * length (findall re_word (lower text))
            ≤ length (concat (findall re_word (lower text))))%nat as H2.
    { assert (∀ w, w ∈ findall re_word (lower text) → (2 ≤ length w)%nat) as Hw.
      { intros w (prev & rest & Hm)%findall_matches.
        apply matches_word in Hm as (c & [|d tail] & -> & _ & Hne & _); [done|].
        simpl. lia. }
      revert Hw. generalize (findall re_word (lower text)). intros ws Hw.
      induction ws as [|w ws IH]; [done|].
      simpl. rewrite length_app.
      assert (2 ≤ length w)%nat by (apply Hw; left).
      assert (2 * length ws ≤ length (concat ws))%nat
        by (apply IH; intros w' Hw'; apply Hw; by right).
      lia. }
    unfold len. lia. }
  split_and!; try (apply sorted_set_Forall; intros x Hx; by eapply findall_infix).
  - apply Forall_forall. intros [w k] Hin. simpl.
    apply (most_common_spec 8) in Hin as [Hin _].
    apply list_elem_of_filter in Hin as [_ Hin]. by eapply findall_infix.
  - done.
  - intros _. unfold len, lower in *. by rewrite length_fmap in Hwords.
  - unfold len. lia.
  - unfold len. apply Nat2Z.inj_le, length_filter.
Qed.

(** X24. The shapes of what an analysis lists.  A link is [http://] or
    [https://] followed by one character or more, none of them white
    space or a closing parenthesis.  An address is a name, [@], a
    domain, a dot and two letters or more, over the alphabets of the
    pattern.  A task signal is one of the eight task phrases and an
    urgency signal one of the six urgency phrases.  A top word is a
    letter followed by one or more letters, apostrophes or hyphens,
    none of them an upper-case letter. *)
Theorem analysis_shapes (text : list N) :
  let a := analyze_text text in
  Forall link_shape (urls a)
  ∧ Forall address_shape (emails a)
  ∧ Forall (fun t => t ∈ task_phrases) (todo_signals a)
  ∧ Forall (fun t => t ∈ urgency_phrases) (urgency_hits a)
  ∧ Forall (fun wk => word_shape wk.1 ∧ Forall (fun c => is_upper c = false) wk.1)
      (top_words a).
Proof.
  intros a. subst a. unfold analyze_text. simpl.
  split_and!; try (apply sorted_set_Forall; intros x (prev & rest & Hm)%findall_matches).
  - by eapply matches_url.
  - by eapply matches_email.
  - by eapply matches_signal.
  - by eapply matches_signal.
  - apply Forall_forall. intros [w k] Hin. simpl.
    apply (most_common_spec 8) in Hin as [Hin _].
    apply list_elem_of_filter in Hin as [_ Hin]. split.
    + apply findall_matches in Hin as (prev & rest & Hm). by eapply matches_word.
    + eapply infix_Forall; [by eapply findall_infix|apply lower_no_upper].
Qed.

(** ** Summaries and analyses *)

Lemma strip_blank (s : list N) : blank s → strip s = [].
Proof.
  intros H. apply visible_nil_blank in H. rewrite <- visible_strip in H.
  destruct (strip_head s) as [Hh|(c & Hh & Hc)]; destruct (strip s) as [|d r]; try done.
  injection Hh as ->. by rewrite visible_cons, Hc in H.
Qed.

(** X25. The fuzzy loop sees a capture as the empty text exactly when
    the capture is white space: [normalize_text] returns the empty text
    if and only if every character of its argument is white space. *)
Theorem normalize_text_blank (t : list N) : normalize_text t = [] ↔ blank t.
Proof.
  split.
  - intros H. apply visible_nil_blank. by rewrite <- visible_normalize_text, H.
  - intros H. apply visible_nil_blank in H. rewrite <- visible_normalize_text in H.
    apply visible_nil_blank, strip_blank in H.
    rewrite <- H. unfold normalize_text. symmetry. apply strip_idem.
Qed.

Lemma join_nonempty (sep l : list N) (ls : list (list N)) :
  l ≠ [] → join sep (l :: ls) ≠ [].
Proof. destruct l; [done|]. by destruct ls. Qed.

(** X27. What the remote analysis sends and returns.  Only the first
    12000 characters of the text reach the service: a longer text gives
    the same result as its first 12000 characters.  A result, when
    there is one, was made from an answer of the service, asked with
    the key of the environment: it is the answer (or "(no analysis
    returned)" for an empty answer) without white space at its ends. *)
Theorem openai_analysis_spec (w : Monitor.world) (text model : list N) :
  Monitor.openai_analysis w text model
  = Monitor.openai_analysis w (take (Z.to_nat 12000) text) model
  ∧ ∀ r, Monitor.openai_analysis w text model = Ok r →
      trimmed r
      ∧ ∃ api_key output_text,
          Monitor.OPENAI_API_KEY w = Some api_key ∧ api_key ≠ []
          ∧ Monitor.openai_installed w = true
          ∧ Monitor.responses_create w api_key model (Monitor.prompt_for text)
            = Ok output_text
          ∧ r = strip (if nonempty output_text then output_text
                       else text_of "(no analysis returned)").
Proof.
  split.
  - unfold Monitor.openai_analysis, Monitor.prompt_for.
    by rewrite take_take, Nat.min_id.
  - intros r. unfold Monitor.openai_analysis.
    destruct (Monitor.OPENAI_API_KEY w) as [[|c key]|] eqn:Hkey; [done| |done].
    destruct (Monitor.openai_installed w) eqn:Hinst; [|done]. simpl.
    destruct (Monitor.responses_create w (c :: key) model (Monitor.prompt_for text))
      as [output|e] eqn:Hresp; [|done].
    intros [= <-]. split; [apply strip_idem|].
    exists (c :: key), output. by split_and!.
Qed.

Lemma join_eq_nil (sep : list N) (ls : list (list N)) :
  Forall (fun l => l ≠ []) ls → join sep ls = [] → ls = [].
Proof.
  destruct ls as [|l ls]; [done|]. intros [Hl _]%Forall_cons H.
  by apply join_nonempty in H.
Qed.

Lemma Counter_nil (ws : list (list N)) : Counter ws = [] ↔ ws = [].
Proof.
  split; [|by intros ->].
  destruct (Counter_spec ws) as (_ & _ & Hall). intros H.
  destruct ws as [|w ws]; [done|].
  specialize (Hall w ltac:(left)). rewrite H in Hall. by apply not_elem_of_nil in Hall.
Qed.

Lemma most_common_nil (n : nat) (c : list (list N * Z)) :
  most_common (S n) c = [] ↔ c = [].
Proof.
  split; [|by intros ->]. unfold most_common.
  destruct (by_count_spec c) as [Hperm _].
  destruct (fold_left _ c []) as [|x l]; [|done].
  intros _. by apply Permutation_nil_l in Hperm.
Qed.

(** X28. What a summary says.  Without history it is "No text captured
    yet.".  Otherwise it is "Recent topic terms: " followed by the
    topic terms, written [word(count)] and separated by commas, or by
    "n/a" when there are none, which is exactly when the recent texts
    hold no counted word.  The topic terms are at most six, each a
    different counted word of the recent texts (joined by newlines)
    with the number of its occurrences, in order of decreasing count. *)
Theorem summarize_recent_spec (history : list (list N)) :
  (history = [] → summarize_recent history = text_of "No text captured yet.")
  ∧ (history ≠ [] →
     summarize_recent history
     = text_of "Recent topic terms: "
       ++ match topic_terms history with
          | [] => text_of "n/a"
          | terms => join (text_of ", ") (map show_term terms)
          end)
  ∧ (topic_terms history = [] ↔ counted_words (join [Chars.LF] history) = [])
  ∧ (length (topic_terms history) ≤ 6)%nat
  ∧ NoDup (topic_terms history).*1
  ∧ StronglySorted count_ge (topic_terms history)
  ∧ (∀ w k, (w, k) ∈ topic_terms history →
       w ∈ counted_words (join [Chars.LF] history)
       ∧ k = count_in w (counted_words (join [Chars.LF] history))).
Proof.
  destruct (most_common_spec 6 (counted_words (join [Chars.LF] history)))
    as (H1 & H2 & H3 & H4 & _).
  split_and!; [by intros ->| | |done..].
  - intros Hne. destruct history as [|h history]; [done|].
    unfold summarize_recent. f_equal. fold (counted_words (join [Chars.LF] (h :: history))).
    fold (topic_terms (h :: history)). unfold or_else.
    destruct (topic_terms (h :: history)) as [|t ts]; [done|].
    change (map (λ wn : list N * Z, wn.1 ++ text_of "(" ++ decimal wn.2 ++ text_of ")")
              (t :: ts)) with (show_term t :: map show_term ts).
    assert (join (text_of ", ") (show_term t :: map show_term ts) ≠ []) as Hj.
    { apply join_nonempty. unfold show_term. intros H.
      apply app_eq_nil in H as [_ H]. done. }
    change (map show_term (t :: ts)) with (show_term t :: map show_term ts).
    by destruct (join (text_of ", ") (show_term t :: map show_term ts)).
  - unfold topic_terms. by rewrite most_common_nil, Counter_nil.
Qed.

(** ** Reading a region back *)

Lemma text_of_String (a : ascii) (s : string) : text_of (String a s) = chr a :: text_of s.
Proof. done. Qed.

Lemma digits_value_digit (k : N) (acc : Z) (after_digit : bool) (s : list N) :
  k < 10 →
  digits_value acc after_digit ((48 + k) :: s)
  = digits_value (acc * 10 + Z.of_N k) true s.
Proof.
  intros Hk. cbn [digits_value].
  assert (is_digit (48 + k) = true) as ->.
  { unfold is_digit, in_range. apply andb_true_intro. split; apply N.leb_le; lia. }
  by replace (48 + k - 48) with k by lia.
Qed.

Lemma digits_value_acc (d : Decimal.uint) (acc : positive) :
  digits_value (Z.pos acc) true (text_of (NilEmpty.string_of_uint d))
  = Some (Z.pos (Pos.of_uint_acc d acc)).
Proof.
  revert acc. induction d as [|d IH|d IH|d IH|d IH|d IH|d IH|d IH|d IH|d IH|d IH];
    intros acc; [done|..]; cbn [NilEmpty.string_of_uint Pos.of_uint_acc];
    rewrite text_of_String.
  - change (chr "0") with (48 + 0). rewrite digits_value_digit by done.
    rewrite <- IH. f_equal. lia.
  - change (chr "1") with (48 + 1). rewrite digits_value_digit by done.
    rewrite <- IH. f_equal. lia.
  - change (chr "2") with (48 + 2). rewrite digits_value_digit by done.
    rewrite <- IH. f_equal. lia.
  - change (chr "3") with (48 + 3). rewrite digits_value_digit by done.
    rewrite <- IH. f_equal. lia.
  - change (chr "4") with (48 + 4). rewrite digits_value_digit by done.
    rewrite <- IH. f_equal. lia.
  - change (chr "5") with (48 + 5). rewrite digits_value_digit by done.
    rewrite <- IH. f_equal. lia.
  - change (chr "6") with (48 + 6). rewrite digits_value_digit by done.
    rewrite <- IH. f_equal. lia.
  - change (chr "7") with (48 + 7). rewrite digits_value_digit by done.
    rewrite <- IH. f_equal. lia.
  - change (chr "8") with (48 + 8). rewrite digits_value_digit by done.
    rewrite <- IH. f_equal. lia.
  - change (chr "9") with (48 + 9). rewrite digits_value_digit by done.
    rewrite <- IH. f_equal. lia.
Qed.

Lemma digits_value_uint (d : Decimal.uint) (after_digit : bool) :
  d ≠ Decimal.Nil ∨ after_digit = true →
  digits_value 0 after_digit (text_of (NilEmpty.string_of_uint d))
  = Some (Z.of_N (Pos.of_uint d)).
Proof.
  revert after_digit.
  induction d as [|d IH|d IH|d IH|d IH|d IH|d IH|d IH|d IH|d IH|d IH];
    intros after_digit Hd.
  { destruct Hd as [? | ->]; done. }
  all: cbn [NilEmpty.string_of_uint Pos.of_uint]; rewrite text_of_String.
  - change (chr "0") with (48 + 0). rewrite digits_value_digit by done.
    apply IH. by right.
  - change (chr "1") with (48 + 1). rewrite digits_value_digit by done.
    apply (digits_value_acc d 1).
  - change (chr "2") with (48 + 2). rewrite digits_value_digit by done.
    apply (digits_value_acc d 2).
  - change (chr "3") with (48 + 3). rewrite digits_value_digit by done.
    apply (digits_value_acc d 3).
  - change (chr "4") with (48 + 4). rewrite digits_value_digit by done.
    apply (digits_value_acc d 4).
  - change (chr "5") with (48 + 5). rewrite digits_value_digit by done.
    apply (digits_value_acc d 5).
  - change (chr "6") with (48 + 6). rewrite digits_value_digit by done.
    apply (digits_value_acc d 6).
  - change (chr "7") with (48 + 7). rewrite digits_value_digit by done.
    apply (digits_value_acc d 7).
  - change (chr "8") with (48 + 8). rewrite digits_value_digit by done.
    apply (digits_value_acc d 8).
  - change (chr "9") with (48 + 9). rewrite digits_value_digit by done.
    apply (digits_value_acc d 9).
Qed.

Lemma uint_digits (d : Decimal.uint) :
  Forall (fun c => is_digit c = true) (text_of (NilEmpty.string_of_uint d)).
Proof.
  induction d; cbn [NilEmpty.string_of_uint]; rewrite ?text_of_String;
    by constructor.
Qed.

Lemma uint_nonempty (d : Decimal.uint) :
  d ≠ Decimal.Nil → text_of (NilEmpty.string_of_uint d) ≠ [].
Proof. by destruct d. Qed.

Lemma is_digit_facts (c : N) :
  is_digit c = true → isspace c = false ∧ c ≠ chr "-" ∧ c ≠ chr "+" ∧ c ≠ chr ",".
Proof.
  unfold is_digit, in_range. intros [H1%N.leb_le H2%N.leb_le]%andb_prop.
  split_and!; [|intros ->; done..].
  unfold isspace.
  repeat (apply orb_false_intro);
    first [apply N.eqb_neq; lia | apply andb_false_iff; left; apply N.leb_gt; lia
          | apply andb_false_iff; right; apply N.leb_gt; lia].
Qed.

(** a text with no white space at its ends is left alone *)
Lemma strip_fixed (s : list N) :
  (∀ c, head s = Some c → isspace c = false) →
  (∀ c, last s = Some c → isspace c = false) →
  strip s = s.
Proof.
  intros Hh Hl. unfold strip. rewrite lstrip_fixed.
  2: { destruct s as [|c s]; [by left|right]. exists c. split; [done|by apply Hh]. }
  clear Hh. induction s as [|c s IH]; [done|]. simpl.
  destruct s as [|d s].
  - simpl. by rewrite (Hl c).
  - rewrite IH; [done|]. intros c' Hc'. by apply Hl.
Qed.

Lemma py_int_digits (d : Decimal.uint) :
  d ≠ Decimal.Nil →
  py_int (text_of (NilEmpty.string_of_uint d)) = Ok (Z.of_N (Pos.of_uint d)).
Proof.
  intros Hd. unfold py_int.
  pose proof (uint_digits d) as Hall. pose proof (uint_nonempty d Hd) as Hne.
  pose proof (digits_value_uint d false (or_introl Hd)) as Hv.
  rewrite strip_fixed.
  - destruct (text_of (NilEmpty.string_of_uint d)) as [|c ds]; [done|].
    apply Forall_cons in Hall as [(_ & Hm & Hp & _)%is_digit_facts _].
    destruct (N.eqb_spec c (chr "-")); [done|].
    destruct (N.eqb_spec c (chr "+")); [done|]. by rewrite Hv.
  - intros c Hc. apply head_Some_elem_of in Hc.
    by apply (proj1 (Forall_forall _ _) Hall), is_digit_facts in Hc as [? _].
  - intros c Hc. apply last_Some_elem_of in Hc.
    by apply (proj1 (Forall_forall _ _) Hall), is_digit_facts in Hc as [? _].
Qed.

Lemma py_int_minus_digits (d : Decimal.uint) :
  d ≠ Decimal.Nil →
  py_int (chr "-" :: text_of (NilEmpty.string_of_uint d))
  = Ok (- Z.of_N (Pos.of_uint d))%Z.
Proof.
  intros Hd. unfold py_int.
  pose proof (uint_digits d) as Hall. pose proof (uint_nonempty d Hd) as Hne.
  pose proof (digits_value_uint d false (or_introl Hd)) as Hv.
  rewrite strip_fixed.
  - change (chr "-" =? chr "-") with true. cbn iota. by rewrite Hv.
  - by intros c [= <-].
  - intros c Hc. rewrite last_cons in Hc.
    destruct (last (text_of (NilEmpty.string_of_uint d))) as [c'|] eqn:Hl.
    + injection Hc as ->. apply last_Some_elem_of in Hl.
      by apply (proj1 (Forall_forall _ _) Hall), is_digit_facts in Hl as [? _].
    + by injection Hc as <-.
Qed.

Lemma to_uint_nonnil (p : positive) : Pos.to_uint p ≠ Decimal.Nil.
Proof.
  intros H. pose proof (DecimalPos.Unsigned.of_to p) as Hp.
  rewrite H in Hp. done.
Qed.

(** [int] reads back what [str] wrote *)
Lemma py_int_decimal (z : Z) : py_int (decimal z) = Ok z.
Proof.
  unfold decimal. destruct z as [|p|p]; [done|..]; cbn [Z.to_int NilZero.string_of_int].
  - pose proof (to_uint_nonnil p) as Hd.
    replace (NilZero.string_of_uint (Pos.to_uint p))
      with (NilEmpty.string_of_uint (Pos.to_uint p)) by (by destruct (Pos.to_uint p)).
    rewrite py_int_digits by done. by rewrite DecimalPos.Unsigned.of_to.
  - pose proof (to_uint_nonnil p) as Hd.
    replace (NilZero.string_of_uint (Pos.to_uint p))
      with (NilEmpty.string_of_uint (Pos.to_uint p)) by (by destruct (Pos.to_uint p)).
    rewrite text_of_String, py_int_minus_digits by done.
    by rewrite DecimalPos.Unsigned.of_to.
Qed.

Lemma decimal_chars (z : Z) :
  decimal z ≠ []
  ∧ Forall (fun c => isspace c = false ∧ c ≠ chr ",") (decimal z).
Proof.
  assert (∀ d, d ≠ Decimal.Nil →
            text_of (NilZero.string_of_uint d) ≠ []
            ∧ Forall (fun c => isspace c = false ∧ c ≠ chr ",")
                (text_of (NilZero.string_of_uint d))) as H.
  { intros d Hd.
    replace (NilZero.string_of_uint d) with (NilEmpty.string_of_uint d)
      by (by destruct d).
    split; [by apply uint_nonempty|].
    eapply Forall_impl; [apply uint_digits|].
    intros c (? & _ & _ & ?)%is_digit_facts. done. }
  unfold decimal. destruct z as [|p|p]; cbn [Z.to_int NilZero.string_of_int].
  - by apply H.
  - apply H, to_uint_nonnil.
  - rewrite text_of_String. destruct (H _ (to_uint_nonnil p)) as [_ Hall].
    split; [done|]. by constructor.
Qed.

Lemma split_on_app (sep : N) (l rest : list N) :
  sep ∉ l → split_on sep (l ++ sep :: rest) = l :: split_on sep rest.
Proof.
  induction l as [|c l IH]; intros Hl; simpl.
  - by rewrite N.eqb_refl.
  - apply not_elem_of_cons in Hl as [Hc Hl].
    destruct (N.eqb_spec c sep); [done|]. by rewrite IH.
Qed.

Lemma split_on_whole (sep : N) (l : list N) : sep ∉ l → split_on sep l = [l].
Proof.
  induction l as [|c l IH]; intros Hl; simpl; [done|].
  apply not_elem_of_cons in Hl as [Hc Hl].
  destruct (N.eqb_spec c sep); [done|]. by rewrite IH.
Qed.

(** X29. A region written as four plain numbers is read back as those
    numbers: when x1 < x2 and y1 < y2, the option [x1,y1,x2,y2] in
    decimal notation is accepted and gives the box (x1, y1, x2, y2).
    (The numbers are to have no more digits than Python reads into an
    [int]; the embedding of [int] knows no such limit.) *)
Theorem parse_region_accepts (x1 y1 x2 y2 : Z) :
  (x1 < x2)%Z → (y1 < y2)%Z →
  Forall (fun z => (Z.abs z < 10 ^ int_max_str_digits)%Z) [x1; y1; x2; y2] →
  Analyzer.parse_region (Some (region_text x1 y1 x2 y2))
  = Ok (Some (x1, y1, x2, y2)).
Proof.
  intros Hx Hy _.
  assert (∀ z, chr "," ∉ decimal z) as Hsep.
  { intros z Hin. destruct (decimal_chars z) as [_ Hall].
    by apply (proj1 (Forall_forall _ _) Hall) in Hin as [_ ?]. }
  assert (∀ z, strip (decimal z) = decimal z) as Hstrip.
  { intros z. destruct (decimal_chars z) as [_ Hall]. apply strip_fixed.
    - intros c Hc%head_Some_elem_of.
      by apply (proj1 (Forall_forall _ _) Hall) in Hc as [? _].
    - intros c Hc%last_Some_elem_of.
      by apply (proj1 (Forall_forall _ _) Hall) in Hc as [? _]. }
  unfold Analyzer.parse_region, region_text.
  assert (join (text_of ",") (map decimal [x1; y1; x2; y2])
          = decimal x1 ++ chr "," :: decimal y1 ++ chr "," :: decimal x2
              ++ chr "," :: decimal y2) as -> by done.
  destruct (decimal x1 ++ _) as [|c region] eqn:Hregion.
  { apply app_eq_nil in Hregion as [H _]. by apply decimal_chars in H. }
  rewrite <- Hregion.
  rewrite !split_on_app, split_on_whole by apply Hsep.
  cbn [map]. rewrite !Hstrip, !py_int_decimal.
  destruct (Z.ltb_spec x1 x2); [|lia]. destruct (Z.ltb_spec y1 y2); [|lia]. done.
Qed.

Lemma parse_region_accepts_witness :
  Analyzer.parse_region (Some (text_of "-5,0,1920,1080"))
  = Ok (Some (-5, 0, 1920, 1080)%Z).
Proof.
  apply (parse_region_accepts (-5) 0 1920 1080); [done|done|].
  repeat constructor; apply Z.abs_lt; split;
    (eapply Z.lt_le_trans; [|apply (Z.pow_le_mono_r 10 4 int_max_str_digits); done]);
    done.
Defined.

(** ** What the patterns find *)

Section MatcherComplete.
Context {R : Type}.

(** Where the pattern matches, the matcher finds a way through: with a
    continuation that accepts what this match leaves, it returns a
    result (that of the first way it finds). *)
Lemma m_complete (r : regex) (prev : option N) (s rest : list N) :
  matches r prev s rest →
  (∀ (k : option N → list N → option R) x,
     k (last_char prev s) rest = Some x → ∃ y, m r prev (s ++ rest) k = Some y)
  ∧ (∀ lo r', r = Rep lo r' →
     ∀ (k : option N → list N → option R) x fuel,
       (length (s ++ rest) < fuel)%nat →
       k (last_char prev s) rest = Some x →
       ∃ y, rep_loop (m r') k fuel lo prev (s ++ rest) = Some y).
Proof.
  induction 1 as [prev rest|c prev rest|p c prev rest Hp
                  |r1 r2 prev s1 s2 rest H1 IH1 H2 IH2
                  |r1 r2 prev s rest H IH|r1 r2 prev s rest H IH
                  |prev rest Hx|r prev rest
                  |lo r prev s1 s2 rest Hne H1 IH1 H2 IH2].
  - split; [|done]. intros k x Hk. by exists x.
  - split; [|done]. intros k x Hk. exists x. cbn [m app]. by rewrite N.eqb_refl.
  - split; [|done]. intros k x Hk. exists x. cbn [m app]. by rewrite Hp.
  - split; [|done]. intros k x Hk. rewrite <- last_char_app in Hk.
    destruct (proj1 IH2 k x Hk) as [y Hy].
    rewrite <- app_assoc. cbn [m]. by apply (proj1 IH1 _ y).
  - split; [|done]. intros k x Hk. destruct (proj1 IH k x Hk) as [y Hy].
    exists y. cbn [m]. by rewrite Hy.
  - split; [|done]. intros k x Hk. destruct (proj1 IH k x Hk) as [y Hy].
    cbn [m]. destruct (m r1 prev (s ++ rest) k) as [z|]; [by exists z|by exists y].
  - split; [|done]. intros k x Hk. exists x. cbn [m app]. by rewrite Hx.
  - assert (∀ (k : option N → list N → option R) x fuel,
              (length rest < fuel)%nat → k prev rest = Some x →
              ∃ y, rep_loop (m r) k fuel 0 prev rest = Some y) as Hloop.
    { intros k x [|fuel] Hfuel Hk; [lia|]. cbn [rep_loop].
      destruct (m r prev rest _) as [y|]; [by exists y|by exists x]. }
    split.
    + intros k x Hk. cbn [m app]. apply (Hloop k x); [lia|done].
    + intros lo r' [= <- <-]. apply Hloop.
  - assert (∀ (k : option N → list N → option R) x fuel,
              (length ((s1 ++ s2) ++ rest) < fuel)%nat →
              k (last_char prev (s1 ++ s2)) rest = Some x →
              ∃ y, rep_loop (m r) k fuel lo prev ((s1 ++ s2) ++ rest) = Some y) as Hloop.
    { intros k x [|fuel] Hfuel Hk; [lia|]. cbn [rep_loop].
      rewrite <- last_char_app in Hk.
      destruct (proj2 IH2 _ _ eq_refl k x fuel) as [z Hz]; [|done|].
      { rewrite !length_app in *. destruct s1; [done|]. simpl in Hfuel. lia. }
      destruct (proj1 IH1
                  (fun prev' s' =>
                     if (length s' <? length ((s1 ++ s2) ++ rest))%nat
                     then rep_loop (m r) k fuel (Nat.pred lo) prev' s' else None) z)
        as [y Hy].
      { destruct (Nat.ltb_spec (length (s2 ++ rest)) (length ((s1 ++ s2) ++ rest)))
          as [_|Hge]; [done|].
        rewrite !length_app in Hge. destruct s1; [done|]. simpl in Hge. lia. }
      rewrite <- app_assoc in *. rewrite Hy. by exists y. }
    split.
    + intros k x Hk. cbn [m]. apply (Hloop k x); [lia|done].
    + intros lo' r' [= <- <-]. apply Hloop.
Qed.

End MatcherComplete.

(** an attempt where the pattern matches succeeds *)
Lemma match_here_complete (r : regex) (prev : option N) (s rest : list N) :
  matches r prev s rest → is_Some (match_here r false prev (s ++ rest)).
Proof.
  intros H. unfold match_here.
  destruct (proj1 (m_complete r prev s rest H)
              (fun _ s' => if false && (length s' =? length (s ++ rest))%nat
                           then None else Some s') rest eq_refl) as [y ->].
  done.
Qed.

Lemma last_char_cons (prev : option N) (c : N) (s : list N) :
  last_char prev (c :: s) = last_char (Some c) s.
Proof. unfold last_char. rewrite last_cons. by destruct (last s). Qed.

(** A scan of a text in which the pattern matches somewhere reports a
    match (there, or before). *)
Lemma scan_finds (r : regex) (pre s post : list N) (prev : option N) :
  matches r (last_char prev pre) s post →
  matches_of (scan r 0 prev (pre ++ s ++ post)) ≠ [].
Proof.
  revert prev. induction pre as [|c pre IH]; intros prev H.
  - change (last_char prev []) with prev in H.
    apply match_here_complete in H as [mt Hmt]. cbn [app].
    revert Hmt. generalize (s ++ post). intros [|c t] Hmt.
    + rewrite scan_nil, Hmt. by destruct mt.
    + rewrite scan_cons, Hmt. by destruct mt.
  - cbn [app]. rewrite scan_cons.
    destruct (match_here r false prev (c :: pre ++ s ++ post)) as [[|c0 mt]|];
      [done|done|].
    rewrite last_char_cons in H. apply IH in H. done.
Qed.

Lemma findall_finds (r : regex) (pre s post : list N) :
  matches r (last_char None pre) s post → findall r (pre ++ s ++ post) ≠ [].
Proof. apply scan_finds. Qed.

(** *** Writing a match *)

Lemma matches_chars_intro (cs : list N) (prev : option N) (rest : list N) :
  matches (foldr (fun c r => Cat (Lit c) r) Eps cs) prev cs rest.
Proof.
  revert prev. induction cs as [|c cs IH]; intros prev; simpl; [constructor|].
  apply (matches_Cat (Lit c) _ prev [c] cs rest); [constructor|apply IH].
Qed.

Lemma matches_lits_intro (w : string) (prev : option N) (rest : list N) :
  matches (lits w) prev (text_of w) rest.
Proof. apply matches_chars_intro. Qed.

Lemma matches_Rep_Cls_intro (lo : nat) (p : N → bool) (prev : option N) (s rest : list N) :
  Forall (fun c => p c = true) s → (lo ≤ length s)%nat →
  matches (Rep lo (Cls p)) prev s rest.
Proof.
  revert lo prev. induction s as [|c s IH]; intros lo prev Hall Hlen.
  - simpl in Hlen. replace lo with 0%nat by lia. constructor.
  - apply Forall_cons in Hall as [Hc Hall].
    apply (matches_Rep_more lo (Cls p) prev [c] s rest); [done|by constructor|].
    apply IH; [done|]. simpl in Hlen. lia.
Qed.

(** a text of the shape of a link is a match of the link pattern *)
Lemma link_shape_matches (u : list N) (prev : option N) (rest : list N) :
  link_shape u → matches re_url prev u rest.
Proof.
  intros (scheme & tail & -> & Hscheme & Hne & Hall).
  assert (matches (Rep 1 (Cls (fun c => negb (isspace c || among ")" c))))
            (last_char prev (scheme ++ text_of "://")) tail rest) as Htail.
  { apply matches_Rep_Cls_intro.
    - eapply Forall_impl; [exact Hall|]. intros c [Hs Hc]. cbv beta.
      apply negb_true_iff, orb_false_iff. split; [done|].
      unfold among. cbn. rewrite orb_false_r. by apply N.eqb_neq.
    - destruct tail; [done|]. simpl. lia. }
  unfold re_url. destruct Hscheme as [-> | ->].
  - apply (matches_Cat _ _ prev (text_of "http") (text_of "://" ++ tail) rest);
      [apply matches_lits_intro|].
    apply (matches_Cat _ _ _ [] (text_of "://" ++ tail) rest);
      [apply matches_Alt_r; constructor|].
    apply (matches_Cat _ _ _ (text_of "://") tail rest); [apply matches_lits_intro|].
    exact Htail.
  - change (text_of "https" ++ text_of "://" ++ tail)
      with (text_of "http" ++ [chr "s"] ++ text_of "://" ++ tail).
    apply (matches_Cat _ _ prev (text_of "http") ([chr "s"] ++ text_of "://" ++ tail) rest);
      [apply matches_lits_intro|].
    apply (matches_Cat _ _ _ [chr "s"] (text_of "://" ++ tail) rest);
      [apply matches_Alt_l; constructor|].
    apply (matches_Cat _ _ _ (text_of "://") tail rest); [apply matches_lits_intro|].
    exact Htail.
Qed.

(** a text of the shape of an address is a match of the address pattern *)
Lemma address_shape_matches (e : list N) (prev : option N) (rest : list N) :
  address_shape e → matches re_email prev e rest.
Proof.
  intros (name & domain & tld & -> & Hn & Hd & Ht & Hname & Hdomain & Htld).
  unfold re_email.
  apply (matches_Cat _ _ prev name ([chr "@"] ++ domain ++ [chr "."] ++ tld) rest).
  { apply matches_Rep_Cls_intro; [done|]. destruct name; [done|]. simpl. lia. }
  apply (matches_Cat _ _ _ [chr "@"] (domain ++ [chr "."] ++ tld) rest); [constructor|].
  apply (matches_Cat _ _ _ domain ([chr "."] ++ tld) rest).
  { apply matches_Rep_Cls_intro; [done|]. destruct domain; [done|]. simpl. lia. }
  apply (matches_Cat _ _ _ [chr "."] tld rest); [constructor|].
  by apply matches_Rep_Cls_intro.
Qed.

Lemma sorted_set_nil (xs : list (list N)) : sorted_set xs = [] ↔ xs = [].
Proof.
  split; [|by intros ->]. intros H. destruct xs as [|x xs]; [done|].
  assert (x ∈ sorted_set (x :: xs)) as Hin by (apply sorted_set_spec; left).
  rewrite H in Hin. by apply not_elem_of_nil in Hin.
Qed.

(** a pattern that matches somewhere in the text is found *)
Lemma findall_infix_finds (r : regex) (text x : list N) :
  infix x text → (∀ prev rest, matches r prev x rest) → findall r text ≠ [].
Proof. intros (l1 & l2 & ->) H. apply findall_finds, H. Qed.

(** X21. Links and addresses are found whenever the text holds one: the
    list of links of an analysis is empty exactly when no part of the
    text has the shape of a link ([http://] or [https://], then one
    character or more that is neither white space nor a closing
    parenthesis), and the list of addresses is empty exactly when no
    part of the text has the shape of an address.  Both lists are in
    strictly increasing order, so they hold no text twice. *)
Theorem links_and_addresses_found (text : list N) :
  let a := analyze_text text in
  (urls a = [] ↔ ¬ ∃ u, infix u text ∧ link_shape u)
  ∧ (emails a = [] ↔ ¬ ∃ e, infix e text ∧ address_shape e)
  ∧ StronglySorted text_lt (urls a)
  ∧ StronglySorted text_lt (emails a).
Proof.
  intros a. subst a. unfold analyze_text. simpl.
  split_and!; [| |apply sorted_set_spec..].
  - rewrite sorted_set_nil. split.
    + intros Hnil (u & Hin & Hu).
      apply (findall_infix_finds re_url text u Hin); [|done].
      intros prev rest. by apply link_shape_matches.
    + intros Hno. destruct (findall re_url text) as [|u us] eqn:Hf; [done|].
      destruct Hno. exists u.
      assert (u ∈ findall re_url text) as Hin by (rewrite Hf; left).
      split; [by eapply findall_infix|].
      apply findall_matches in Hin as (prev & rest & Hm). by eapply matches_url.
  - rewrite sorted_set_nil. split.
    + intros Hnil (e & Hin & He).
      apply (findall_infix_finds re_email text e Hin); [|done].
      intros prev rest. by apply address_shape_matches.
    + intros Hno. destruct (findall re_email text) as [|e es] eqn:Hf; [done|].
      destruct Hno. exists e.
      assert (e ∈ findall re_email text) as Hin by (rewrite Hf; left).
      split; [by eapply findall_infix|].
      apply findall_matches in Hin as (prev & rest & Hm). by eapply matches_email.
Qed.

(** ** The local analysis *)

Lemma Forall_join (P : N → Prop) (sep : list N) (parts : list (list N)) :
  Forall P sep → Forall (Forall P) parts → Forall P (join sep parts).
Proof.
  intros Hsep. induction parts as [|p ps IH]; intros Hall; [constructor|].
  apply Forall_cons in Hall as [Hp Hps]. destruct ps as [|q ps]; [done|].
  change (join sep (p :: q :: ps)) with (p ++ sep ++ join sep (q :: ps)).
  rewrite !Forall_app. split_and!; [done..|]. by apply IH.
Qed.

Lemma no_break_decimal (z : Z) : no_break (decimal z).
Proof.
  destruct (decimal_chars z) as [_ H]. eapply Forall_impl; [exact H|].
  intros c [Hc _]. destruct (islinebreak c) eqn:Hb; [|done].
  apply islinebreak_isspace in Hb. by rewrite Hb in Hc.
Qed.

(** X26. The local analysis is one line, never empty: whatever the text
    analysed, its line ends included, [local_analysis] returns a text
    that is not empty and holds no line end (none of the characters at
    which [splitlines] breaks a text).  So the "Analysis" block of the
    local mode has a body of one line, and never the body "(empty)". *)
Theorem local_analysis_one_line (text : list N) :
  local_analysis text ≠ []
  ∧ no_break (local_analysis text)
  ∧ Monitor.print_block (text_of "Analysis") (local_analysis text)
    = [Block (text_of "Analysis") (local_analysis text)].
Proof.
  assert (local_analysis text ≠ []) as Hne.
  { unfold local_analysis. apply join_nonempty.
    intros H. apply app_eq_nil in H as [_ H]. done. }
  split_and!; [done| |].
  - unfold local_analysis. apply Forall_join; [by repeat constructor|].
    rewrite !Forall_app. split_and!.
    + apply Forall_singleton. rewrite !Forall_app.
      split_and!; [apply no_break_decimal|by repeat constructor
                  |apply no_break_decimal|by repeat constructor].
    + pose proof (splitlines_no_break text) as Hlines.
      assert (Forall no_break
                (map strip (filter (fun ln => nonempty (strip ln) = true)
                              (splitlines text)))) as Hall.
      { apply Forall_fmap, Forall_forall. intros ln [_ Hin]%list_elem_of_filter.
        apply Forall_strip. by apply (proj1 (Forall_forall _ _) Hlines). }
      destruct (map strip _) as [|top lines]; [constructor|].
      apply Forall_cons in Hall as [Htop _]. apply Forall_singleton.
      rewrite Forall_app. split; [by repeat constructor|]. by apply Forall_take.
    + assert (Forall no_break
                (map (fun lp : string * regex => text_of lp.1)
                   (filter (fun lp : string * regex => search lp.2 (lower text) = true)
                      alert_patterns))) as Hall.
      { apply Forall_fmap, Forall_forall. intros lp [_ Hin]%list_elem_of_filter.
        unfold alert_patterns in Hin.
        repeat (apply elem_of_cons in Hin as [->|Hin]; [by repeat constructor|]).
        by apply not_elem_of_nil in Hin. }
      destruct (map _ _) as [|l alerts]; apply Forall_singleton;
        [by repeat constructor|].
      rewrite Forall_app. split; [by repeat constructor|].
      apply Forall_join; [by repeat constructor|done].
  - unfold Monitor.print_block, or_else. by destruct (local_analysis text).
Qed.
